(** * ADAPT-VQE and UCCSD: a shallow embedding

    The development follows four source files of the repository:

    - [qsdk/electronic_structure_solvers/adapt_vqe_solver.py]
      ([ADAPTSolver]: option handling in [__init__], the pool ranking
      [rank_pool], the growth loop [simulate] and the default optimizer
      [LBFGSB_optimizer]);
    - [qsdk/toolboxes/ansatz_generator/uccsd.py]
      ([UCCSD]: [__init__], [set_var_params], [build_circuit],
      [update_var_params] and the two methods that compute the qubit
      operator);
    - [qsdk/toolboxes/qubit_mappings/mapping_transform.py]
      ([fermion_to_qubit_mapping] and [make_up_then_down]);
    - [qsdk/toolboxes/ansatz_generator/_general_unitary_cc.py]
      (the generalized singles and doubles).

    Python floats are read as the rationals they denote: every finite binary64
    value is a rational and the operations the code applies to energies and
    gradients ([abs], [max], [>=], [==]) are exact on them.  Where the code
    computes with floats and the result is rounded, the rounding is part of
    the model: the sum and the product of the rotation angles are operations
    of their own, and the quotient [n_electrons / 2] is the float nearest to
    it.  Exceptions are values of [exn]; a method that can raise returns a
    [result]. *)

From Stdlib Require Import QArith Qabs Qround Lia Lqa.
From stdpp Require Import gmap strings list fin_maps.
From stdpp Require Import sorting list_numbers.
Close Scope Q_scope.

(** ** Python values, exceptions and dictionaries *)

Module Py.

Inductive exn : Type :=
| KeyError (key : string)
| ValueError
| IndexError
| AttributeError
| OverflowError.

Inductive result (A : Type) : Type :=
| Ok (a : A)
| Raise (e : exn).
Arguments Ok {A} a.
Arguments Raise {A} e.

Definition bind {A B : Type} (r : result A) (k : A → result B) : result B :=
  match r with
  | Ok a => k a
  | Raise e => Raise e
  end.

Definition is_ok {A : Type} (r : result A) : bool :=
  match r with Ok _ => true | Raise _ => false end.

(** The values that occur as option values of the solvers.  [VObj] is an
    object opaque to the solver (a molecule, a mean field, a qubit operator):
    only its class name and what [bool()] answers on it are kept. *)
#[local] Unset Elimination Schemes.
Inductive value : Type :=
| VNone
| VBool (b : bool)
| VInt (n : Z)
| VFloat (x : Q)
| VStr (s : string)
| VDict (items : list (string * value))
| VEnum (cls member : string)
| VMethod (name : string)
| VObj (cls : string) (truth : bool).
#[local] Set Elimination Schemes.

(** [bool(v)] *)
Definition truthy (v : value) : bool :=
  match v with
  | VNone => false
  | VBool b => b
  | VInt n => negb (n =? 0)%Z
  | VFloat x => negb (Qeq_bool x 0)
  | VStr s => negb (String.eqb s "")
  | VDict items => match items with [] => false | _ => true end
  | VEnum _ _ => true
  | VMethod _ => true
  | VObj _ t => t
  end.

(** A dictionary display [{k1: v1, ..., kn: vn}]: the items are stored from
    left to right, so that a key written twice keeps its last value. *)
Definition dict_display (items : list (string * value)) : gmap string value :=
  foldl (λ d kv, <[kv.1 := kv.2]> d) ∅ items.

(** [k in d] *)
Definition contains (d : gmap string value) (k : string) : bool :=
  bool_decide (is_Some (d !! k)).

(** [d[k]] of a user dictionary given by its items in iteration order (a
    dictionary has one item per key; on a list with repeats the last one is
    the one a dictionary built from it would hold). *)
Fixpoint items_get (items : list (string * value)) (k : string) : option value :=
  match items with
  | [] => None
  | (k', v) :: rest =>
      match items_get rest k with
      | Some w => Some w
      | None => if decide (k' = k) then Some v else None
      end
  end.

(** The binary64 value of the literal [1e-3]. *)
Definition float_1e_3 : Q := (1152921504606847 # 1152921504606846976)%Q.

End Py.

Export Py.

(** ** ADAPTSolver: construction *)

Module ADAPTInit.

Definition default_backend_options : value :=
  VDict [("target", VStr "qulacs"); ("n_shots", VNone); ("noise_model", VNone)].

(** The display of [default_options] in [__init__], in source order; the key
    ["verbose"] is written twice. *)
Definition default_options_items : list (string * value) :=
  [ ("molecule", VNone); ("mean_field", VNone); ("verbose", VBool false);
    ("tol", VFloat float_1e_3); ("max_cycles", VInt 15);
    ("qubit_mapping", VStr "jw");
    ("ansatz", VEnum "ADAPTAnsatze" "UCCGSD");
    ("frozen_orbitals", VStr "frozen_core");
    ("qubit_hamiltonian", VNone);
    ("n_spinorbitals", VNone);
    ("n_electrons", VNone);
    ("optimizer", VMethod "LBFGSB_optimizer");
    ("backend_options", default_backend_options);
    ("up_then_down", VBool false);
    ("verbose", VBool true) ].

Definition default_options : gmap string value :=
  dict_display default_options_items.

(** [for k, v in opt_dict.items(): ...].  [self.__dict__] and
    [default_options] are one object, so the membership test reads the
    dictionary that [setattr] writes. *)
Fixpoint overwrite (self : gmap string value) (items : list (string * value))
  : result (gmap string value) :=
  match items with
  | [] => Ok self
  | (k, v) :: rest =>
      if contains self k then overwrite (<[k := v]> self) rest
      else Raise (KeyError k)
  end.

(** [self.x] for an attribute held in [self.__dict__]. *)
Definition getattr (self : gmap string value) (k : string) : value :=
  default VNone (self !! k).

(** [ADAPTSolver.__init__(self, opt_dict)]; the result is [self.__dict__].
    No backend is in reach of the constructor: it reads [opt_dict] only. *)
Definition __init__ (opt_dict : list (string * value)) : result (gmap string value) :=
  bind (overwrite default_options opt_dict) (λ self,
    if negb (xorb (truthy (getattr self "molecule"))
                  (truthy (getattr self "qubit_hamiltonian")))
    then Raise ValueError
    else
      Ok (<["builtin_ansatze" := VObj "set" true]>
          (<["optimal_circuit" := VNone]>
          (<["optimal_var_params" := VNone]>
          (<["optimal_energy" := VNone]>
          (<["iteration" := VInt 0]>
          (<["converged" := VBool false]> self))))))).

(** The keys [__init__] recognises, as the display lists them. *)
Definition recognized (k : string) : Prop := k ∈ default_options_items.*1.

(** What the caller supplied for [k]: the value of [k] in [opt_dict], read
    by [bool()]; an absent key, [None] and other false values count as not
    supplied. *)
Definition supplied (opt_dict : list (string * value)) (k : string) : bool :=
  match items_get opt_dict k with
  | Some v => truthy v
  | None => false
  end.

(** The first key of [opt_dict] that is not recognised, if any. *)
Fixpoint first_unknown (items : list (string * value)) : option string :=
  match items with
  | [] => None
  | (k, _) :: rest =>
      if bool_decide (recognized k) then first_unknown rest else Some k
  end.

End ADAPTInit.

(** ** ADAPTSolver: pool ranking and the growth loop *)

Module ADAPT.

(** [max(l)]: the first item is the running maximum and a later item replaces
    it only when it is strictly greater. *)
Fixpoint py_max_from (m : Q) (l : list Q) : Q :=
  match l with
  | [] => m
  | y :: l' => py_max_from (if Qle_bool y m then m else y) l'
  end.

Definition py_max (l : list Q) : result Q :=
  match l with
  | [] => Raise ValueError
  | y :: l' => Ok (py_max_from y l')
  end.

(** [l.index(v)]: the first position holding a value equal to [v]. *)
Fixpoint py_index (l : list Q) (v : Q) : result nat :=
  match l with
  | [] => Raise ValueError
  | y :: l' => if Qeq_bool y v then Ok 0 else bind (py_index l' v) (λ i, Ok (S i))
  end.

(** [l[i]] for an index that is not negative. *)
Definition py_getitem {A : Type} (l : list A) (i : Z) : result A :=
  match l !! Z.to_nat i with
  | Some a => Ok a
  | None => Raise IndexError
  end.

Section Solver.

Context {QubitOperator FermionOperator : Type}.

(** Modelled from the spec: the circuit of the adaptive ansatz (class
    [ADAPTUCCGSD], not among the sources), a derived artifact of the ordered
    terms and of the parameters loaded into them. *)
Record Circuit : Type := {
  terms : list QubitOperator;
  angles : list Q
}.

Record Ansatz : Type := {
  operators : list QubitOperator;
  ferm_operators : list FermionOperator;
  var_params : list Q;
  circuit : Circuit
}.

(** Modelled from the spec: [add_operator(descriptor, initial_parameter=0.0)]
    of the missing class [ADAPTUCCGSD] appends a term; an operator already in
    the ansatz is appended again (the loop does not keep the ranking from
    selecting a pool index twice). *)
Definition add_operator (a : Ansatz) (op : QubitOperator) (fop : FermionOperator) : Ansatz :=
  {| operators := operators a ++ [op];
     ferm_operators := ferm_operators a ++ [fop];
     var_params := var_params a;
     circuit := {| terms := terms (circuit a) ++ [op];
                   angles := angles (circuit a) ++ [0%Q] |} |}.

(** Modelled from the spec: [update_parameters(parameters)] and
    [build_circuit(parameters)] of the missing class [ADAPTUCCGSD] load a full
    parameter vector into the circuit and fail when its length disagrees with
    the term count. *)
Definition update_var_params (a : Ansatz) (v : list Q) : result Ansatz :=
  if bool_decide (length v = length (operators a))
  then Ok {| operators := operators a;
             ferm_operators := ferm_operators a;
             var_params := v;
             circuit := {| terms := terms (circuit a); angles := v |} |}
  else Raise ValueError.

Definition build_circuit (a : Ansatz) (v : list Q) : result Ansatz :=
  update_var_params a v.

(** What [scipy.optimize.minimize] answers: [result.x], [result.fun] and, in
    place of the count [result.nfev], the points at which the objective was
    called, in order. *)
Record OptimizeResult : Type := {
  res_x : list Q;
  res_fun : Q;
  res_evals : list (list Q)
}.

Definition nfev (r : OptimizeResult) : nat := length (res_evals r).

(** The type of [scipy.optimize.minimize] with the method and options
    [LBFGSB_optimizer] fixes, and of any optimizer a caller plugs in:
    from the objective and a start vector to a result. *)
Definition Minimizer : Type := (list Q → result Q) → list Q → result OptimizeResult.

(** The ["optimizer"] option: the bound method [LBFGSB_optimizer] by default,
    or a callable of the caller. *)
Inductive Optimizer : Type :=
| DefaultLBFGSB
| UserOptimizer (f : Minimizer).

(** [simulate_calls] is ghost: it counts the calls of
    [vqe_solver.simulate()]. *)
Record VQESolver : Type := {
  ansatz : Ansatz;
  initial_var_params : list Q;
  qubit_hamiltonian : QubitOperator;
  simulate_calls : nat
}.

Record ADAPTSolver : Type := {
  tol : Q;
  max_cycles : Z;
  verbose : bool;
  optimizer : Optimizer;
  converged : bool;
  iteration : Z;
  optimal_energy : option Q;
  optimal_var_params : option (list Q);
  optimal_circuit : option Circuit;
  vqe_solver : VQESolver;
  pool_operators : list QubitOperator;
  fermionic_operators : list FermionOperator;
  pool_commutators : list QubitOperator
}.

Definition with_ansatz (v : VQESolver) (a : Ansatz) : VQESolver :=
  {| ansatz := a; initial_var_params := initial_var_params v;
     qubit_hamiltonian := qubit_hamiltonian v; simulate_calls := simulate_calls v |}.

Definition with_initial_var_params (v : VQESolver) (x0 : list Q) : VQESolver :=
  {| ansatz := ansatz v; initial_var_params := x0;
     qubit_hamiltonian := qubit_hamiltonian v; simulate_calls := simulate_calls v |}.

Definition count_simulate (v : VQESolver) : VQESolver :=
  {| ansatz := ansatz v; initial_var_params := initial_var_params v;
     qubit_hamiltonian := qubit_hamiltonian v; simulate_calls := S (simulate_calls v) |}.

Definition with_vqe_solver (self : ADAPTSolver) (v : VQESolver) : ADAPTSolver :=
  {| tol := tol self; max_cycles := max_cycles self; verbose := verbose self;
     optimizer := optimizer self; converged := converged self;
     iteration := iteration self; optimal_energy := optimal_energy self;
     optimal_var_params := optimal_var_params self;
     optimal_circuit := optimal_circuit self; vqe_solver := v;
     pool_operators := pool_operators self;
     fermionic_operators := fermionic_operators self;
     pool_commutators := pool_commutators self |}.

Definition with_iteration (self : ADAPTSolver) (n : Z) : ADAPTSolver :=
  {| tol := tol self; max_cycles := max_cycles self; verbose := verbose self;
     optimizer := optimizer self; converged := converged self;
     iteration := n; optimal_energy := optimal_energy self;
     optimal_var_params := optimal_var_params self;
     optimal_circuit := optimal_circuit self; vqe_solver := vqe_solver self;
     pool_operators := pool_operators self;
     fermionic_operators := fermionic_operators self;
     pool_commutators := pool_commutators self |}.

Definition with_converged (self : ADAPTSolver) (b : bool) : ADAPTSolver :=
  {| tol := tol self; max_cycles := max_cycles self; verbose := verbose self;
     optimizer := optimizer self; converged := b;
     iteration := iteration self; optimal_energy := optimal_energy self;
     optimal_var_params := optimal_var_params self;
     optimal_circuit := optimal_circuit self; vqe_solver := vqe_solver self;
     pool_operators := pool_operators self;
     fermionic_operators := fermionic_operators self;
     pool_commutators := pool_commutators self |}.

Definition with_optimum (self : ADAPTSolver) (e : Q) (v : list Q) (c : option Circuit)
  : ADAPTSolver :=
  {| tol := tol self; max_cycles := max_cycles self; verbose := verbose self;
     optimizer := optimizer self; converged := converged self;
     iteration := iteration self; optimal_energy := Some e;
     optimal_var_params := Some v;
     optimal_circuit := c; vqe_solver := vqe_solver self;
     pool_operators := pool_operators self;
     fermionic_operators := fermionic_operators self;
     pool_commutators := pool_commutators self |}.

(** The backend, [Simulator.get_expectation_value(operator, circuit)]. *)
Variable get_expectation_value : QubitOperator → Circuit → Q.

(** [scipy.optimize.minimize(func, var_params, method="L-BFGS-B", options=...)]. *)
Variable minimize : Minimizer.

(** [ADAPTSolver.rank_pool(self, pool_commutators, circuit, backend, tolerance)];
    under [verbose] the printed line evaluates [gradient.index(max_partial)]
    too. *)
Definition rank_pool (self : ADAPTSolver) (pool_commutators : list QubitOperator)
    (circuit : Circuit) (backend : QubitOperator → Circuit → Q) (tolerance : Q)
  : result Z :=
  let gradient := map (λ element, Qabs (backend element circuit)) pool_commutators in
  bind (py_max gradient) (λ max_partial,
  bind (if verbose self then bind (py_index gradient max_partial) (λ _, Ok tt) else Ok tt)
    (λ _,
  if Qle_bool tolerance max_partial
  then bind (py_index gradient max_partial) (λ i, Ok (Z.of_nat i))
  else Ok (-1)%Z)).

(** Modelled from the spec: the objective of the missing class [VQESolver]
    refreshes the ansatz through [update_parameters], then requests one
    expectation value of the Hamiltonian against the resulting circuit. *)
Definition energy_estimation (v : VQESolver) (x : list Q) : result (Q * VQESolver) :=
  bind (update_var_params (ansatz v) x) (λ a,
    Ok (get_expectation_value (qubit_hamiltonian v) (circuit a), with_ansatz v a)).

(** The objective as the optimizer sees it: the energy [energy_estimation]
    returns, as a function of the vector alone. *)
Definition objective (v : VQESolver) : list Q → result Q :=
  λ x, match update_var_params (ansatz v) x with
       | Ok a => Ok (get_expectation_value (qubit_hamiltonian v) (circuit a))
       | Raise e => Raise e
       end.

(** The side effect the objective leaves behind once the optimizer has called
    it at the points [evals]: the parameters of the last call that went
    through are the ones loaded. *)
Definition replay (v : VQESolver) (evals : list (list Q)) : VQESolver :=
  foldl (λ v x, match energy_estimation v x with
                | Ok r => r.2
                | Raise _ => v
                end) v evals.

(** [ADAPTSolver.LBFGSB_optimizer(self, func, var_params)], where [func] is the
    objective of [self.vqe_solver]; [self.ansatz] and [self.vqe_solver.ansatz]
    are one object. *)
Definition LBFGSB_optimizer (self : ADAPTSolver) (var_params : list Q)
  : result ((Q * list Q) * ADAPTSolver) :=
  bind (minimize (objective (vqe_solver self)) var_params) (λ result,
  let self := with_vqe_solver self (replay (vqe_solver self) (res_evals result)) in
  let self := with_optimum self (res_fun result) (res_x result) (optimal_circuit self) in
  bind (if converged self || (iteration self =? max_cycles self)%Z
        then bind (build_circuit (ansatz (vqe_solver self)) (res_x result)) (λ a,
               let self := with_vqe_solver self (with_ansatz (vqe_solver self) a) in
               Ok (with_optimum self (res_fun result) (res_x result) (Some (circuit a))))
        else Ok self) (λ self,
  Ok ((res_fun result, res_x result), self))).

(** Modelled from the spec: [simulate()] of the missing class [VQESolver] hands
    the objective and [initial_var_params] to the optimizer and returns the
    optimal energy and parameters. *)
Definition vqe_simulate (self : ADAPTSolver) : result ((Q * list Q) * ADAPTSolver) :=
  let self := with_vqe_solver self (count_simulate (vqe_solver self)) in
  match optimizer self with
  | DefaultLBFGSB => LBFGSB_optimizer self (initial_var_params (vqe_solver self))
  | UserOptimizer f =>
      bind (f (objective (vqe_solver self)) (initial_var_params (vqe_solver self)))
        (λ result,
          Ok ((res_fun result, res_x result),
              with_vqe_solver self (replay (vqe_solver self) (res_evals result))))
  end.

(** The callable behind [self.optimizer]. *)
Definition optimizer_fn (self : ADAPTSolver) : Minimizer :=
  match optimizer self with
  | DefaultLBFGSB => minimize
  | UserOptimizer f => f
  end.

(** An optimizer answers with a vector of the shape of its start vector. *)
Definition shape_preserving (f : Minimizer) : Prop :=
  ∀ func x0 r, f func x0 = Ok r → length (res_x r) = length x0.

(** The energy the backend gives for the Hamiltonian [h] on the circuit of the
    terms [ts] loaded with the parameters [x]. *)
Definition energy (h : QubitOperator) (ts : list QubitOperator) (x : list Q) : Q :=
  get_expectation_value h {| terms := ts; angles := x |}.

(** The optimum an optimizer reports is not above the objective at the start
    vector, up to [eps]. *)
Definition never_worse_than_start (f : Minimizer) (eps : Q) : Prop :=
  ∀ func x0 r e0, f func x0 = Ok r → func x0 = Ok e0 → (res_fun r <= e0 + eps)%Q.

(** The objective at the vector an optimizer returns is not above the optimum
    it reports, up to [eps]. *)
Definition reports_objective (f : Minimizer) (eps : Q) : Prop :=
  ∀ func x0 r, f func x0 = Ok r →
    ∃ e, func (res_x r) = Ok e ∧ (e <= res_fun r + eps)%Q.

(** A term added with parameter zero does not raise the energy, up to [eps]. *)
Definition zero_init_identity (h : QubitOperator) (eps : Q) : Prop :=
  ∀ ts op x, (energy h (ts ++ [op]) (x ++ [0%Q]) <= energy h ts x + eps)%Q.

(** Each entry of [l] is at most its predecessor plus [eps]. *)
Definition non_increasing_within (eps : Q) (l : list Q) : Prop :=
  ∀ i e e', l !! i = Some e → l !! S i = Some e' → (e' <= e + eps)%Q.

(** What an optimization leaves untouched in the solver: its options, its
    pool, its counters and flags, and in the VQE solver the terms of the
    ansatz, the start vector and the Hamiltonian. *)
Definition kept_by_optimizer (self self' : ADAPTSolver) : Prop :=
  tol self' = tol self ∧ max_cycles self' = max_cycles self
  ∧ verbose self' = verbose self ∧ optimizer self' = optimizer self
  ∧ converged self' = converged self ∧ iteration self' = iteration self
  ∧ pool_operators self' = pool_operators self
  ∧ fermionic_operators self' = fermionic_operators self
  ∧ pool_commutators self' = pool_commutators self
  ∧ operators (ansatz (vqe_solver self')) = operators (ansatz (vqe_solver self))
  ∧ ferm_operators (ansatz (vqe_solver self')) = ferm_operators (ansatz (vqe_solver self))
  ∧ terms (circuit (ansatz (vqe_solver self'))) = terms (circuit (ansatz (vqe_solver self)))
  ∧ initial_var_params (vqe_solver self') = initial_var_params (vqe_solver self)
  ∧ qubit_hamiltonian (vqe_solver self') = qubit_hamiltonian (vqe_solver self)
  ∧ simulate_calls (vqe_solver self') = simulate_calls (vqe_solver self).

(** What a growth round changes in the solver: one more term, the start
    vector, one more optimization, the counter. *)
Definition grown_by (self self' : ADAPTSolver) (op : QubitOperator)
    (fop : FermionOperator) (x0 : list Q) : Prop :=
  tol self' = tol self ∧ max_cycles self' = max_cycles self
  ∧ verbose self' = verbose self ∧ optimizer self' = optimizer self
  ∧ converged self' = converged self ∧ iteration self' = (iteration self + 1)%Z
  ∧ pool_operators self' = pool_operators self
  ∧ fermionic_operators self' = fermionic_operators self
  ∧ pool_commutators self' = pool_commutators self
  ∧ operators (ansatz (vqe_solver self')) = operators (ansatz (vqe_solver self)) ++ [op]
  ∧ ferm_operators (ansatz (vqe_solver self'))
    = ferm_operators (ansatz (vqe_solver self)) ++ [fop]
  ∧ terms (circuit (ansatz (vqe_solver self')))
    = terms (circuit (ansatz (vqe_solver self))) ++ [op]
  ∧ initial_var_params (vqe_solver self') = x0
  ∧ qubit_hamiltonian (vqe_solver self') = qubit_hamiltonian (vqe_solver self)
  ∧ simulate_calls (vqe_solver self') = S (simulate_calls (vqe_solver self)).

(** The gradient magnitudes [rank_pool] computes, in pool order. *)
Definition magnitudes (pool : list QubitOperator) (circuit : Circuit)
    (backend : QubitOperator → Circuit → Q) : list Q :=
  map (λ element, Qabs (backend element circuit)) pool.

(** [i] is the lowest position of a greatest value of [l], and [g] that
    value. *)
Definition first_maximum (l : list Q) (i : nat) (g : Q) : Prop :=
  l !! i = Some g ∧ (∀ g', g' ∈ l → (g' <= g)%Q)
  ∧ ∀ j g', (j < i)%nat → l !! j = Some g' → (g' < g)%Q.

(** The ranking as the loop calls it: the pool commutators against the
    circuit of the ansatz of the VQE solver, with [self.tol]. *)
Definition rank_current (self : ADAPTSolver) : result Z :=
  rank_pool self (pool_commutators self) (circuit (ansatz (vqe_solver self)))
    get_expectation_value (tol self).

(** The local variables of [simulate] next to [self]: [params], [energies], and
    whether [params] still is the list object [ansatz.var_params] (it is until
    the first [params = list(params)]). *)
Record Locals : Type := {
  self_ : ADAPTSolver;
  params : list Q;
  energies : list Q;
  params_is_var_params : bool
}.

Inductive Flow : Type := Continue | Break.

(** One pass through the body of the [while] loop of [simulate]. *)
Definition adapt_cycle (st : Locals) : result (Flow * Locals) :=
  let self := with_iteration (self_ st) (iteration (self_ st) + 1) in
  bind (rank_current self) (λ pool_select,
  if (-1 <? pool_select)%Z then
    let params := params st ++ [0%Q] in
    let a := ansatz (vqe_solver self) in
    let a := if params_is_var_params st
             then {| operators := operators a; ferm_operators := ferm_operators a;
                     var_params := params; circuit := circuit a |}
             else a in
    bind (py_getitem (pool_operators self) pool_select) (λ op,
    bind (py_getitem (fermionic_operators self) pool_select) (λ fop,
    let a := add_operator a op fop in
    let v := with_initial_var_params (with_ansatz (vqe_solver self) a) params in
    let self := with_vqe_solver self v in
    bind (vqe_simulate self) (λ r,
    let '((opt_energy, params), self) := r in
    Ok (Continue, {| self_ := self; params := params;
                     energies := energies st ++ [opt_energy];
                     params_is_var_params := false |}))))
  else
    Ok (Break, {| self_ := with_converged self true; params := params st;
                  energies := energies st;
                  params_is_var_params := params_is_var_params st |})).

(** The [while self.iteration < self.max_cycles] loop; [fuel] bounds the number
    of passes and [None] means that it ran out. *)
Fixpoint adapt_loop (fuel : nat) (st : Locals) : option (result Locals) :=
  if (iteration (self_ st) <? max_cycles (self_ st))%Z then
    match fuel with
    | O => None
    | S fuel' =>
        match adapt_cycle st with
        | Raise e => Some (Raise e)
        | Ok (Break, st') => Some (Ok st')
        | Ok (Continue, st') => adapt_loop fuel' st'
        end
    end
  else Some (Ok st).

Definition simulate_entry (self : ADAPTSolver) : Locals :=
  {| self_ := self; params := var_params (ansatz (vqe_solver self));
     energies := []; params_is_var_params := true |}.

(** [ADAPTSolver.simulate(self)]: the returned [energies] and [self] after the
    call.  The loop is entered with as much fuel as the counter is short of
    [max_cycles]. *)
Definition simulate (self : ADAPTSolver) : option (result (list Q * ADAPTSolver)) :=
  match adapt_loop (Z.to_nat (max_cycles self - iteration self)) (simulate_entry self) with
  | Some (Ok st) => Some (Ok (energies st, self_ st))
  | Some (Raise e) => Some (Raise e)
  | None => None
  end.

(** The answers of [rank_pool] in the passes of the loop, from the first to
    the last; [-1] is the answer that signals convergence. *)
Fixpoint rankings (fuel : nat) (st : Locals) : list (result Z) :=
  if (iteration (self_ st) <? max_cycles (self_ st))%Z then
    match fuel with
    | O => []
    | S fuel' =>
        rank_current (with_iteration (self_ st) (iteration (self_ st) + 1))
        :: match adapt_cycle st with
           | Ok (Continue, st') => rankings fuel' st'
           | _ => []
           end
    end
  else [].

(** The answers of [rank_pool] during [simulate(self)]. *)
Definition simulate_rankings (self : ADAPTSolver) : list (result Z) :=
  rankings (Z.to_nat (max_cycles self - iteration self)) (simulate_entry self).

End Solver.

End ADAPT.

(** ** A toy instance of the solver

    Operators are numbered: 0 is the Hamiltonian, 1 and 2 are the commutators
    of a pool of two operators.  The instance is used to run the definitions
    on concrete inputs. *)

Module Toy.
Import ADAPT.

Definition empty_ansatz : @Ansatz nat nat :=
  {| operators := []; ferm_operators := []; var_params := [];
     circuit := {| terms := []; angles := [] |} |}.

(** The energy counts -1 for every angle that is not zero; the gradient
    magnitudes of the pool are 1/2 and 1/10 whatever the circuit. *)
Definition backend (op : nat) (c : @Circuit nat) : Q :=
  match op with
  | O => fold_right (λ a e, if Qeq_bool a 0 then e else (e - 1)%Q) 0%Q (angles c)
  | S O => (-1 # 2)%Q
  | _ => (1 # 10)%Q
  end.

(** A backend on which every pool operator scores 0. *)
Definition flat_backend (op : nat) (c : @Circuit nat) : Q := 0%Q.

(** A backend on which the first two of three operators tie at 1/2. *)
Definition tied_backend (op : nat) (c : @Circuit nat) : Q :=
  match op with
  | O => (1 # 2)%Q
  | S O => (-1 # 2)%Q
  | _ => (1 # 10)%Q
  end.

(** An optimizer that tries the all-ones vector and keeps the better of it
    and the start vector. *)
Definition better_of_two : Minimizer :=
  λ func x0,
    let x1 := map (λ _, 1%Q) x0 in
    bind (func x0) (λ e0,
    bind (func x1) (λ e1,
      if Qle_bool e1 e0
      then Ok {| res_x := x1; res_fun := e1; res_evals := [x0; x1] |}
      else Ok {| res_x := x0; res_fun := e0; res_evals := [x0; x1] |})).

(** An optimizer a caller may plug in: [lambda func, x: (float(len(x)), x)]. *)
Definition length_as_energy : Minimizer :=
  λ func x0,
    Ok {| res_x := x0; res_fun := inject_Z (Z.of_nat (length x0)); res_evals := [] |}.

(** Another one: [lambda func, x: (0.0, list(x) + [0.0])]. *)
Definition one_longer : Minimizer :=
  λ func x0, Ok {| res_x := x0 ++ [0%Q]; res_fun := 0%Q; res_evals := [] |}.

Definition solver (opt : Optimizer) (tolerance : Q) (cycles : Z) : @ADAPTSolver nat nat :=
  {| tol := tolerance; max_cycles := cycles; verbose := true; optimizer := opt;
     converged := false; iteration := 0;
     optimal_energy := None; optimal_var_params := None; optimal_circuit := None;
     vqe_solver := {| ansatz := empty_ansatz; initial_var_params := [];
                      qubit_hamiltonian := 0%nat; simulate_calls := 0 |};
     pool_operators := [11; 12]%nat; fermionic_operators := [21; 22]%nat;
     pool_commutators := [1; 2]%nat |}.

End Toy.

(** A toy solver whose pool is empty. *)
Module ToyEmptyPool.
Import ADAPT.

Definition solver (cycles : Z) : @ADAPTSolver nat nat :=
  {| tol := float_1e_3; max_cycles := cycles; verbose := true;
     optimizer := DefaultLBFGSB; converged := false; iteration := 0;
     optimal_energy := None; optimal_var_params := None; optimal_circuit := None;
     vqe_solver := {| ansatz := Toy.empty_ansatz; initial_var_params := [];
                      qubit_hamiltonian := 0%nat; simulate_calls := 0 |};
     pool_operators := []; fermionic_operators := []; pool_commutators := [] |}.

End ToyEmptyPool.

(** ** Qubit mappings: [mapping_transform.py] *)

Module MappingTransform.

Definition available_mappings : list string := ["JW"; "BK"; "SCBK"].

(** A term of a [FermionOperator]: a tuple of (mode, action) pairs. *)
Definition Term : Type := list (nat * Z).

(** [max(l)] of a list of modes. *)
Definition max_mode (l : list nat) : result nat :=
  match l with
  | [] => Raise ValueError
  | i :: l' => Ok (foldl Nat.max i l')
  end.

(** The array [remapped] of [make_up_then_down]:
    [np.linspace(0, n - 1, n, dtype=int) // 2], then
    [remapped[1::2] += int(np.ceil(n / 2.))]; for the lengths an array can
    have, [n / 2.] is exact in binary64. *)
Definition remapped (n_spinorbitals : Z) : list Z :=
  imap (λ i k, if Nat.odd i then (k + (n_spinorbitals + 1) `div` 2)%Z else k)
       ((λ i : nat, (Z.of_nat i `div` 2)%Z) <$> seq 0 (Z.to_nat n_spinorbitals)).

(** [tuple([(int(remapped[ti[0]]), ti[1]) for ti in term])] *)
Fixpoint new_term (remapped : list Z) (term : Term) : result (list (Z * Z)) :=
  match term with
  | [] => Ok []
  | ti :: rest =>
      match remapped !! ti.1 with
      | None => Raise IndexError
      | Some k => bind (new_term remapped rest) (λ t, Ok ((k, ti.2) :: t))
      end
  end.

(** The place of mode [i] when the [n] modes are laid out spin-up first. *)
Definition spin_block_index (n : Z) (i : nat) : Z :=
  (Z.of_nat i `div` 2 + (if Nat.odd i then n `div` 2 else 0))%Z.

(** A term with every mode moved to its place in the spin-up-first layout. *)
Definition relabel (n : Z) (term : Term) : list (Z * Z) :=
  (λ ti : nat * Z, (spin_block_index n ti.1, ti.2)) <$> term.

Section Operators.

(** [FermionOperator] and [QubitOperator] of openfermion with what the module
    uses of them: the items of [terms], the empty operator, and
    [op += FermionOperator(term, coef)]. *)
Context {Coef FermionOperator QubitOperator : Type}.

(** [s.upper()] of Python's [str], which knows all of Unicode; a [string]
    stands for the text it encodes. *)
Variable str_upper : string → string.

Variable terms : FermionOperator → list (Term * Coef).
Variable zero : FermionOperator.
Variable iadd : FermionOperator → list (Z * Z) → Coef → FermionOperator.

Variable jordan_wigner : FermionOperator → result QubitOperator.
Variable bravyi_kitaev : FermionOperator → Z → result QubitOperator.
Variable symmetry_conserving_bravyi_kitaev :
  FermionOperator → Z → Z → bool → result QubitOperator.

(** [[factor[0] for term in fermion_operator.terms for factor in term]] *)
Definition modes (fermion_operator : FermionOperator) : list nat :=
  concat ((λ tc : Term * Coef, tc.1.*1) <$> terms fermion_operator).

(** The loop of [make_up_then_down] over [fermion_operator.terms.items()]. *)
Fixpoint reorder (remapped : list Z) (items : list (Term * Coef))
    (new_operator : FermionOperator) : result FermionOperator :=
  match items with
  | [] => Ok new_operator
  | (term, coef) :: rest =>
      bind (new_term remapped term) (λ t, reorder remapped rest (iadd new_operator t coef))
  end.

(** [make_up_then_down(fermion_operator, n_spinorbitals)] *)
Definition make_up_then_down (fermion_operator : FermionOperator) (n_spinorbitals : Z)
  : result FermionOperator :=
  if negb (n_spinorbitals `mod` 2 =? 0)%Z then Raise ValueError
  else
    bind (max_mode (modes fermion_operator))
      (λ m,
        let term_modes := (Z.of_nat m + 1)%Z in
        if (n_spinorbitals <? term_modes)%Z then Raise ValueError
        else reorder (remapped n_spinorbitals) (terms fermion_operator) zero).

(** [fermion_to_qubit_mapping(fermion_operator, mapping, n_spinorbitals=None,
    n_electrons=None, up_then_down=False)] on a [FermionOperator]. *)
Definition fermion_to_qubit_mapping (fermion_operator : FermionOperator)
    (mapping : string) (n_spinorbitals n_electrons : option Z) (up_then_down : bool)
  : result QubitOperator :=
  if negb (bool_decide (str_upper mapping ∈ available_mappings)) then Raise ValueError
  else
    bind
      (if up_then_down then
         match n_spinorbitals with
         | None => Raise ValueError
         | Some n => make_up_then_down fermion_operator n
         end
       else Ok fermion_operator)
      (λ fermion_operator,
        if String.eqb (str_upper mapping) "JW" then jordan_wigner fermion_operator
        else if String.eqb (str_upper mapping) "BK" then
          match n_spinorbitals with
          | None => Raise ValueError
          | Some n => bravyi_kitaev fermion_operator n
          end
        else
          match n_spinorbitals with
          | None => Raise ValueError
          | Some n =>
              match n_electrons with
              | None => Raise ValueError
              | Some e =>
                  symmetry_conserving_bravyi_kitaev fermion_operator n e up_then_down
              end
          end).

End Operators.

End MappingTransform.

(** A toy operator algebra: an operator is the list of its terms, [+=]
    appends, and the three transforms only tag the operator they receive. *)
Module ToyMapping.
Import MappingTransform.

(** What [str.upper] does on ASCII text: the letters a to z go to A to Z. *)
Definition upper_ascii (c : Ascii.ascii) : Ascii.ascii :=
  let n := Ascii.nat_of_ascii c in
  if ((97 <=? n) && (n <=? 122))%nat then Ascii.ascii_of_nat (n - 32) else c.

Fixpoint upper (s : string) : string :=
  match s with
  | EmptyString => EmptyString
  | String c s' => String (upper_ascii c) (upper s')
  end.

Definition FermionOperator : Type := list (list (Z * Z) * Z).

Definition terms (op : FermionOperator) : list (Term * Z) :=
  (λ tc : list (Z * Z) * Z, ((λ f : Z * Z, (Z.to_nat f.1, f.2)) <$> tc.1, tc.2)) <$> op.

Definition zero : FermionOperator := [].

Definition iadd (op : FermionOperator) (t : list (Z * Z)) (c : Z) : FermionOperator :=
  op ++ [(t, c)].

Definition jordan_wigner (op : FermionOperator) : result (string * FermionOperator) :=
  Ok ("JW", op).

Definition bravyi_kitaev (op : FermionOperator) (n : Z)
  : result (string * FermionOperator) := Ok ("BK", op).

Definition symmetry_conserving_bravyi_kitaev (op : FermionOperator) (n e : Z)
    (up_then_down : bool) : result (string * FermionOperator) := Ok ("SCBK", op).

(** [2 a_0^ a_3 + 5 a_1^ a_2^ a_0 a_3] *)
Definition hop : FermionOperator :=
  [([(0, 1); (3, 0)], 2); ([(1, 1); (2, 1); (0, 0); (3, 0)], 5)]%Z.

End ToyMapping.

(** ** UCCSD: variational parameters and circuit *)

Module UCCSD.

(** A Pauli word, the key of [QubitOperator.terms]: a tuple of
    (qubit index, letter) pairs. *)
Definition PauliWord : Type := list (nat * string).

(** A gate of [agnostic_simulator]: the fields the ansatz reads and writes. *)
Record Gate : Type := {
  name : string;
  target : nat;
  control : option nat;
  parameter : option Q;
  is_variational : bool
}.

(** A circuit is its list of gates; [circuit._variational_gates] lists the
    variational ones among them, in order, as the same objects. *)
Definition variational_gates (c : list Gate) : list Gate :=
  filter (λ g, is_variational g = true) c.

(** [g.parameter = p] *)
Definition set_parameter (g : Gate) (p : Q) : Gate :=
  {| name := name g; target := target g; control := control g;
     parameter := Some p; is_variational := is_variational g |}.

(** [circuit._variational_gates[i].parameter = p]: the write lands in the
    gate of the circuit that is its [i]-th variational gate. *)
Fixpoint set_variational_parameter (c : list Gate) (i : nat) (p : Q)
  : result (list Gate) :=
  match c with
  | [] => Raise IndexError
  | g :: c' =>
      if is_variational g then
        match i with
        | O => Ok (set_parameter g p :: c')
        | S j => bind (set_variational_parameter c' j p) (λ c'', Ok (g :: c''))
        end
      else bind (set_variational_parameter c' i p) (λ c'', Ok (g :: c''))
  end.

(** The binary64 value of [np.pi]. *)
Definition np_pi : Q := (884279719003555 # 281474976710656)%Q.

(** The argument [var_params] of the methods, when it is not [None]: a
    keyword or an explicit vector (a list or a numpy array). *)
Inductive VarParams : Type :=
| Keyword (s : string)
| Explicit (v : list Q).

(** The attributes of the object.  [var_params] and [circuit] are [None] as
    long as they hold Python's [None]; [pauli_to_angles_mapping] is [None] as
    long as the attribute does not exist: [__init__] does not create it,
    [build_circuit] does. *)
Record UCCSD : Type := {
  n_spinorbitals : Z;
  n_electrons : Z;
  spin : Z;
  mapping : string;
  up_then_down : bool;
  n_var_params : Z;
  var_params : option (list Q);
  circuit : option (list Gate);
  pauli_to_angles_mapping : option (gmap PauliWord nat)
}.

(** The attributes [supported_initial_var_params] and [var_params_default] as
    [__init__] sets them; both arms of their conditionals are the same. *)
Definition supported_initial_var_params (self : UCCSD) : list string :=
  if (spin self =? 0)%Z then ["ones"; "random"] else ["ones"; "random"].

Definition var_params_default (self : UCCSD) : string :=
  if (spin self =? 0)%Z then "ones" else "ones".

Definition with_var_params (self : UCCSD) (v : list Q) : UCCSD :=
  {| n_spinorbitals := n_spinorbitals self; n_electrons := n_electrons self;
     spin := spin self; mapping := mapping self; up_then_down := up_then_down self;
     n_var_params := n_var_params self;
     var_params := Some v; circuit := circuit self;
     pauli_to_angles_mapping := pauli_to_angles_mapping self |}.

Definition with_circuit (self : UCCSD) (c : list Gate) : UCCSD :=
  {| n_spinorbitals := n_spinorbitals self; n_electrons := n_electrons self;
     spin := spin self; mapping := mapping self; up_then_down := up_then_down self;
     n_var_params := n_var_params self;
     var_params := var_params self; circuit := Some c;
     pauli_to_angles_mapping := pauli_to_angles_mapping self |}.

Definition with_mapping (self : UCCSD) (m : gmap PauliWord nat) : UCCSD :=
  {| n_spinorbitals := n_spinorbitals self; n_electrons := n_electrons self;
     spin := spin self; mapping := mapping self; up_then_down := up_then_down self;
     n_var_params := n_var_params self;
     var_params := var_params self; circuit := circuit self;
     pauli_to_angles_mapping := Some m |}.

(** [sorted(items, key=lambda x: len(x[0]))]: a stable sort, here by
    insertion; an item goes in front of the first one that is not shorter. *)
Fixpoint insert_by_len (x : PauliWord * Q) (l : list (PauliWord * Q))
  : list (PauliWord * Q) :=
  match l with
  | [] => [x]
  | y :: l' =>
      if (length y.1 <? length x.1)%nat then y :: insert_by_len x l'
      else x :: y :: l'
  end.

Definition sorted_by_len (items : list (PauliWord * Q)) : list (PauliWord * Q) :=
  foldr insert_by_len [] items.

(** The parameter of the [i]-th variational gate of a circuit. *)
Definition vparam (c : list Gate) (i : nat) : option Q :=
  variational_gates c !! i ≫= parameter.

Section Ansatz.

(** [np.ones((n,), dtype=float)] *)
Definition np_ones (n : Z) : result (list Q) :=
  if (n <? 0)%Z then Raise ValueError else Ok (replicate (Z.to_nat n) 1%Q).

(** [2.e-1 * (np.random.random((n,)) - 0.5)]: the vector drawn. *)
Variable random_var_params : Z → list Q.

(** openfermion's [FermionOperator] and [QubitOperator] with what
    [fermion_to_qubit_mapping] and [make_up_then_down] use of them. *)
Context {Coef FermionOperator QubitOperator : Type}.
Variable str_upper : string → string.
Variable fermion_terms : FermionOperator → list (MappingTransform.Term * Coef).
Variable zero : FermionOperator.
Variable iadd : FermionOperator → list (Z * Z) → Coef → FermionOperator.
Variable jordan_wigner : FermionOperator → result QubitOperator.
Variable bravyi_kitaev : FermionOperator → Z → result QubitOperator.
Variable symmetry_conserving_bravyi_kitaev :
  FermionOperator → Z → Z → bool → result QubitOperator.

(** [uccsd_singlet_generator(var_params, n_spinorbitals, n_electrons)] of
    [_unitary_cc] and [uccsd_openshell_generator(var_params, n_spinorbitals,
    n_alpha, n_beta)] of [_unitary_cc_openshell]. *)
Variable uccsd_singlet_generator : list Q → Z → Z → result FermionOperator.
Variable uccsd_openshell_generator : list Q → Z → Z → Z → result FermionOperator.

(** The items of [qubit_op.terms], in the order of the dictionary, once the
    loop [qubit_op.terms[key] = float(qubit_op.terms[key].imag)] and
    [qubit_op.compress()] have run. *)
Variable real_terms : QubitOperator → list (PauliWord * Q).

(** [get_reference_circuit(n_spinorbitals, n_electrons, mapping, up_then_down, spin)] *)
Variable get_reference_circuit : Z → Z → string → bool → Z → list Gate.

(** [pauliword_to_circuit(pauli_word, coef)] of [ansatz_utils]. *)
Variable pauliword_to_circuit : PauliWord → Q → list Gate.

(** The sum and the product of two floats, rounded as binary64 rounds them. *)
Variable float_add float_mul : Q → Q → Q.

(** [2.*coef if coef >= 0. else 4*np.pi+2*coef] *)
Definition rotation_angle (coef : Q) : Q :=
  if Qle_bool 0 coef then float_mul 2 coef
  else float_add (float_mul 4 np_pi) (float_mul 2 coef).

(** [fermion_to_qubit_mapping] of [mapping_transform]. *)
Definition fermion_to_qubit_mapping :=
  MappingTransform.fermion_to_qubit_mapping str_upper fermion_terms zero iadd
    jordan_wigner bravyi_kitaev symmetry_conserving_bravyi_kitaev.

(** [UCCSD.set_var_params(self, var_params=None)]: the updated [self] and the
    returned vector. *)
Definition set_var_params (self : UCCSD) (var_params : option VarParams)
  : result (UCCSD * list Q) :=
  let var_params :=
    match var_params with
    | None => Keyword (var_params_default self)
    | Some a => a
    end in
  bind
    match var_params with
    | Keyword s =>
        if bool_decide (s ∈ supported_initial_var_params self) then
          if String.eqb s "ones" then np_ones (n_var_params self)
          else if String.eqb s "random" then Ok (random_var_params (n_var_params self))
          else Raise AttributeError (* "MP2": not a supported keyword, never reached *)
        else Raise ValueError
    | Explicit v =>
        if (Z.of_nat (length v) =? n_var_params self)%Z then Ok v
        else Raise ValueError
    end
    (λ initial_var_params, Ok (with_var_params self initial_var_params, initial_var_params)).

(** [UCCSD._get_singlet_qubit_operator(self)]: the items of the terms of the
    operator it returns. *)
Definition _get_singlet_qubit_operator (self : UCCSD) : result (list (PauliWord * Q)) :=
  bind (uccsd_singlet_generator (default [] (var_params self)) (n_spinorbitals self)
          (n_electrons self)) (λ fermion_op,
  bind (fermion_to_qubit_mapping fermion_op (mapping self)
          (Some (n_spinorbitals self)) (Some (n_electrons self)) (up_then_down self))
    (λ qubit_op,
  Ok (real_terms qubit_op))).

(** [n_alpha] and [n_beta] as [__init__] sets them for a spin that is not 0. *)
Definition n_alpha (self : UCCSD) : Z :=
  (n_electrons self `div` 2 + spin self `div` 2 + 1 * (n_electrons self `mod` 2))%Z.

Definition n_beta (self : UCCSD) : Z :=
  (n_electrons self `div` 2 - spin self `div` 2)%Z.

(** [UCCSD._get_openshell_qubit_operator(self)] *)
Definition _get_openshell_qubit_operator (self : UCCSD)
  : result (list (PauliWord * Q)) :=
  bind (uccsd_openshell_generator (default [] (var_params self)) (n_spinorbitals self)
          (n_alpha self) (n_beta self)) (λ fermion_op,
  bind (fermion_to_qubit_mapping fermion_op (mapping self)
          (Some (n_spinorbitals self)) (Some (n_electrons self)) (up_then_down self))
    (λ qubit_op,
  Ok (real_terms qubit_op))).

(** [self._get_singlet_qubit_operator() if self.spin == 0 else
    self._get_openshell_qubit_operator()] *)
Definition get_qubit_operator (self : UCCSD) : result (list (PauliWord * Q)) :=
  if (spin self =? 0)%Z then _get_singlet_qubit_operator self
  else _get_openshell_qubit_operator self.

(** [UCCSD.prepare_reference_state(self)]; the reference state is ["HF"], which
    is supported. *)
Definition prepare_reference_state (self : UCCSD) : list Gate :=
  get_reference_circuit (n_spinorbitals self) (n_electrons self) (mapping self)
    (up_then_down self) (spin self).

(** The loop of [build_circuit] over [enumerate(pauli_words)]. *)
Definition trotterize_terms (pauli_words : list (PauliWord * Q))
  : list Gate * gmap PauliWord nat :=
  foldl (λ acc iwc, (acc.1 ++ pauliword_to_circuit iwc.2.1 iwc.2.2,
                     <[iwc.2.1 := iwc.1]> acc.2))
        ([], ∅) (imap (λ i wc, (i, wc)) pauli_words).

(** [UCCSD.build_circuit(self, var_params=None)] *)
Definition build_circuit (self : UCCSD) (var_params : option VarParams) : result UCCSD :=
  bind
    match var_params with
    | Some a => bind (set_var_params self (Some a)) (λ r, Ok r.1)
    | None =>
        match UCCSD.var_params self with
        | None => bind (set_var_params self None) (λ r, Ok r.1)
        | Some _ => Ok self
        end
    end
    (λ self,
      bind (get_qubit_operator self) (λ qubit_op,
      let reference_state_circuit := prepare_reference_state self in
      let pauli_words := sorted_by_len qubit_op in
      let '(pauli_words_gates, m) := trotterize_terms pauli_words in
      let self := with_mapping self m in
      let uccsd_circuit := pauli_words_gates in
      if negb (length reference_state_circuit =? 0)%nat
      then Ok (with_circuit self (reference_state_circuit ++ uccsd_circuit))
      else Ok (with_circuit self uccsd_circuit))).

(** The [for] loop of the fast path of [update_var_params]. *)
Fixpoint update_gates (m : gmap PauliWord nat) (c : list Gate)
    (items : list (PauliWord * Q)) : result (list Gate) :=
  match items with
  | [] => Ok c
  | (pauli_word, coef) :: rest =>
      match m !! pauli_word with
      | None => Raise (KeyError "pauli_word")
      | Some gate_index =>
          bind (set_variational_parameter c gate_index (rotation_angle coef))
            (λ c', update_gates m c' rest)
      end
  end.

(** [set(d.keys())] *)
Definition key_set (items : list (PauliWord * Q)) : gset PauliWord :=
  list_to_set items.*1.

(** [UCCSD.update_var_params(self, var_params)] *)
Definition update_var_params (self : UCCSD) (var_params : VarParams) : result UCCSD :=
  bind (set_var_params self (Some var_params)) (λ r,
    let self := r.1 in
    bind (get_qubit_operator self) (λ qubit_op,
    match pauli_to_angles_mapping self with
    | None => Raise AttributeError
    | Some m =>
        if bool_decide (dom m ≠ key_set qubit_op)
        then build_circuit self (Some var_params)
        else
          match circuit self with
          | None =>
              match qubit_op with
              | [] => Ok self
              | _ :: _ => Raise AttributeError
              end
          | Some c =>
              bind (update_gates m c qubit_op) (λ c', Ok (with_circuit self c'))
          end
    end)).

(** The parameter of the variational gate that the cached mapping assigns to
    a Pauli word. *)
Definition gate_parameter_of (self : UCCSD) (w : PauliWord) : option Q :=
  m ← pauli_to_angles_mapping self;
  c ← circuit self;
  i ← m !! w;
  g ← variational_gates c !! i;
  parameter g.

(** What the body of [build_circuit] makes of an object whose parameters
    are set, from the items of its qubit operator. *)
Definition built_from (self : UCCSD) (items : list (PauliWord * Q)) : UCCSD :=
  let r := trotterize_terms (sorted_by_len items) in
  with_circuit (with_mapping self r.2) (prepare_reference_state self ++ r.1).


(** The mapping names each word one gate of the circuit, and there are as
    many variational gates as words. *)
Definition consistent (self : UCCSD) : Prop :=
  ∃ m c, pauli_to_angles_mapping self = Some m ∧ circuit self = Some c
         ∧ (∀ w w' i, m !! w = Some i → m !! w' = Some i → w = w')
         ∧ (∀ w i, m !! w = Some i → (i < length (variational_gates c))%nat)
         ∧ size m = length (variational_gates c).


(** The circuits [c] and [c'] have the same gates, but for the parameters of
    variational ones. *)
Definition same_skeleton (c c' : list Gate) : Prop :=
  Forall2 (λ g g', name g' = name g ∧ target g' = target g
                   ∧ control g' = control g
                   ∧ is_variational g' = is_variational g
                   ∧ (is_variational g = false → g' = g)) c c'.

(** The objects on which [build_circuit] has run, whatever calls of
    [set_var_params] and [update_var_params] followed. *)
Inductive Built : UCCSD → Prop :=
| Built_build self arg self' :
    build_circuit self arg = Ok self' → Built self'
| Built_set self arg self' x :
    Built self → set_var_params self arg = Ok (self', x) → Built self'
| Built_update self arg self' :
    Built self → update_var_params self arg = Ok self' → Built self'.

(** [qubit_op.terms] is a dictionary: no Pauli word is listed twice. *)
Definition terms_are_dict : Prop :=
  ∀ qubit_op, NoDup (real_terms qubit_op).*1.

(** [pauliword_to_circuit] gives each Pauli word one variational gate, a
    rotation by the angle that the fast path of [update_var_params] writes. *)
Definition one_rotation_per_word : Prop :=
  ∀ w coef, ∃ g, variational_gates (pauliword_to_circuit w coef) = [g]
                 ∧ parameter g = Some (rotation_angle coef).

(** The reference circuit has no variational gate. *)
Definition reference_is_fixed : Prop :=
  ∀ self, variational_gates (prepare_reference_state self) = [].

End Ansatz.

End UCCSD.

(** ** A toy instance of the ansatz

    Two Pauli words, [Z0 Z1] and [X0], carry the two parameters as their
    coefficients; a word whose coefficient is zero is compressed away.  The
    toy operators are the parameter vectors themselves: the generators and
    the three transforms hand them on, and floats add and multiply as
    rationals. *)

Module ToyUCCSD.
Import UCCSD.

Definition word_zz : PauliWord := [(0%nat, "Z"); (1%nat, "Z")].
Definition word_x : PauliWord := [(0%nat, "X")].

Definition Operator : Type := list Q.

Definition fermion_terms (op : Operator) : list (MappingTransform.Term * Q) := [].
Definition zero : Operator := [].
Definition iadd (op : Operator) (_ : list (Z * Z)) (_ : Q) : Operator := op.
Definition jordan_wigner (op : Operator) : result Operator := Ok op.
Definition bravyi_kitaev (op : Operator) (_ : Z) : result Operator := Ok op.
Definition symmetry_conserving_bravyi_kitaev (op : Operator) (_ _ : Z) (_ : bool)
  : result Operator := Ok op.

Definition uccsd_singlet_generator (x : list Q) (_ _ : Z) : result Operator := Ok x.
Definition uccsd_openshell_generator (x : list Q) (_ _ _ : Z) : result Operator :=
  Ok [].

Definition real_terms (x : Operator) : list (PauliWord * Q) :=
  filter (λ wc, Qeq_bool wc.2 0 = false) (zip [word_zz; word_x] x).

Definition get_reference_circuit (_ _ : Z) (_ : string) (_ : bool) (_ : Z) : list Gate :=
  [ {| name := "X"; target := 0; control := None; parameter := None;
       is_variational := false |} ].

Definition rotation_angle : Q → Q := UCCSD.rotation_angle Qplus Qmult.

Definition pauliword_to_circuit (w : PauliWord) (coef : Q) : list Gate :=
  [ {| name := "H"; target := 0; control := None; parameter := None;
       is_variational := false |};
    {| name := "RZ"; target := length w; control := None;
       parameter := Some (rotation_angle coef); is_variational := true |} ].

Definition random_var_params (n : Z) : list Q := replicate (Z.to_nat n) (1 # 10)%Q.

Definition set_var_params := UCCSD.set_var_params random_var_params.

Definition get_qubit_operator :=
  UCCSD.get_qubit_operator ToyMapping.upper fermion_terms zero iadd jordan_wigner
    bravyi_kitaev symmetry_conserving_bravyi_kitaev uccsd_singlet_generator
    uccsd_openshell_generator real_terms.

Definition build_circuit :=
  UCCSD.build_circuit random_var_params ToyMapping.upper fermion_terms zero iadd
    jordan_wigner bravyi_kitaev symmetry_conserving_bravyi_kitaev
    uccsd_singlet_generator uccsd_openshell_generator real_terms
    get_reference_circuit pauliword_to_circuit.

Definition update_var_params :=
  UCCSD.update_var_params random_var_params ToyMapping.upper fermion_terms zero iadd
    jordan_wigner bravyi_kitaev symmetry_conserving_bravyi_kitaev
    uccsd_singlet_generator uccsd_openshell_generator real_terms
    get_reference_circuit pauliword_to_circuit Qplus Qmult.

Definition Built :=
  UCCSD.Built random_var_params ToyMapping.upper fermion_terms zero iadd
    jordan_wigner bravyi_kitaev symmetry_conserving_bravyi_kitaev
    uccsd_singlet_generator uccsd_openshell_generator real_terms
    get_reference_circuit pauliword_to_circuit Qplus Qmult.

Definition unbuilt : UCCSD :=
  {| n_spinorbitals := 4; n_electrons := 2; spin := 0; mapping := "JW";
     up_then_down := false; n_var_params := 2; var_params := None;
     circuit := None; pauli_to_angles_mapping := None |}.

(** The ansatz after [build_circuit([1, 2])]. *)
Definition built : UCCSD :=
  built_from get_reference_circuit pauliword_to_circuit
    (with_var_params unbuilt [1%Q; 2%Q]) (real_terms [1%Q; 2%Q]).

(** The same object with a mapping that [fermion_to_qubit_mapping] does not
    know. *)
Definition unbuilt_foo : UCCSD :=
  {| n_spinorbitals := 4; n_electrons := 2; spin := 0; mapping := "foo";
     up_then_down := false; n_var_params := 2; var_params := None;
     circuit := None; pauli_to_angles_mapping := None |}.

End ToyUCCSD.

(** ** A toy instance whose operator changes the order of its words

    Two words of one length, [X0] and [X1], carry the two parameters; the
    dictionary lists [X0] first when the first parameter is not negative, and
    [X1] first when it is. *)

Module ToyFlip.
Import UCCSD.

Definition word_x0 : PauliWord := [(0%nat, "X")].
Definition word_x1 : PauliWord := [(1%nat, "X")].

Definition real_terms (x : ToyUCCSD.Operator) : list (PauliWord * Q) :=
  match x with
  | [a; b] =>
      if Qle_bool 0 a then [(word_x0, a); (word_x1, b)]
      else [(word_x1, b); (word_x0, a)]
  | _ => []
  end.

Definition build_circuit :=
  UCCSD.build_circuit ToyUCCSD.random_var_params ToyMapping.upper
    ToyUCCSD.fermion_terms ToyUCCSD.zero ToyUCCSD.iadd ToyUCCSD.jordan_wigner
    ToyUCCSD.bravyi_kitaev ToyUCCSD.symmetry_conserving_bravyi_kitaev
    ToyUCCSD.uccsd_singlet_generator ToyUCCSD.uccsd_openshell_generator real_terms
    ToyUCCSD.get_reference_circuit ToyUCCSD.pauliword_to_circuit.

Definition update_var_params :=
  UCCSD.update_var_params ToyUCCSD.random_var_params ToyMapping.upper
    ToyUCCSD.fermion_terms ToyUCCSD.zero ToyUCCSD.iadd ToyUCCSD.jordan_wigner
    ToyUCCSD.bravyi_kitaev ToyUCCSD.symmetry_conserving_bravyi_kitaev
    ToyUCCSD.uccsd_singlet_generator ToyUCCSD.uccsd_openshell_generator real_terms
    ToyUCCSD.get_reference_circuit ToyUCCSD.pauliword_to_circuit Qplus Qmult.

End ToyFlip.

(** ** UCCSD: construction *)

Module UCCSDInit.
Import UCCSD.

(** The integer nearest to [a / b], for [b > 0]; of two nearest ones, the
    even one. *)
Definition round_half_even (a b : Z) : Z :=
  let q := (a `div` b)%Z in
  let r := (a `mod` b)%Z in
  if (2 * r <? b)%Z then q
  else if (b <? 2 * r)%Z then (q + 1)%Z
  else if Z.even q then q else (q + 1)%Z.

(** [int(np.ceil(n / 2))] for a Python integer [n].  The quotient [n / 2] is
    the float nearest to it.  Up to [2^53] in magnitude it is exact.  Beyond,
    it is [n] rounded to 53 significant bits and halved, an integer, which
    [np.ceil] and [int] leave as it is; the division raises [OverflowError]
    when this is not below [2^1024]. *)
Definition ceil_half (n : Z) : result Z :=
  if (Z.abs n <=? 2 ^ 53)%Z then Ok ((n + 1) `div` 2)%Z
  else
    let bits := (Z.log2 (Z.abs n) + 1)%Z in
    let quotient :=
      (round_half_even (Z.abs n) (2 ^ (bits - 53)) * 2 ^ (bits - 54))%Z in
    if (2 ^ 1024 <=? quotient)%Z then Raise OverflowError
    else Ok (Z.sgn n * quotient)%Z.

Section Init.

(** [uccsd_openshell_paramsize(n_spinorbitals, n_alpha, n_beta)] of
    [_unitary_cc_openshell]: the first two of the seven numbers it returns,
    [n_singles] and [n_doubles]. *)
Variable uccsd_openshell_paramsize : Z → Z → Z → result (Z * Z).

(** The object with its attributes as [__init__] sets them, but for the
    parameter count. *)
Definition blank (n_spinorbitals n_electrons spin : Z) (mapping : string)
    (up_then_down : bool) (n : Z) : UCCSD :=
  {| n_spinorbitals := n_spinorbitals; n_electrons := n_electrons; spin := spin;
     UCCSD.mapping := mapping; up_then_down := up_then_down;
     n_var_params := n; var_params := None; circuit := None;
     pauli_to_angles_mapping := None |}.

(** [UCCSD.__init__(self, n_spinorbitals, n_electrons, spin=0, mapping="JW",
    up_then_down=False)] *)
Definition __init__ (n_spinorbitals n_electrons spin : Z) (mapping : string)
    (up_then_down : bool) : result UCCSD :=
  let self := blank n_spinorbitals n_electrons spin mapping up_then_down 0 in
  if negb (n_spinorbitals `mod` 2 =? 0)%Z then Raise ValueError
  else
    bind
      (if negb (spin =? 0)%Z
       then uccsd_openshell_paramsize n_spinorbitals (n_alpha self) (n_beta self)
       else
         let n_spatial_orbitals := (n_spinorbitals `div` 2)%Z in
         bind (ceil_half n_electrons) (λ n_occupied,
         let n_virtual := (n_spatial_orbitals - n_occupied)%Z in
         let n_singles := (n_occupied * n_virtual)%Z in
         Ok (n_singles, ((n_singles * (n_singles + 1)) `div` 2)%Z)))
      (λ '(n_singles, n_doubles),
        Ok (blank n_spinorbitals n_electrons spin mapping up_then_down
              (n_singles + n_doubles))).

End Init.

End UCCSDInit.

(** ** Generalized unitary coupled cluster: [_general_unitary_cc.py] *)

Module GeneralUCC.

(** One entry [[((mode, action), ...), coefficient]] of a list of terms. *)
Definition Term : Type := list (Z * Z) * Q.

(** The entry [[((v[0][3][0], 1), (v[0][2][0], 1), (v[0][1][0], 0),
    (v[0][0][0], 0)), -v[1]]] of [hermitian_conjugate]; [None] when a lookup
    fails. *)
Definition conjugate_term (v : Term) : option Term :=
  f3 ← v.1 !! 3%nat; f2 ← v.1 !! 2%nat; f1 ← v.1 !! 1%nat; f0 ← v.1 !! 0%nat;
  Some ([(f3.1, 1); (f2.1, 1); (f1.1, 0); (f0.1, 0)]%Z, (- v.2)%Q).

(** [hermitian_conjugate(terms)]: whatever the comprehension raises is turned
    into [ValueError]. *)
Definition hermitian_conjugate (terms : list Term) : result (list Term) :=
  match mapM conjugate_term terms with
  | Some l => Ok l
  | None => Raise ValueError
  end.

(** [get_spin_ordered(n_orbs, pp, qq, rr=-1, ss=-1, up_down=False)] on
    integers and a boolean flag. *)
Definition get_spin_ordered (n_orbs pp qq rr ss : Z) (up_down : bool)
  : result (list Z * list Z) :=
  if (n_orbs <? 1)%Z then Raise ValueError
  else
    let '(up, down) :=
      if up_down
      then ([pp; qq; rr; ss], [n_orbs + pp; n_orbs + qq; n_orbs + rr; n_orbs + ss])%Z
      else ([2 * pp; 2 * qq; 2 * rr; 2 * ss],
            [2 * pp + 1; 2 * qq + 1; 2 * rr + 1; 2 * ss + 1])%Z in
    if (rr <? 0)%Z then Ok (take 2 up, take 2 down) else Ok (up, down).

(** [t[i]] on a tuple. *)
Definition item (t : list Z) (i : nat) : result Z :=
  match t !! i with
  | Some x => Ok x
  | None => Raise IndexError
  end.

(** [[((i0, 1), (i1, 1), (i2, 0), (i3, 0)), coef]] *)
Definition ladder4 (i0 i1 i2 i3 : result Z) (coef : Q) : result Term :=
  bind i0 (λ a, bind i1 (λ b, bind i2 (λ c, bind i3 (λ d,
    Ok ([(a, 1); (b, 1); (c, 0); (d, 0)]%Z, coef))))).

(** [[((i0, 1), (i1, 0)), coef]] *)
Definition ladder2 (i0 i1 : result Z) (coef : Q) : result Term :=
  bind i0 (λ a, bind i1 (λ b, Ok ([(a, 1); (b, 0)]%Z, coef))).

(** A list display, its entries evaluated from left to right. *)
Fixpoint display {A} (entries : list (result A)) : result (list A) :=
  match entries with
  | [] => Ok []
  | e :: rest => bind e (λ x, bind (display rest) (λ l, Ok (x :: l)))
  end.

(** [terms += hermitian_conjugate(terms)] *)
Definition with_conjugates (terms : list Term) : result (list Term) :=
  bind (hermitian_conjugate terms) (λ hc, Ok (terms ++ hc)).

(** [get_group_1_2(n_orbs, p, q, r, s, up_down=False)] *)
Definition get_group_1_2 (n_orbs p q r s : Z) (up_down : bool) : result (list Term) :=
  if (n_orbs <? 1)%Z then Raise ValueError
  else
    bind (get_spin_ordered n_orbs p q r s up_down) (λ '(up, dn),
    bind (display
            [ladder4 (item up 0) (item up 1) (item up 2) (item up 3) 1;
             ladder4 (item up 0) (item dn 1) (item up 2) (item dn 3) (1 # 2);
             ladder4 (item up 0) (item dn 1) (item dn 2) (item up 3) (1 # 2);
             ladder4 (item dn 0) (item up 1) (item up 2) (item dn 3) (1 # 2);
             ladder4 (item dn 0) (item up 1) (item dn 2) (item up 3) (1 # 2);
             ladder4 (item dn 0) (item dn 1) (item dn 2) (item dn 3) 1]) (λ triplet,
    bind (display
            [ladder4 (item up 0) (item dn 1) (item up 2) (item dn 3) (1 # 2);
             ladder4 (item up 0) (item dn 1) (item dn 2) (item up 3) (- (1 # 2));
             ladder4 (item dn 0) (item up 1) (item up 2) (item dn 3) (- (1 # 2));
             ladder4 (item dn 0) (item up 1) (item dn 2) (item up 3) (1 # 2)]) (λ singlet,
    bind (with_conjugates triplet) (λ triplet,
    bind (with_conjugates singlet) (λ singlet,
    Ok (singlet ++ triplet)))))).

(** [get_group_3_4(n_orbs, p, q, r, s, up_down=False)] *)
Definition get_group_3_4 (n_orbs p q r s : Z) (up_down : bool) : result (list Term) :=
  if (n_orbs <? 1)%Z then Raise ValueError
  else
    bind (get_spin_ordered n_orbs p q r s up_down) (λ '(up, dn),
    bind (display
            [ladder4 (item up 0) (item dn 1) (item up 2) (item dn 3) 1;
             ladder4 (item up 0) (item dn 1) (item dn 2) (item up 3) 1]) (λ singlet,
    with_conjugates singlet)).

(** [get_group_5(n_orbs, p, q, r, s, up_down=False)] *)
Definition get_group_5 (n_orbs p q r s : Z) (up_down : bool) : result (list Term) :=
  if (n_orbs <? 1)%Z then Raise ValueError
  else
    bind (get_spin_ordered n_orbs p q r s up_down) (λ '(up, dn),
    bind (display
            [ladder4 (item up 0) (item dn 1) (item up 2) (item dn 3) 2]) (λ singlet,
    with_conjugates singlet)).

(** [np.linspace(0, n_orbs - 1, n_orbs, dtype=int)] for [n_orbs >= 1]. *)
Definition selection (n_orbs : Z) : list Z := seqZ 0 n_orbs.

(** [itertools.product(selection, repeat=4)] *)
Definition product4 (sel : list Z) : list (Z * Z * Z * Z) :=
  pp ← sel; qq ← sel; rr ← sel; ss ← sel; [(pp, qq, rr, ss)].

(** [itertools.product(selection, repeat=2)] *)
Definition product2 (sel : list Z) : list (Z * Z) :=
  pp ← sel; qq ← sel; [(pp, qq)].

(** The five-way choice in the loop of [get_doubles]: 1 and 2 for
    [get_group_1_2], 3 and 4 for [get_group_3_4], 5 for [get_group_5], and 0
    for [continue]. *)
Definition doubles_branch (pp qq rr ss : Z) : nat :=
  if ((pp <? qq) && (pp <? rr) && (pp <? ss) && (rr <? ss)
      && (negb (qq =? rr) && negb (qq =? ss)))%Z then 1
  else if ((qq =? rr) && (pp <? ss) && negb (pp =? qq) && negb (ss =? qq))%Z then 2
  else if ((pp =? qq) && negb (qq =? rr) && negb (rr =? ss) && negb (ss =? pp)
           && (rr <? ss))%Z then 3
  else if ((pp =? qq) && (qq =? rr) && negb (rr =? ss))%Z then 4
  else if ((pp =? qq) && negb (qq =? rr) && (rr =? ss) && (pp <? ss))%Z then 5
  else 0.

(** The loop of [get_doubles]. *)
Fixpoint doubles_loop (n_orbs : Z) (up_down : bool) (tuples : list (Z * Z * Z * Z))
    (all_terms : list (list Term)) : result (list (list Term)) :=
  match tuples with
  | [] => Ok all_terms
  | (pp, qq, rr, ss) :: rest =>
      match doubles_branch pp qq rr ss with
      | 0 => doubles_loop n_orbs up_down rest all_terms
      | 1 | 2 =>
          bind (get_group_1_2 n_orbs pp qq rr ss up_down) (λ terms,
            doubles_loop n_orbs up_down rest (all_terms ++ [terms]))
      | 3 | 4 =>
          bind (get_group_3_4 n_orbs pp qq rr ss up_down) (λ terms,
            doubles_loop n_orbs up_down rest (all_terms ++ [terms]))
      | _ =>
          bind (get_group_5 n_orbs pp qq rr ss up_down) (λ terms,
            doubles_loop n_orbs up_down rest (all_terms ++ [terms]))
      end
  end.

(** [get_doubles(n_orbs, up_down=False)] *)
Definition get_doubles (n_orbs : Z) (up_down : bool) : result (list (list Term)) :=
  if (n_orbs <? 1)%Z then Raise ValueError
  else doubles_loop n_orbs up_down (product4 (selection n_orbs)) [].

(** The loop of [get_singles]. *)
Fixpoint singles_loop (n_orbs : Z) (up_down : bool) (pairs : list (Z * Z))
    (all_terms : list (list Term)) : result (list (list Term)) :=
  match pairs with
  | [] => Ok all_terms
  | (pp, qq) :: rest =>
      if (qq <=? pp)%Z then singles_loop n_orbs up_down rest all_terms
      else
        bind (get_spin_ordered n_orbs pp qq (-1) (-1) up_down) (λ '(up, down),
        bind (display
                [ladder2 (item up 0) (item up 1) 1;
                 ladder2 (item down 0) (item down 1) 1;
                 ladder2 (item up 1) (item up 0) (- 1);
                 ladder2 (item down 1) (item down 0) (- 1)]) (λ terms,
        singles_loop n_orbs up_down rest (all_terms ++ [terms])))
  end.

(** [get_singles(n_orbs, up_down=False)] *)
Definition get_singles (n_orbs : Z) (up_down : bool) : result (list (list Term)) :=
  if (n_orbs <? 1)%Z then Raise ValueError
  else singles_loop n_orbs up_down (product2 (selection n_orbs)) [].

(** [get_all_excitations(n_orbs, up_down=False)] *)
Definition get_all_excitations (n_orbs : Z) (up_down : bool)
  : result (list (list Term)) :=
  if (n_orbs <? 1)%Z then Raise ValueError
  else
    bind (get_singles n_orbs up_down) (λ singles,
    bind (get_doubles n_orbs up_down) (λ doubles,
    Ok (singles ++ doubles))).

(** [get_singles_number(n_orbitals)] on an integer. *)
Definition get_singles_number (n_orbitals : Z) : Z :=
  ((n_orbitals * (n_orbitals - 1)) `div` 2)%Z.

(** [get_doubles_number(n_orbitals)] on an integer. *)
Definition get_doubles_number (n_orbitals : Z) : Z :=
  ((n_orbitals * (n_orbitals ^ 3 + 2 * n_orbitals ^ 2 - n_orbitals - 2)) `div` 8)%Z.

(** [get_excitation_number(n_orbitals)] *)
Definition get_excitation_number (n_orbitals : Z) : Z :=
  (get_singles_number n_orbitals + get_doubles_number n_orbitals)%Z.

Section Generator.

(** openfermion's [FermionOperator] with the empty operator and
    [op += FermionOperator(term, coef)]; the product of two floats; and
    [np.random.random(size)]. *)
Context {FermionOperator : Type}.
Variable zero : FermionOperator.
Variable iadd : FermionOperator → list (Z * Z) → Q → FermionOperator.
Variable fmul : Q → Q → Q.
Variable random : Z → result (list Q).

(** One of the two halves of [get_coeffs]. *)
Definition coeffs_or_random (given : option (list Q)) (number : Z) : result (list Q) :=
  match given with
  | None => random number
  | Some l =>
      if negb (Z.of_nat (length l) =? number)%Z then Raise ValueError else Ok l
  end.

(** [get_coeffs(n_qubits, single_coeffs=None, double_coeffs=None)] *)
Definition get_coeffs (n_qubits : Z) (single_coeffs double_coeffs : option (list Q))
  : result (list Q) :=
  bind (coeffs_or_random single_coeffs (get_singles_number (n_qubits `div` 2)))
    (λ single_coeffs,
  bind (coeffs_or_random double_coeffs (get_doubles_number (n_qubits `div` 2)))
    (λ double_coeffs,
  Ok (single_coeffs ++ double_coeffs))).

(** [coeffs[index]] on a numpy array. *)
Definition coeff (coeffs : list Q) (index : nat) : result Q :=
  match coeffs !! index with
  | Some c => Ok c
  | None => Raise IndexError
  end.

(** The inner loop of [uccgsd_generator]. *)
Fixpoint add_terms (coeffs : list Q) (index : nat) (oi : list Term)
    (current : FermionOperator) : result FermionOperator :=
  match oi with
  | [] => Ok current
  | term :: rest =>
      bind (coeff coeffs index) (λ c,
        add_terms coeffs index rest (iadd current term.1 (fmul term.2 c)))
  end.

(** The outer loop of [uccgsd_generator]. *)
Fixpoint generator_loop (coeffs : list Q) (index : nat) (operators : list (list Term))
    (all_operators : list FermionOperator) : result (list FermionOperator) :=
  match operators with
  | [] => Ok all_operators
  | oi :: rest =>
      bind (add_terms coeffs index oi zero) (λ current,
        generator_loop coeffs (S index) rest (all_operators ++ [current]))
  end.

(** [uccgsd_generator(n_qubits, single_coeffs=None, double_coeffs=None,
    up_down=False)] *)
Definition uccgsd_generator (n_qubits : Z) (single_coeffs double_coeffs : option (list Q))
    (up_down : bool) : result (list FermionOperator) :=
  if (n_qubits <? 2)%Z then Raise ValueError
  else if negb (n_qubits `mod` 2 =? 0)%Z then Raise ValueError
  else
    bind (get_coeffs n_qubits single_coeffs double_coeffs) (λ coeffs,
    bind (get_all_excitations (n_qubits `div` 2) false) (λ operators,
    generator_loop coeffs 0 operators [])).

End Generator.

End GeneralUCC.

(** A toy operator algebra for the generator: an operator is the list of
    its terms, [+=] appends, floats multiply as rationals, and the random
    numbers are all one half. *)
Module ToyGenerator.

Definition FermionOperator : Type := list (list (Z * Z) * Q).

Definition zero : FermionOperator := [].

Definition iadd (op : FermionOperator) (t : list (Z * Z)) (c : Q) : FermionOperator :=
  op ++ [(t, c)].

Definition random (size : Z) : result (list Q) :=
  if (size <? 0)%Z then Raise ValueError else Ok (replicate (Z.to_nat size) (1 # 2)%Q).

Definition uccgsd_generator :=
  GeneralUCC.uccgsd_generator zero iadd Qmult random.

End ToyGenerator.

(** Sums over lists, to count the rounds of nested loops. *)
Module Counting.

Definition Zsum {A} (l : list A) (f : A → Z) : Z :=
  foldr (λ x acc, (f x + acc)%Z) 0%Z l.

(** 1 for a round that appends a group, 0 for one that continues. *)
Definition appends (branch : nat) : Z :=
  match branch with
  | 0 => 0
  | _ => 1
  end.

End Counting.

(** ** Theorems: construction *)

Module ADAPTInitFacts.
Import ADAPTInit.

Lemma lookup_dict_fold (items : list (string * value)) (d : gmap string value) k :
  foldl (λ d kv, <[kv.1 := kv.2]> d) d items !! k
  = match items_get items k with Some v => Some v | None => d !! k end.
Proof.
  revert d. induction items as [|[k' v] rest IH]; intros d; simpl; [done|].
  rewrite IH. destruct (items_get rest k); [done|].
  rewrite lookup_insert. by case_decide.
Qed.

Lemma items_get_is_Some (items : list (string * value)) k :
  is_Some (items_get items k) ↔ k ∈ items.*1.
Proof.
  induction items as [|[k' v] rest IH]; simpl.
  - split; [by intros [? ?] | by intros ?%elem_of_nil].
  - rewrite elem_of_cons, <- IH.
    destruct (items_get rest k); [split; eauto|].
    case_decide; subst; split; eauto; intros [?|[? ?]]; done.
Qed.

Lemma contains_default k : contains default_options k = bool_decide (recognized k).
Proof.
  unfold contains, default_options, dict_display, recognized.
  apply bool_decide_ext. rewrite lookup_dict_fold, lookup_empty.
  rewrite <- items_get_is_Some. by destruct (items_get _ k).
Qed.

Lemma contains_insert (d : gmap string value) k k' v :
  contains d k = true → contains (<[k := v]> d) k' = contains d k'.
Proof.
  unfold contains. intros Hk%bool_decide_eq_true. apply bool_decide_ext.
  rewrite lookup_insert. case_decide; subst; [split; eauto|done].
Qed.

Lemma overwrite_spec (items : list (string * value)) d :
  (∀ k, contains d k = bool_decide (recognized k)) →
  overwrite d items
  = match first_unknown items with
    | Some k => Raise (KeyError k)
    | None => Ok (foldl (λ d kv, <[kv.1 := kv.2]> d) d items)
    end.
Proof.
  revert d. induction items as [|[k v] rest IH]; intros d Hd; simpl; [done|].
  rewrite Hd. destruct (bool_decide (recognized k)) eqn:Hk; [|done].
  apply IH. intros k'. rewrite contains_insert; [done|]. by rewrite Hd.
Qed.

Lemma getattr_overwritten (items : list (string * value)) k :
  getattr (foldl (λ d kv, <[kv.1 := kv.2]> d) default_options items) k
  = default (getattr default_options k) (items_get items k).
Proof.
  unfold getattr. rewrite lookup_dict_fold. by destruct (items_get items k).
Qed.

(** C9.  [__init__] raises [KeyError k] exactly when [k] is the first key of
    the option dictionary that is not among the recognised defaults; with
    every key recognised it raises [ValueError] exactly when the molecule
    and the qubit Hamiltonian are both supplied or both missing; every other
    dictionary constructs a solver.  The constructor has no backend in its
    reach, so all of this happens before any backend call. *)
Theorem init_raises_exactly_on_invalid_options (opt_dict : list (string * value)) :
  match first_unknown opt_dict with
  | Some k => __init__ opt_dict = Raise (KeyError k)
  | None =>
      if bool_decide (supplied opt_dict "molecule"
                      = supplied opt_dict "qubit_hamiltonian")
      then __init__ opt_dict = Raise ValueError
      else is_ok (__init__ opt_dict) = true
  end.
Proof.
  unfold __init__. rewrite (overwrite_spec _ _ contains_default).
  destruct (first_unknown opt_dict) as [k|]; [done|]. simpl.
  rewrite !getattr_overwritten. unfold supplied.
  change (getattr default_options "molecule") with VNone.
  change (getattr default_options "qubit_hamiltonian") with VNone.
  destruct (items_get opt_dict "molecule") as [m|],
           (items_get opt_dict "qubit_hamiltonian") as [h|]; simpl;
    try destruct (truthy m); try destruct (truthy h); done.
Qed.

(** C10.  The display of the default options writes ["verbose"] twice, first
    [False] and last [True], and the dictionary keeps [True]; so a solver
    constructed from options has [verbose] equal to the value the option
    dictionary gives for it, and equal to [True] when it gives none. *)
Theorem verbose_defaults_to_True :
  default_options_items !! 2%nat = Some ("verbose", VBool false) ∧
  default_options_items !! 14%nat = Some ("verbose", VBool true) ∧
  default_options !! "verbose" = Some (VBool true) ∧
  ∀ (opt_dict : list (string * value)) (self : gmap string value),
    __init__ opt_dict = Ok self →
    self !! "verbose" = Some (default (VBool true) (items_get opt_dict "verbose")).
Proof.
  do 3 (split; [reflexivity|]). intros opt_dict self. unfold __init__.
  rewrite (overwrite_spec _ _ contains_default).
  destruct (first_unknown opt_dict); [done|]. simpl.
  destruct (negb _); [done|]. intros [= <-].
  rewrite !lookup_insert_ne by done. rewrite lookup_dict_fold.
  by destruct (items_get opt_dict "verbose").
Qed.

Lemma verbose_defaults_to_True_witness :
  ∃ self, __init__ [("molecule", VObj "Mole" true)] = Ok self
          ∧ self !! "verbose" = Some (VBool true).
Proof.
  eexists. split; [reflexivity|].
  exact (proj2 (proj2 (proj2 verbose_defaults_to_True))
           [("molecule", VObj "Mole" true)] _ eq_refl).
Defined.

End ADAPTInitFacts.

(** ** Theorems: pool ranking *)

Module RankFacts.
Import ADAPT.

Local Open Scope Q_scope.

Lemma py_max_from_bounds (l : list Q) (m : Q) :
  m <= py_max_from m l ∧ ∀ g, g ∈ l → g <= py_max_from m l.
Proof.
  revert m. induction l as [|y l IH]; intros m; simpl.
  - split; [apply Qle_refl | by intros g ?%elem_of_nil].
  - destruct (IH (if Qle_bool y m then m else y)) as [Hm Hl].
    destruct (Qle_bool y m) eqn:Hy.
    + apply Qle_bool_iff in Hy. split; [done|].
      intros g [->|Hg]%elem_of_cons; [by eapply Qle_trans | by apply Hl].
    + assert (m <= y).
      { destruct (Qlt_le_dec m y) as [?%Qlt_le_weak|Hle]; [done|].
        apply Qle_bool_iff in Hle. congruence. }
      split; [by eapply Qle_trans|].
      intros g [->|Hg]%elem_of_cons; [done | by apply Hl].
Qed.

Lemma py_max_from_elem (l : list Q) (m : Q) :
  py_max_from m l ∈ m :: l.
Proof.
  revert m. induction l as [|y l IH]; intros m; simpl; [set_solver|].
  specialize (IH (if Qle_bool y m then m else y)).
  rewrite !elem_of_cons in *. destruct (Qle_bool y m), IH; auto.
Qed.

(** [l.index(v)] finds the first position of a value equal to [v]: the
    positions before it hold other values. *)
Lemma py_index_first (l : list Q) (v : Q) :
  (∃ g, g ∈ l ∧ g == v) →
  ∃ i g, py_index l v = Ok i ∧ l !! i = Some g ∧ g == v
         ∧ ∀ j g', (j < i)%nat → l !! j = Some g' → ¬ g' == v.
Proof.
  induction l as [|y l IH]; intros (g & Hg & Hgv); [by apply elem_of_nil in Hg|].
  simpl. destruct (Qeq_bool y v) eqn:Hy.
  - apply Qeq_bool_iff in Hy. exists 0%nat, y. repeat split; [done|]. lia.
  - apply Qeq_bool_neq in Hy.
    apply elem_of_cons in Hg as [->|Hg]; [done|].
    destruct IH as (i & g' & -> & Hi & Hg' & Hfirst); [by eauto|].
    exists (S i), g'. repeat split; [done..|].
    intros [|j] g'' Hj; simpl; [by intros [= <-]|].
    apply Hfirst. lia.
Qed.

Section Ranking.

Context {QubitOperator FermionOperator : Type}.
Implicit Types (self : @ADAPTSolver QubitOperator FermionOperator).
Implicit Types (pool : list QubitOperator) (backend : QubitOperator → @Circuit QubitOperator → Q).

Lemma rank_pool_cases self pool circuit backend tolerance :
  pool ≠ [] →
  ∃ i g, first_maximum (magnitudes pool circuit backend) i g
         ∧ rank_pool self pool circuit backend tolerance
           = Ok (if Qle_bool tolerance g then Z.of_nat i else (-1)%Z).
Proof.
  intros Hne. unfold rank_pool. fold (magnitudes pool circuit backend).
  destruct (magnitudes pool circuit backend) as [|y l] eqn:Hl.
  { destruct pool; [done | discriminate Hl]. }
  simpl py_max. cbn [bind].
  destruct (py_max_from_bounds l y) as [Hy Hmax].
  pose proof (py_max_from_elem l y) as Hin.
  set (M := py_max_from y l) in *.
  assert (Hall : ∀ g', g' ∈ y :: l → g' <= M).
  { intros g' [->|?]%elem_of_cons; auto. }
  destruct (py_index_first (y :: l) M) as (i & g & Hi & Hlook & HgM & Hfirst).
  { exists M. split; [done | reflexivity]. }
  exists i, g. split.
  - split; [done|]. split.
    + intros g' Hg'. rewrite HgM. auto.
    + intros j g' Hj Hlj. rewrite HgM.
      assert (g' <= M) as [?|Heq]%Qle_lteq; [|done|].
      { apply Hall. by eapply list_elem_of_lookup_2. }
      by apply (Hfirst j g') in Heq.
  - rewrite Hi. cbn [bind].
    assert (Qle_bool tolerance M = Qle_bool tolerance g) as ->.
    { apply eq_true_iff_eq. rewrite !Qle_bool_iff. by rewrite HgM. }
    by destruct (verbose self), (Qle_bool tolerance g).
Qed.

(** C2.  On a pool that is not empty [rank_pool] returns; it returns -1
    exactly when the greatest absolute expectation value over the pool is
    strictly below the tolerance, and otherwise the position of an operator
    whose absolute expectation value is that greatest one. *)
Theorem rank_pool_not_found_iff_below_tolerance
    self pool (circuit : Circuit) backend (tolerance : Q) :
  pool ≠ [] →
  ∃ (r : Z) (M : Q),
    rank_pool self pool circuit backend tolerance = Ok r
    ∧ (∃ e, e ∈ pool ∧ Qabs (backend e circuit) == M)
    ∧ (∀ e, e ∈ pool → Qabs (backend e circuit) <= M)
    ∧ (r = (-1)%Z ↔ M < tolerance)
    ∧ (¬ M < tolerance →
       ∃ e, pool !! Z.to_nat r = Some e ∧ (0 <= r)%Z ∧ Qabs (backend e circuit) == M).
Proof.
  intros Hne.
  destruct (rank_pool_cases self pool circuit backend tolerance Hne)
    as (i & g & (Hi & Hmax & _) & Hr).
  unfold magnitudes in Hi, Hmax. rewrite list_lookup_fmap in Hi.
  destruct (pool !! i) as [e|] eqn:He; [|done]. injection Hi as Hi.
  exists (if Qle_bool tolerance g then Z.of_nat i else (-1)%Z), g.
  split; [done|]. split; [|split; [|split]].
  - exists e. split; [by eapply list_elem_of_lookup_2 | by rewrite Hi].
  - intros e' He'. apply Hmax. apply list_elem_of_fmap. eauto.
  - destruct (Qle_bool tolerance g) eqn:Hg.
    + apply Qle_bool_iff in Hg. split; [lia|]. intros ?%Qlt_not_le. done.
    + split; [|done]. intros _. apply Qnot_le_lt. intros ?%Qle_bool_iff. congruence.
  - intros Hge%Qnot_lt_le. apply Qle_bool_iff in Hge. rewrite Hge.
    exists e. rewrite Nat2Z.id. split; [done|]. split; [lia | by rewrite Hi].
Qed.

(** C7 (as amended).  When some pool operator reaches the tolerance,
    [rank_pool] returns the lowest pool index whose gradient magnitude is the
    greatest one: every operator before it has a strictly smaller magnitude,
    so among operators that tie at the maximum the first is chosen.  The
    answer is a function of the magnitudes alone. *)
Theorem rank_pool_returns_lowest_maximal_index
    self pool (circuit : Circuit) backend (tolerance : Q) :
  (∃ e, e ∈ pool ∧ tolerance <= Qabs (backend e circuit)) →
  ∃ (i : nat) (g : Q),
    rank_pool self pool circuit backend tolerance = Ok (Z.of_nat i)
    ∧ first_maximum (magnitudes pool circuit backend) i g.
Proof.
  intros (e & He & Htol).
  destruct (rank_pool_cases self pool circuit backend tolerance)
    as (i & g & Hmax & Hr); [by intros ->; apply elem_of_nil in He|].
  exists i, g. split; [|done]. rewrite Hr.
  destruct Hmax as (_ & Hmax & _).
  assert (tolerance <= g) as ->%Qle_bool_iff; [|done].
  eapply Qle_trans; [exact Htol|]. apply Hmax.
  unfold magnitudes. apply list_elem_of_fmap. eauto.
Qed.

End Ranking.

Lemma rank_pool_not_found_iff_below_tolerance_witness :
  ∃ (r : Z) (M : Q),
    rank_pool (Toy.solver DefaultLBFGSB float_1e_3 15) [1; 2]%nat
      (circuit Toy.empty_ansatz) Toy.backend float_1e_3 = Ok r
    ∧ (∃ e, e ∈ [1; 2]%nat ∧ Qabs (Toy.backend e (circuit Toy.empty_ansatz)) == M)
    ∧ (∀ e, e ∈ [1; 2]%nat → Qabs (Toy.backend e (circuit Toy.empty_ansatz)) <= M)
    ∧ (r = (-1)%Z ↔ M < float_1e_3)
    ∧ (¬ M < float_1e_3 →
       ∃ e, [1; 2]%nat !! Z.to_nat r = Some e ∧ (0 <= r)%Z
            ∧ Qabs (Toy.backend e (circuit Toy.empty_ansatz)) == M).
Proof.
  apply (rank_pool_not_found_iff_below_tolerance
           (Toy.solver DefaultLBFGSB float_1e_3 15) [1; 2]%nat).
  discriminate.
Defined.

Lemma rank_pool_returns_lowest_maximal_index_witness :
  ∃ (i : nat) (g : Q),
    rank_pool (Toy.solver DefaultLBFGSB (1 # 5) 15) [0; 1; 2]%nat
      (circuit Toy.empty_ansatz) Toy.tied_backend (1 # 5) = Ok (Z.of_nat i)
    ∧ first_maximum
        (magnitudes [0; 1; 2]%nat (circuit Toy.empty_ansatz) Toy.tied_backend) i g.
Proof.
  apply rank_pool_returns_lowest_maximal_index.
  exists 0%nat. split; [by left | by vm_compute].
Defined.

Example rank_pool_tie_above_tolerance :
  rank_pool (Toy.solver DefaultLBFGSB (1 # 5) 15) [0; 1; 2]%nat
    (circuit Toy.empty_ansatz) Toy.tied_backend (1 # 5) = Ok 0%Z.
Proof. reflexivity. Qed.

(** C7 (as stated) fails below the tolerance: two operators tie at the
    greatest magnitude 0, the lowest index among them is 0, and [rank_pool]
    answers -1. *)
Lemma rank_pool_tie_below_tolerance :
  first_maximum (magnitudes [1; 2]%nat (circuit Toy.empty_ansatz) Toy.flat_backend) 0 0
  ∧ magnitudes [1; 2]%nat (circuit Toy.empty_ansatz) Toy.flat_backend !! 1%nat = Some 0
  ∧ rank_pool (Toy.solver DefaultLBFGSB float_1e_3 15) [1; 2]%nat
      (circuit Toy.empty_ansatz) Toy.flat_backend float_1e_3 = Ok (-1)%Z
  ∧ rank_pool (Toy.solver DefaultLBFGSB float_1e_3 15) [1; 2]%nat
      (circuit Toy.empty_ansatz) Toy.flat_backend float_1e_3 ≠ Ok (Z.of_nat 0).
Proof.
  split; [|split; [reflexivity | split; [reflexivity | discriminate]]].
  split; [reflexivity|]. split.
  - intros g' Hg'. vm_compute in Hg'.
    repeat (apply elem_of_cons in Hg' as [->|Hg']); [done..|].
    by apply elem_of_nil in Hg'.
  - intros j g' Hj. lia.
Qed.

End RankFacts.

(** ** Theorems: the growth loop *)

Module LoopFacts.
Import ADAPT.

Section Loop.

Context {QubitOperator FermionOperator : Type}.
Variable get_expectation_value : QubitOperator → @Circuit QubitOperator → Q.
Variable minimize : @Minimizer.

#[local] Abbreviation ADAPTSolver := (@ADAPTSolver QubitOperator FermionOperator).
#[local] Abbreviation VQESolver := (@VQESolver QubitOperator FermionOperator).
#[local] Abbreviation Locals := (@Locals QubitOperator FermionOperator).
#[local] Abbreviation rank_current := (rank_current get_expectation_value).
#[local] Abbreviation adapt_cycle := (adapt_cycle get_expectation_value minimize).
#[local] Abbreviation adapt_loop := (adapt_loop get_expectation_value minimize).
#[local] Abbreviation simulate := (simulate get_expectation_value minimize).
#[local] Abbreviation rankings := (rankings get_expectation_value minimize).
#[local] Abbreviation simulate_rankings :=
  (simulate_rankings get_expectation_value minimize).
#[local] Abbreviation objective := (objective get_expectation_value).
#[local] Abbreviation vqe_simulate := (vqe_simulate get_expectation_value minimize).
#[local] Abbreviation optimizer_fn := (optimizer_fn minimize).

Lemma update_var_params_inv (a a' : @Ansatz QubitOperator FermionOperator) x :
  update_var_params a x = Ok a' →
  length x = length (operators a) ∧ operators a' = operators a
  ∧ ferm_operators a' = ferm_operators a ∧ terms (circuit a') = terms (circuit a)
  ∧ angles (circuit a') = x.
Proof.
  unfold update_var_params. case_bool_decide; [|done]. by intros [= <-].
Qed.

Lemma replay_keeps (v : VQESolver) evals :
  let v' := replay get_expectation_value v evals in
  operators (ansatz v') = operators (ansatz v)
  ∧ ferm_operators (ansatz v') = ferm_operators (ansatz v)
  ∧ terms (circuit (ansatz v')) = terms (circuit (ansatz v))
  ∧ initial_var_params v' = initial_var_params v
  ∧ qubit_hamiltonian v' = qubit_hamiltonian v
  ∧ simulate_calls v' = simulate_calls v.
Proof.
  revert v. induction evals as [|x evals IH]; intros v; simpl; [done|].
  destruct (energy_estimation get_expectation_value v x) as [[e v1]|] eqn:He;
    simpl; [|apply IH].
  unfold energy_estimation in He.
  destruct (update_var_params (ansatz v) x) as [a|] eqn:Ha; [|done].
  injection He as _ <-.
  apply update_var_params_inv in Ha as (_ & Ho & Hf & Ht & _).
  destruct (IH (with_ansatz v a)) as (? & ? & ? & ? & ? & ?).
  simpl in *. repeat split; first [done | congruence].
Qed.

Lemma vqe_simulate_inv (self self' : ADAPTSolver) e x :
  vqe_simulate self = Ok ((e, x), self') →
  ∃ r, optimizer_fn self (objective (vqe_solver self))
         (initial_var_params (vqe_solver self)) = Ok r
       ∧ e = res_fun r ∧ x = res_x r
       ∧ kept_by_optimizer
           (with_vqe_solver self (count_simulate (vqe_solver self))) self'.
Proof.
  unfold vqe_simulate, optimizer_fn, LBFGSB_optimizer. simpl.
  destruct (optimizer self) as [|f]; simpl.
  - destruct (minimize _ _) as [r|] eqn:Hr; [|done]. simpl.
    pose proof (replay_keeps (count_simulate (vqe_solver self)) (res_evals r))
      as (? & ? & ? & ? & ? & ?).
    destruct (converged self || (iteration self =? max_cycles self)%Z); simpl.
    + unfold build_circuit.
      destruct (update_var_params _ (res_x r)) as [a|] eqn:Ha; [|done]. simpl.
      apply update_var_params_inv in Ha as (_ & ? & ? & ? & _). simpl in *.
      intros [= <- <- <-]. exists r. unfold kept_by_optimizer. simpl.
      repeat split; first [done | congruence].
    + intros [= <- <- <-]. exists r. unfold kept_by_optimizer. simpl.
      repeat split; first [done | congruence].
  - destruct (f _ _) as [r|] eqn:Hr; [|done]. simpl.
    pose proof (replay_keeps (count_simulate (vqe_solver self)) (res_evals r))
      as (? & ? & ? & ? & ? & ?).
    intros [= <- <- <-]. exists r. unfold kept_by_optimizer. simpl.
    repeat split; first [done | congruence].
Qed.

Lemma objective_eq (v : VQESolver) x :
  objective v x
  = if bool_decide (length x = length (operators (ansatz v)))
    then Ok (energy get_expectation_value (qubit_hamiltonian v)
               (terms (circuit (ansatz v))) x)
    else Raise ValueError.
Proof.
  unfold objective, update_var_params. by case_bool_decide.
Qed.

Lemma objective_energy_estimation (v : VQESolver) x :
  objective v x = bind (energy_estimation get_expectation_value v x) (λ r, Ok r.1).
Proof.
  unfold objective, energy_estimation. by destruct (update_var_params (ansatz v) x).
Qed.

Lemma py_getitem_inv {A} (l : list A) i a :
  py_getitem l i = Ok a → l !! Z.to_nat i = Some a.
Proof. unfold py_getitem. destruct (l !! Z.to_nat i); by intros [= ->]. Qed.

Lemma adapt_cycle_inv (st st' : Locals) flow :
  adapt_cycle st = Ok (flow, st') →
  ∃ i, rank_current (self_ st) = Ok i ∧
    ((flow = Break ∧ ¬ (-1 < i)%Z
      ∧ st' = {| self_ := with_converged
                            (with_iteration (self_ st) (iteration (self_ st) + 1)) true;
                 params := params st; energies := energies st;
                 params_is_var_params := params_is_var_params st |})
     ∨ (flow = Continue ∧ (-1 < i)%Z
        ∧ ∃ op fop (v0 : VQESolver) r,
            pool_operators (self_ st) !! Z.to_nat i = Some op
            ∧ fermionic_operators (self_ st) !! Z.to_nat i = Some fop
            ∧ operators (ansatz v0)
              = operators (ansatz (vqe_solver (self_ st))) ++ [op]
            ∧ terms (circuit (ansatz v0))
              = terms (circuit (ansatz (vqe_solver (self_ st)))) ++ [op]
            ∧ qubit_hamiltonian v0 = qubit_hamiltonian (vqe_solver (self_ st))
            ∧ optimizer_fn (self_ st) (objective v0) (params st ++ [0%Q]) = Ok r
            ∧ params st' = res_x r
            ∧ energies st' = energies st ++ [res_fun r]
            ∧ grown_by (self_ st) (self_ st') op fop (params st ++ [0%Q]))).
Proof.
  unfold adapt_cycle.
  change (rank_current (with_iteration (self_ st) (iteration (self_ st) + 1)))
    with (rank_current (self_ st)).
  destruct (rank_current (self_ st)) as [i|] eqn:Hi; [|done]. simpl.
  intros H. exists i. split; [done|].
  destruct (-1 <? i)%Z eqn:Hlt.
  - right. apply Z.ltb_lt in Hlt.
    destruct (py_getitem (pool_operators (self_ st)) i) as [op|] eqn:Hop; [|done].
    destruct (py_getitem (fermionic_operators (self_ st)) i) as [fop|] eqn:Hfop; [|done].
    simpl in H.
    apply py_getitem_inv in Hop, Hfop.
    match type of H with
    | context [vqe_simulate ?s] => destruct (vqe_simulate s) as [[[e x] s']|] eqn:Hv
    end; [|done].
    simpl in H. injection H as <- <-.
    apply vqe_simulate_inv in Hv as (r & Hr & -> & -> & Hk).
    unfold kept_by_optimizer in Hk. simpl in Hk.
    destruct Hk as (?&?&?&?&?&?&?&?&?&Ho&Hf&Ht&?&?&?).
    split; [done|]. split; [done|]. eexists op, fop, _, r.
    split; [done|]. split; [done|].
    split; [|split; [|split; [|split; [exact Hr|]]]].
    + simpl. by destruct (params_is_var_params st).
    + simpl. by destruct (params_is_var_params st).
    + done.
    + simpl. split; [done|]. split; [done|]. unfold grown_by.
      destruct (params_is_var_params st); simpl in *;
        repeat split; first [done | congruence].
  - left. apply Z.ltb_ge in Hlt. simpl in H. injection H as <- <-.
    repeat split; [lia].
Qed.

(** The rule of the [while] loop: an invariant of the rounds that continue
    gives, at the exit, what the last round or the failed test adds. *)
Lemma adapt_loop_rule (Inv Post : Locals → Prop) :
  (∀ st st', Inv st → (iteration (self_ st) < max_cycles (self_ st))%Z →
             adapt_cycle st = Ok (Continue, st') → Inv st') →
  (∀ st st', Inv st → (iteration (self_ st) < max_cycles (self_ st))%Z →
             adapt_cycle st = Ok (Break, st') → Post st') →
  (∀ st, Inv st → ¬ (iteration (self_ st) < max_cycles (self_ st))%Z → Post st) →
  ∀ fuel st st', Inv st → adapt_loop fuel st = Some (Ok st') → Post st'.
Proof.
  intros Hcont Hbreak Hexit fuel.
  induction fuel as [|fuel IH]; intros st st' HI; simpl;
    destruct (iteration (self_ st) <? max_cycles (self_ st))%Z eqn:Hg;
    try apply Z.ltb_lt in Hg; try apply Z.ltb_ge in Hg.
  - done.
  - intros [= <-]. apply Hexit; [done | lia].
  - destruct (adapt_cycle st) as [[[] st1]|] eqn:Hc.
    + apply IH. by eapply Hcont.
    + intros [= <-]. by eapply Hbreak.
    + done.
  - intros [= <-]. apply Hexit; [done | lia].
Qed.

(** With fuel for every round up to [max_cycles] the loop does not run out. *)
Lemma adapt_loop_total fuel (st : Locals) :
  (Z.to_nat (max_cycles (self_ st) - iteration (self_ st)) ≤ fuel)%nat →
  ∃ r, adapt_loop fuel st = Some r.
Proof.
  revert st. induction fuel as [|fuel IH]; intros st Hfuel; simpl;
    destruct (iteration (self_ st) <? max_cycles (self_ st))%Z eqn:Hg;
    try apply Z.ltb_lt in Hg; eauto; [lia|].
  destruct (adapt_cycle st) as [[[] st1]|] eqn:Hc; eauto.
  apply IH. apply adapt_cycle_inv in Hc as (i & _ & [(? & _)|(_ & _ & Hgrow)]); [done|].
  destruct Hgrow as (op & fop & v0 & r & _ & _ & _ & _ & _ & _ & _ & _ & Hg').
  destruct Hg' as (_ & -> & _ & _ & _ & -> & _). lia.
Qed.

(** C3.  A round in which [rank_pool] answers -1 sets [converged] and leaves
    the loop at once: the VQE solver is the one the round started with (same
    ansatz terms and circuit, same start vector, no further call of its
    [simulate]), and the parameters and the recorded energies are
    unchanged. *)
Theorem not_found_round_converges_and_stops (st : Locals) :
  rank_current (self_ st) = Ok (-1)%Z →
  ∃ st', adapt_cycle st = Ok (Break, st')
    ∧ converged (self_ st') = true
    ∧ vqe_solver (self_ st') = vqe_solver (self_ st)
    ∧ params st' = params st
    ∧ energies st' = energies st
    ∧ ((iteration (self_ st) < max_cycles (self_ st))%Z →
       ∀ fuel, adapt_loop (S fuel) st = Some (Ok st')).
Proof.
  intros Hrank. eexists. split; [|split; [|split; [|split; [|split]]]].
  - unfold adapt_cycle.
    change (rank_current (with_iteration (self_ st) (iteration (self_ st) + 1)))
      with (rank_current (self_ st)).
    rewrite Hrank. reflexivity.
  - done.
  - done.
  - done.
  - done.
  - intros Hlt%Z.ltb_lt fuel. simpl. rewrite Hlt.
    unfold adapt_cycle.
    change (rank_current (with_iteration (self_ st) (iteration (self_ st) + 1)))
      with (rank_current (self_ st)).
    by rewrite Hrank.
Qed.

(** C4 (as amended).  A round in which [rank_pool] answers an index, and
    which returns, appends the pool operator of that index to the ansatz and
    hands the optimizer the parameters so far, in place and in order,
    followed by one 0.0; the vector handed over has one entry per ansatz term
    when the parameters entering the round had.  With an optimizer that
    answers with a vector of the shape of its start vector this holds through
    the whole loop, terms and parameters growing by one per recorded
    energy. *)
Theorem growth_round_appends_one_term_and_one_zero :
  (∀ (st st' : Locals) i flow,
     rank_current (self_ st) = Ok i → (-1 < i)%Z →
     adapt_cycle st = Ok (flow, st') →
     flow = Continue
     ∧ ∃ op fop e,
         pool_operators (self_ st) !! Z.to_nat i = Some op
         ∧ fermionic_operators (self_ st) !! Z.to_nat i = Some fop
         ∧ operators (ansatz (vqe_solver (self_ st')))
           = operators (ansatz (vqe_solver (self_ st))) ++ [op]
         ∧ ferm_operators (ansatz (vqe_solver (self_ st')))
           = ferm_operators (ansatz (vqe_solver (self_ st))) ++ [fop]
         ∧ initial_var_params (vqe_solver (self_ st')) = params st ++ [0%Q]
         ∧ energies st' = energies st ++ [e]
         ∧ simulate_calls (vqe_solver (self_ st'))
           = S (simulate_calls (vqe_solver (self_ st)))
         ∧ (length (params st) = length (operators (ansatz (vqe_solver (self_ st)))) →
            length (initial_var_params (vqe_solver (self_ st')))
            = length (operators (ansatz (vqe_solver (self_ st')))))
         ∧ (shape_preserving (optimizer_fn (self_ st)) →
            length (params st') = S (length (params st))))
  ∧ (∀ fuel (st st' : Locals),
       shape_preserving (optimizer_fn (self_ st)) →
       length (params st) = length (operators (ansatz (vqe_solver (self_ st)))) →
       adapt_loop fuel st = Some (Ok st') →
       length (params st') = length (operators (ansatz (vqe_solver (self_ st'))))
       ∧ (length (operators (ansatz (vqe_solver (self_ st'))))
          = length (operators (ansatz (vqe_solver (self_ st))))
            + (length (energies st') - length (energies st)))%nat
       ∧ (length (energies st) ≤ length (energies st'))%nat).
Proof.
  split.
  - intros st st' i flow Hrank Hi Hc.
    apply adapt_cycle_inv in Hc as (i' & Hi' & [(_ & Hn & _)|(-> & _ & Hgrow)]).
    { rewrite Hrank in Hi'. injection Hi' as <-. done. }
    rewrite Hrank in Hi'. injection Hi' as <-.
    destruct Hgrow as (op & fop & v0 & r & Hop & Hfop & _ & _ & _ & Hr & Hp & He & Hg).
    destruct Hg as (_&_&_&_&_&_&_&_&_&Ho&Hf&_&Hx0&_&Hcalls).
    split; [done|]. exists op, fop, (res_fun r).
    repeat split; try done.
    + intros Hlen. rewrite Hx0, Ho, !length_app, Hlen. done.
    + intros Hshape. rewrite Hp, (Hshape _ _ _ Hr), length_app. simpl. lia.
  - intros fuel st st' Hshape Hlen.
    apply (adapt_loop_rule
      (λ s, optimizer (self_ s) = optimizer (self_ st)
            ∧ length (params s) = length (operators (ansatz (vqe_solver (self_ s))))
            ∧ (length (operators (ansatz (vqe_solver (self_ s))))
               = length (operators (ansatz (vqe_solver (self_ st))))
                 + (length (energies s) - length (energies st)))%nat
            ∧ (length (energies st) ≤ length (energies s))%nat)
      (λ s, length (params s) = length (operators (ansatz (vqe_solver (self_ s))))
            ∧ (length (operators (ansatz (vqe_solver (self_ s))))
               = length (operators (ansatz (vqe_solver (self_ st))))
                 + (length (energies s) - length (energies st)))%nat
            ∧ (length (energies st) ≤ length (energies s))%nat)).
    + intros s s' (Hopt & Hl & Hgrowth & Hle) _ Hc.
      apply adapt_cycle_inv in Hc as (i & _ & [(? & _)|(_ & _ & Hgrow)]); [done|].
      destruct Hgrow as (op & fop & v0 & r & _ & _ & _ & _ & _ & Hr & Hp & He & Hg).
      destruct Hg as (_&_&_&Hopt'&_&_&_&_&_&Ho&_).
      assert (length (res_x r) = length (params s ++ [0%Q])) as Hres.
      { eapply Hshape. unfold optimizer_fn in *. rewrite <- Hopt. exact Hr. }
      rewrite Hp, Hres, He, Ho, !length_app. simpl.
      repeat split; [congruence | lia..].
    + intros s s' (Hopt & Hl & Hgrowth & Hle) _ Hc.
      apply adapt_cycle_inv in Hc as (i & _ & [(_ & _ & ->)|(? & _)]); [|done].
      done.
    + intros s (_ & ? & ? & ?) _. done.
    + repeat split; [done | lia | lia].
Qed.

Lemma rank_current_range (self : ADAPTSolver) (i : Z) :
  rank_current self = Ok i → (i = -1 ∨ 0 ≤ i)%Z.
Proof.
  unfold ADAPT.rank_current, rank_pool.
  destruct (py_max _) as [g|]; [|done]. cbn [bind].
  destruct (if verbose self then _ else _); [|done]. cbn [bind].
  destruct (Qle_bool (tol self) g); [|intros [= <-]; by left].
  destruct (py_index _ g) as [j|]; [|done]. intros [= <-]. right. lia.
Qed.

(** How the loop ended shows in the answers of [rank_pool]: it broke on a
    last answer [-1], having recorded one energy less than it counted
    rounds, or every answer named an operator and every round recorded an
    energy. *)
Lemma adapt_loop_rankings fuel (st st' : Locals) :
  adapt_loop fuel st = Some (Ok st') →
  (Z.of_nat (length (energies st')) - Z.of_nat (length (energies st))
   = iteration (self_ st') - iteration (self_ st) - 1
   ∧ last (rankings fuel st) = Some (Ok (-1)))%Z
  ∨ (Z.of_nat (length (energies st')) - Z.of_nat (length (energies st))
     = iteration (self_ st') - iteration (self_ st)
     ∧ ∀ r, r ∈ rankings fuel st → ∃ i, r = Ok i ∧ -1 < i)%Z.
Proof.
  revert st. induction fuel as [|fuel IH]; intros st; simpl;
    destruct (iteration (self_ st) <? max_cycles (self_ st))%Z eqn:Hg.
  - done.
  - intros [= <-]. right. split; [lia|]. by intros r ?%elem_of_nil.
  - change (ADAPT.rank_current get_expectation_value
              (with_iteration (self_ st) (iteration (self_ st) + 1)))
      with (rank_current (self_ st)).
    destruct (adapt_cycle st) as [[[] s1]|] eqn:Hc; [| |done].
    + intros Hloop.
      apply adapt_cycle_inv in Hc as (i & Hi & [(? & _)|(_ & Hfound & Hgrow)]); [done|].
      destruct Hgrow as (op & fop & v0 & r0 & _ & _ & _ & _ & _ & _ & _ & He & Hg').
      destruct Hg' as (_ & _ & _ & _ & _ & Hit & _).
      rewrite Hi. destruct (IH s1 Hloop) as [[Hd Hlast]|[Hd Hall]].
      * left. split.
        { rewrite He, length_app in Hd. simpl in Hd. lia. }
        destruct (rankings fuel s1) as [|r1 l1]; [done|]. exact Hlast.
      * right. split.
        { rewrite He, length_app in Hd. simpl in Hd. lia. }
        intros r [->|Hr]%elem_of_cons; [eauto|by apply Hall].
    + intros [= <-].
      apply adapt_cycle_inv in Hc as (i & Hi & [(_ & Hnot & ->)|(? & _)]); [|done].
      rewrite Hi. left. simpl. split; [lia|].
      destruct (rank_current_range _ _ Hi) as [->|?]; [done|lia].
  - intros [= <-]. right. split; [lia|]. by intros r ?%elem_of_nil.
Qed.

(** C5.  The defaults are 15 rounds and the tolerance 1e-3.  [simulate]
    always ends, with at most [max_cycles] rounds of growth counted from the
    iteration counter, one ansatz term and one optimization per recorded
    energy.  It ends either converged, on the answer -1 of [rank_pool] and
    before the budget is used up, or with the counter at [max_cycles], every
    answer of [rank_pool] having named an operator, every round having grown
    the ansatz and [converged] still what it was at the start.  So when
    [rank_pool] never answers -1 during the run, the run uses the whole
    budget and leaves [converged] as it was: [False] on a solver that starts
    not converged. *)
Theorem simulate_ends_within_max_cycles :
  ADAPTInit.default_options !! "max_cycles" = Some (VInt 15)
  ∧ ADAPTInit.default_options !! "tol" = Some (VFloat float_1e_3)
  ∧ ∀ self : ADAPTSolver,
      ∃ r, simulate self = Some r
      ∧ ∀ energies self', r = Ok (energies, self') →
          (Z.of_nat (length energies) ≤ Z.max 0 (max_cycles self - iteration self))%Z
          ∧ length (operators (ansatz (vqe_solver self')))
            = (length (operators (ansatz (vqe_solver self))) + length energies)%nat
          ∧ simulate_calls (vqe_solver self')
            = (simulate_calls (vqe_solver self) + length energies)%nat
          ∧ ((converged self' = true
              ∧ (iteration self < iteration self' ≤ max_cycles self)%Z
              ∧ Z.of_nat (length energies) = (iteration self' - iteration self - 1)%Z
              ∧ last (simulate_rankings self) = Some (Ok (-1)%Z))
             ∨ (converged self' = converged self
                ∧ iteration self' = Z.max (iteration self) (max_cycles self)
                ∧ Z.of_nat (length energies) = (iteration self' - iteration self)%Z
                ∧ ∀ r, r ∈ simulate_rankings self → ∃ i, r = Ok i ∧ (-1 < i)%Z))
          ∧ ((∀ r, r ∈ simulate_rankings self → r ≠ Ok (-1)%Z) →
             converged self' = converged self
             ∧ (converged self = false → converged self' = false)
             ∧ iteration self' = Z.max (iteration self) (max_cycles self)
             ∧ Z.of_nat (length energies)
               = Z.max 0 (max_cycles self - iteration self)).
Proof.
  do 2 (split; [reflexivity|]). intros self. unfold ADAPT.simulate.
  destruct (adapt_loop_total (Z.to_nat (max_cycles self - iteration self))
              (simulate_entry self)) as [r Hr]; [done|].
  rewrite Hr. destruct r as [st'|e]; [|by eexists; split; [done|]].
  eexists. split; [done|]. intros ? ? [= <- <-].
  pose proof (adapt_loop_rankings _ _ _ Hr) as Htrace.
  fold (simulate_rankings self) in Htrace. simpl in Htrace.
  assert (Hold :
    (Z.of_nat (length (energies st')) ≤ Z.max 0 (max_cycles self - iteration self))%Z
    ∧ length (operators (ansatz (vqe_solver (self_ st'))))
      = (length (operators (ansatz (vqe_solver self))) + length (energies st'))%nat
    ∧ simulate_calls (vqe_solver (self_ st'))
      = (simulate_calls (vqe_solver self) + length (energies st'))%nat
    ∧ ((converged (self_ st') = true
        ∧ (iteration self < iteration (self_ st') ≤ max_cycles self)%Z
        ∧ Z.of_nat (length (energies st'))
          = (iteration (self_ st') - iteration self - 1)%Z)
       ∨ (converged (self_ st') = converged self
          ∧ iteration (self_ st') = Z.max (iteration self) (max_cycles self)
          ∧ Z.of_nat (length (energies st'))
            = (iteration (self_ st') - iteration self)%Z))).
  { revert Hr. clear Htrace.
    set (Inv := λ s : Locals,
      max_cycles (self_ s) = max_cycles self
      ∧ converged (self_ s) = converged self
      ∧ (iteration self ≤ iteration (self_ s) ≤ Z.max (iteration self) (max_cycles self))%Z
      ∧ Z.of_nat (length (energies s)) = (iteration (self_ s) - iteration self)%Z
      ∧ length (operators (ansatz (vqe_solver (self_ s))))
        = (length (operators (ansatz (vqe_solver self))) + length (energies s))%nat
      ∧ simulate_calls (vqe_solver (self_ s))
        = (simulate_calls (vqe_solver self) + length (energies s))%nat).
    intros Hr.
    match goal with |- ?G =>
      let P := eval pattern st' in G in
      match P with ?Post _ => refine (adapt_loop_rule Inv Post _ _ _ _ _ _ _ Hr) end
    end.
    - intros s s' (Hmax & Hconv & Hit & Hlen & Hops & Hcalls) Hguard Hc.
      apply adapt_cycle_inv in Hc as (i & _ & [(? & _)|(_ & _ & Hgrow)]); [done|].
      destruct Hgrow as (op & fop & v0 & r & _ & _ & _ & _ & _ & _ & _ & He & Hg).
      destruct Hg as (_&Hm&_&_&Hcv&Hi&_&_&_&Ho&_&_&_&_&Hsc).
      unfold Inv. rewrite Hm, Hcv, Hi, He, Ho, Hsc, !length_app. simpl.
      repeat split; [congruence..|lia|lia|lia|lia|lia].
    - intros s s' (Hmax & Hconv & Hit & Hlen & Hops & Hcalls) Hguard Hc.
      apply adapt_cycle_inv in Hc as (i & _ & [(_ & _ & ->)|(? & _)]); [|done].
      simpl. repeat split; [lia|done|done|]. left. repeat split; lia.
    - intros s (Hmax & Hconv & Hit & Hlen & Hops & Hcalls) Hguard.
      repeat split; [lia|done|done|]. right. repeat split; [done|lia|lia].
    - unfold Inv. simpl. repeat split; lia. }
  destruct Hold as (Hlen & Hops & Hcalls & Hend).
  do 3 (split; [done|]).
  assert (Hcases :
    (converged (self_ st') = true
     ∧ (iteration self < iteration (self_ st') ≤ max_cycles self)%Z
     ∧ Z.of_nat (length (energies st'))
       = (iteration (self_ st') - iteration self - 1)%Z
     ∧ last (simulate_rankings self) = Some (Ok (-1)%Z))
    ∨ (converged (self_ st') = converged self
       ∧ iteration (self_ st') = Z.max (iteration self) (max_cycles self)
       ∧ Z.of_nat (length (energies st'))
         = (iteration (self_ st') - iteration self)%Z
       ∧ ∀ r, r ∈ simulate_rankings self → ∃ i, r = Ok i ∧ (-1 < i)%Z)).
  { destruct Hend as [(Hc & Hit & Hl)|(Hc & Hit & Hl)],
             Htrace as [[Hd Hlast]|[Hd Hall]];
      first [by left | by right | exfalso; lia]. }
  split; [exact Hcases|].
  intros Hnever. destruct Hcases as [(_ & _ & _ & Hlast)|(Hc & Hit & Hl & _)].
  - exfalso. apply (Hnever (Ok (-1)%Z)); [|done].
    destruct (simulate_rankings self) as [|r0 l0] using rev_ind; [done|].
    rewrite last_snoc in Hlast. injection Hlast as ->.
    apply elem_of_app. right. left.
  - split; [done|]. split; [congruence|]. split; [done|]. lia.
Qed.

Lemma non_increasing_within_snoc eps (l : list Q) (e' : Q) :
  non_increasing_within eps l →
  (∀ e, last l = Some e → (e' <= e + eps)%Q) →
  non_increasing_within eps (l ++ [e']).
Proof.
  intros Hl Hlast i e1 e2 H1 H2.
  destruct (decide (S i < length l)%nat) as [Hlt|Hge].
  - rewrite lookup_app_l in H1, H2 by lia. by eapply Hl.
  - assert (S i = length l) as Hi.
    { apply lookup_lt_Some in H2. rewrite length_app in H2. simpl in H2. lia. }
    rewrite lookup_app_l in H1 by lia.
    rewrite lookup_app_r, Hi, Nat.sub_diag in H2 by lia. injection H2 as <-.
    apply Hlast. rewrite last_lookup. rewrite <- Hi. exact H1.
Qed.

(** C1 (as amended).  Let the optimizer report an optimum that is not above
    the objective at its start vector (up to [eps1]) and that the objective
    attains at the returned vector (up to [eps2]), and let a term added with
    parameter zero not raise the energy (up to [eps3]).  Then each energy
    [simulate] records is at most the previous one plus
    [eps1 + eps2 + eps3]. *)
Theorem energies_non_increasing_within
    (self self' : ADAPTSolver) (eps1 eps2 eps3 : Q) (energies : list Q) :
  never_worse_than_start (optimizer_fn self) eps1 →
  reports_objective (optimizer_fn self) eps2 →
  zero_init_identity get_expectation_value (qubit_hamiltonian (vqe_solver self)) eps3 →
  simulate self = Some (Ok (energies, self')) →
  non_increasing_within (eps1 + eps2 + eps3) energies.
Proof.
  intros Hworse Hreport Hzero. unfold simulate.
  destruct (adapt_loop _ _) as [[st'|]|] eqn:Hloop; [|done..].
  intros [= <- <-]. revert Hloop.
  set (J := λ s : Locals,
    optimizer (self_ s) = optimizer self
    ∧ qubit_hamiltonian (vqe_solver (self_ s)) = qubit_hamiltonian (vqe_solver self)
    ∧ non_increasing_within (eps1 + eps2 + eps3) (ADAPT.energies s)
    ∧ ∀ e, last (ADAPT.energies s) = Some e →
        ∃ e', objective (vqe_solver (self_ s)) (params s) = Ok e'
              ∧ (e' <= e + eps2)%Q).
  intros Hloop.
  refine (adapt_loop_rule J
            (λ s, non_increasing_within (eps1 + eps2 + eps3) (ADAPT.energies s))
            _ _ _ _ _ _ _ Hloop).
  - intros s s' (Hopt & Hham & Hmono & Hlast) _ Hc.
    apply adapt_cycle_inv in Hc as (i & _ & [(? & _)|(_ & _ & Hgrow)]); [done|].
    destruct Hgrow as (op & fop & v0 & r & _ & _ & Hv0o & Hv0t & Hv0h & Hr & Hp & He & Hg).
    destruct Hg as (_&_&_&Hopt'&_&_&_&_&_&Ho&_&Ht&_&Hh&_).
    assert (optimizer_fn (self_ s) = optimizer_fn self) as Hfn.
    { unfold optimizer_fn. by rewrite Hopt. }
    rewrite Hfn in Hr.
    destruct (Hreport _ _ _ Hr) as (e' & Hobj & He').
    split; [congruence|]. split; [congruence|]. split.
    + rewrite He. apply non_increasing_within_snoc; [done|].
      intros e Hlst. destruct (Hlast e Hlst) as (e0 & He0 & Hle0).
      rewrite objective_eq in He0. case_bool_decide as Hlen; [|done].
      injection He0 as <-.
      assert (objective v0 (params s ++ [0%Q])
              = Ok (energy get_expectation_value
                      (qubit_hamiltonian (vqe_solver self))
                      (terms (circuit (ansatz (vqe_solver (self_ s)))) ++ [op])
                      (params s ++ [0%Q]))) as Hstart.
      { rewrite objective_eq, Hv0o, Hv0t, Hv0h, Hham, !length_app, Hlen.
        by rewrite bool_decide_eq_true_2. }
      pose proof (Hworse _ _ _ _ Hr Hstart) as H1.
      pose proof (Hzero (terms (circuit (ansatz (vqe_solver (self_ s))))) op (params s))
        as H2.
      rewrite Hham in Hle0. lra.
    + intros e. rewrite He, last_snoc. intros [= <-]. exists e'. split; [|done].
      rewrite Hp, <- Hobj, !objective_eq. by rewrite Ho, Ht, Hh, Hv0o, Hv0t, Hv0h.
  - intros s s' (Hopt & Hham & Hmono & Hlast) _ Hc.
    apply adapt_cycle_inv in Hc as (i & _ & [(_ & _ & ->)|(? & _)]); done.
  - by intros s (_ & _ & ? & _) _.
  - unfold J. simpl. repeat split; [|done]. intros i e e' Hi. done.
Qed.

End Loop.

(** *** The toy instance *)

Lemma better_of_two_never_worse : never_worse_than_start Toy.better_of_two 0.
Proof.
  intros func x0 r e0 Hr H0. unfold Toy.better_of_two in Hr.
  rewrite H0 in Hr. simpl in Hr.
  destruct (func (map _ x0)) as [e1|]; [|done]. simpl in Hr.
  destruct (Qle_bool e1 e0) eqn:Hle; injection Hr as <-; simpl.
  - apply Qle_bool_iff in Hle. lra.
  - lra.
Qed.

Lemma better_of_two_reports : reports_objective Toy.better_of_two 0.
Proof.
  intros func x0 r Hr. unfold Toy.better_of_two in Hr.
  destruct (func x0) as [e0|] eqn:H0; [|done]. simpl in Hr.
  destruct (func (map _ x0)) as [e1|] eqn:H1; [|done]. simpl in Hr.
  destruct (Qle_bool e1 e0); injection Hr as <-; simpl; eexists; (split; [done|lra]).
Qed.

Lemma toy_zero_init : zero_init_identity Toy.backend 0%nat 0.
Proof.
  intros ts op x. unfold energy, Toy.backend. simpl.
  rewrite fold_right_app. simpl. lra.
Qed.

Lemma not_found_round_converges_and_stops_witness :
  ∃ st', adapt_cycle Toy.flat_backend Toy.better_of_two
           (simulate_entry (Toy.solver DefaultLBFGSB float_1e_3 15)) = Ok (Break, st')
    ∧ converged (self_ st') = true
    ∧ vqe_solver (self_ st') = vqe_solver (Toy.solver DefaultLBFGSB float_1e_3 15)
    ∧ params st' = []
    ∧ energies st' = []
    ∧ ((0 < 15)%Z →
       ∀ fuel, adapt_loop Toy.flat_backend Toy.better_of_two (S fuel)
                 (simulate_entry (Toy.solver DefaultLBFGSB float_1e_3 15))
               = Some (Ok st')).
Proof.
  apply (not_found_round_converges_and_stops Toy.flat_backend Toy.better_of_two
           (simulate_entry (Toy.solver DefaultLBFGSB float_1e_3 15))).
  reflexivity.
Defined.

Lemma growth_round_appends_one_term_and_one_zero_witness :
  ∃ st', adapt_cycle Toy.backend Toy.better_of_two
           (simulate_entry (Toy.solver DefaultLBFGSB (1 # 5) 15)) = Ok (Continue, st')
    ∧ operators (ansatz (vqe_solver (self_ st'))) = [11%nat]
    ∧ initial_var_params (vqe_solver (self_ st')) = [0%Q].
Proof.
  eexists. split; [reflexivity|].
  destruct (proj1 (growth_round_appends_one_term_and_one_zero
                     Toy.backend Toy.better_of_two)
              (simulate_entry (Toy.solver DefaultLBFGSB (1 # 5) 15)) _ 0%Z Continue
              eq_refl eq_refl eq_refl)
    as (_ & op & fop & e & Hop & _ & Ho & _ & Hx & _).
  injection Hop as <-. split; [exact Ho | exact Hx].
Defined.

(** C4 (as stated) fails in its last part: with an optimizer plugged in
    through the ["optimizer"] option that returns a vector one entry longer
    than its start vector, the second round hands the optimizer three
    parameters for an ansatz of two terms. *)
Lemma longer_optimum_breaks_parameter_count :
  ∃ energies self',
    simulate Toy.backend Toy.better_of_two
      (Toy.solver (UserOptimizer Toy.one_longer) (1 # 5) 2)
    = Some (Ok (energies, self'))
    ∧ length (operators (ansatz (vqe_solver self'))) = 2%nat
    ∧ initial_var_params (vqe_solver self') = [0%Q; 0%Q; 0%Q].
Proof. eexists _, _. split; [vm_compute; reflexivity|]. split; reflexivity. Qed.

Lemma simulate_ends_within_max_cycles_witness :
  ∃ energies self',
    simulate Toy.backend Toy.better_of_two
      (Toy.solver (UserOptimizer Toy.better_of_two) (1 # 5) 2)
    = Some (Ok (energies, self'))
    ∧ simulate_rankings Toy.backend Toy.better_of_two
        (Toy.solver (UserOptimizer Toy.better_of_two) (1 # 5) 2)
      = [Ok 0%Z; Ok 0%Z]
    ∧ converged self' = false ∧ iteration self' = 2%Z
    ∧ Z.of_nat (length energies) = 2%Z.
Proof.
  destruct (proj2 (proj2 (simulate_ends_within_max_cycles
                            Toy.backend Toy.better_of_two))
              (Toy.solver (UserOptimizer Toy.better_of_two) (1 # 5) 2))
    as (r & Hr & Hrun).
  assert (Hrank : simulate_rankings Toy.backend Toy.better_of_two
                    (Toy.solver (UserOptimizer Toy.better_of_two) (1 # 5) 2)
                  = [Ok 0%Z; Ok 0%Z]) by (vm_compute; reflexivity).
  destruct r as [[energies self']|e]; [|vm_compute in Hr; discriminate Hr].
  destruct (Hrun energies self' eq_refl) as (_ & _ & _ & _ & Hnever).
  destruct Hnever as (_ & Hfalse & Hit & Hlen).
  { rewrite Hrank. intros r0 [->|[->|[]%elem_of_nil]%elem_of_cons]%elem_of_cons; done. }
  exists energies, self'. split; [exact Hr|]. split; [exact Hrank|].
  split; [by apply Hfalse|]. split; [exact Hit|exact Hlen].
Defined.

Example toy_run_exhausts_two_cycles :
  ∃ self', simulate Toy.backend Toy.better_of_two
             (Toy.solver (UserOptimizer Toy.better_of_two) (1 # 5) 2)
           = Some (Ok ([(-1 # 1)%Q; (-2 # 1)%Q], self'))
           ∧ converged self' = false ∧ iteration self' = 2%Z.
Proof. eexists. split; [vm_compute; reflexivity | split; reflexivity]. Qed.

Lemma energies_non_increasing_within_witness :
  ∃ energies self',
    simulate Toy.backend Toy.better_of_two
      (Toy.solver (UserOptimizer Toy.better_of_two) (1 # 5) 2)
    = Some (Ok (energies, self'))
    ∧ length energies = 2%nat
    ∧ non_increasing_within (0 + 0 + 0) energies.
Proof.
  eexists _, _. split; [vm_compute; reflexivity|]. split; [reflexivity|].
  eapply (energies_non_increasing_within Toy.backend Toy.better_of_two
            (Toy.solver (UserOptimizer Toy.better_of_two) (1 # 5) 2)).
  - exact better_of_two_never_worse.
  - exact better_of_two_reports.
  - exact toy_zero_init.
  - vm_compute. reflexivity.
Defined.

(** C1 (as stated) fails: with an optimizer plugged in through the
    ["optimizer"] option that reports the length of its start vector as the
    optimum, two rounds record the energies 1 and 2. *)
Lemma plugged_optimizer_raises_energy :
  ∃ self',
    simulate Toy.backend Toy.better_of_two
      (Toy.solver (UserOptimizer Toy.length_as_energy) (1 # 5) 2)
    = Some (Ok ([inject_Z 1; inject_Z 2], self'))
    ∧ ¬ non_increasing_within float_1e_3 [inject_Z 1; inject_Z 2].
Proof.
  eexists. split; [vm_compute; reflexivity|].
  intros H. specialize (H 0%nat (inject_Z 1) (inject_Z 2) eq_refl eq_refl).
  vm_compute in H. by apply H.
Qed.

End LoopFacts.

(** ** Further theorems: qubit mappings *)

Module MappingFacts.
Import MappingTransform.

Lemma remapped_length (n : Z) : length (remapped n) = Z.to_nat n.
Proof. unfold remapped. by rewrite length_imap, length_fmap, length_seq. Qed.

Lemma remapped_lookup (n : Z) (i : nat) (k : Z) :
  remapped n !! i = Some k ↔
  (i < Z.to_nat n)%nat ∧
  k = (Z.of_nat i `div` 2 + (if Nat.odd i then (n + 1) `div` 2 else 0))%Z.
Proof.
  unfold remapped. rewrite list_lookup_imap_Some. split.
  - intros (y & [j [-> [-> Hi]%lookup_seq]]%list_lookup_fmap_Some & ->).
    split; [done|]. simpl. destruct (Nat.odd i); lia.
  - intros [Hi ->]. exists (Z.of_nat i `div` 2)%Z. split.
    + by rewrite list_lookup_fmap, lookup_seq_lt.
    + destruct (Nat.odd i); lia.
Qed.

Lemma odd_mod (i : nat) : Nat.odd i = true ↔ (Z.of_nat i `mod` 2 = 1)%Z.
Proof.
  rewrite Nat.odd_spec. split.
  - intros [m ->]. rewrite Nat2Z.inj_add, Nat2Z.inj_mul. Z.div_mod_to_equations. lia.
  - intros H. exists (i / 2)%nat.
    pose proof (Nat.div_mod_eq i 2). 
    assert (i mod 2 = 1)%nat; [|lia].
    apply Nat2Z.inj. rewrite Nat2Z.inj_mod. done.
Qed.

Lemma odd_false_mod (i : nat) : Nat.odd i = false ↔ (Z.of_nat i `mod` 2 = 0)%Z.
Proof.
  pose proof (odd_mod i) as H. destruct (Nat.odd i).
  - split; [done|]. intros H0. destruct H as [H _]. specialize (H eq_refl). lia.
  - split; [|done]. intros _.
    assert (Z.of_nat i `mod` 2 ≠ 1)%Z by (intros H1; apply H in H1; done).
    Z.div_mod_to_equations. lia.
Qed.

(** X12.  The array [remapped] of [make_up_then_down] lays the modes out
    spin-up first: it has one entry per spin-orbital; an even mode [i] goes
    to [i // 2] in the first block, an odd one to [ceil(n / 2) + i // 2] in
    the second; the order of the modes of one spin is kept; and the array is
    a permutation of [0 .. n - 1], for odd [n] as well. *)
Theorem remapped_puts_spin_up_first (n : Z) :
  (0 ≤ n)%Z →
  length (remapped n) = Z.to_nat n
  ∧ (∀ i k, remapped n !! i = Some k →
       if Nat.odd i
       then k = ((n + 1) `div` 2 + Z.of_nat i `div` 2)%Z ∧ ((n + 1) `div` 2 ≤ k < n)%Z
       else k = (Z.of_nat i `div` 2)%Z ∧ (0 ≤ k < (n + 1) `div` 2)%Z)
  ∧ (∀ i j ki kj, remapped n !! i = Some ki → remapped n !! j = Some kj →
       Nat.odd i = Nat.odd j → (i < j)%nat → (ki < kj)%Z)
  ∧ remapped n ≡ₚ Z.of_nat <$> seq 0 (Z.to_nat n).
Proof.
  intros Hn. split; [apply remapped_length|].
  assert (Hcase : ∀ i k, remapped n !! i = Some k →
       if Nat.odd i
       then k = ((n + 1) `div` 2 + Z.of_nat i `div` 2)%Z ∧ ((n + 1) `div` 2 ≤ k < n)%Z
       else k = (Z.of_nat i `div` 2)%Z ∧ (0 ≤ k < (n + 1) `div` 2)%Z).
  { intros i k [Hi ->]%remapped_lookup.
    destruct (Nat.odd i) eqn:Hodd.
    - apply odd_mod in Hodd. Z.div_mod_to_equations. lia.
    - apply odd_false_mod in Hodd. Z.div_mod_to_equations. lia. }
  split; [done|]. split.
  - intros i j ki kj Hi Hj Heq Hlt.
    pose proof (Hcase _ _ Hi) as Hki. pose proof (Hcase _ _ Hj) as Hkj.
    rewrite <- Heq in Hkj. destruct (Nat.odd i) eqn:Hodd.
    + symmetry in Heq. apply odd_mod in Hodd, Heq. Z.div_mod_to_equations. lia.
    + symmetry in Heq. apply odd_false_mod in Hodd, Heq. Z.div_mod_to_equations. lia.
  - apply submseteq_length_Permutation.
    + apply NoDup_submseteq.
      * apply NoDup_alt. intros i j k Hi Hj.
        pose proof (Hcase _ _ Hi) as Hki. pose proof (Hcase _ _ Hj) as Hkj.
        destruct (Nat.odd i) eqn:Hoi, (Nat.odd j) eqn:Hoj;
          repeat match goal with
                 | H : Nat.odd _ = true |- _ => apply odd_mod in H
                 | H : Nat.odd _ = false |- _ => apply odd_false_mod in H
                 end; Z.div_mod_to_equations; lia.
      * intros k [i Hi]%list_elem_of_lookup.
        pose proof (Hcase _ _ Hi) as Hk.
        apply list_elem_of_fmap. exists (Z.to_nat k).
        assert (0 ≤ k < n)%Z as Hr.
        { destruct (Nat.odd i); Z.div_mod_to_equations; lia. }
        split; [lia|]. apply elem_of_seq. lia.
    + by rewrite remapped_length, length_fmap, length_seq.
Qed.

Lemma max_mode_spec (l : list nat) (m : nat) :
  max_mode l = Ok m → m ∈ l ∧ ∀ i, i ∈ l → (i ≤ m)%nat.
Proof.
  destruct l as [|a l]; [done|]. simpl. intros [= <-].
  revert a. induction l as [|b l IH]; intros a; simpl.
  - split; [left|]. by intros i ->%list_elem_of_singleton.
  - destruct (IH (a `max` b)%nat) as [Hin Hle]. split.
    + apply elem_of_cons in Hin as [Heq|Hin].
      * rewrite Heq. destruct (Nat.max_spec a b) as [[_ ->]|[_ ->]];
          [right; left|left].
      * right. by right.
    + intros i [->|[->|Hi]%elem_of_cons]%elem_of_cons.
      * etrans; [|apply Hle; left]. lia.
      * etrans; [|apply Hle; left]. lia.
      * apply Hle. by right.
Qed.

Lemma max_mode_nil (l : list nat) : max_mode l = Raise ValueError ↔ l = [].
Proof. by destruct l. Qed.

Lemma max_mode_cases (l : list nat) :
  (l = [] ∧ max_mode l = Raise ValueError) ∨ (∃ m, max_mode l = Ok m).
Proof. destruct l; [by left|right; eauto]. Qed.

Lemma new_term_relabel (n : Z) (term : Term) :
  (n `mod` 2 = 0)%Z →
  (∀ i, i ∈ term.*1 → (Z.of_nat i < n)%Z) →
  new_term (remapped n) term = Ok (relabel n term).
Proof.
  intros Heven. induction term as [|[i a] term IH]; intros Hin; [done|].
  simpl. assert (remapped n !! i = Some (spin_block_index n i)) as ->.
  { apply remapped_lookup. split.
    - assert (Z.of_nat i < n)%Z by (apply Hin; left). lia.
    - unfold spin_block_index. destruct (Nat.odd i); [|done].
      f_equal. Z.div_mod_to_equations. lia. }
  rewrite IH; [done|]. intros j Hj. apply Hin. simpl. by right.
Qed.

Section Operators.

Context {Coef FermionOperator QubitOperator : Type}.
Variable str_upper : string → string.
Variable terms : FermionOperator → list (Term * Coef).
Variable zero : FermionOperator.
Variable iadd : FermionOperator → list (Z * Z) → Coef → FermionOperator.
Variable jordan_wigner : FermionOperator → result QubitOperator.
Variable bravyi_kitaev : FermionOperator → Z → result QubitOperator.
Variable symmetry_conserving_bravyi_kitaev :
  FermionOperator → Z → Z → bool → result QubitOperator.

#[local] Abbreviation modes := (modes terms).
#[local] Abbreviation reorder := (reorder iadd).
#[local] Abbreviation make_up_then_down := (make_up_then_down terms zero iadd).
#[local] Abbreviation fermion_to_qubit_mapping :=
  (fermion_to_qubit_mapping str_upper terms zero iadd jordan_wigner bravyi_kitaev
     symmetry_conserving_bravyi_kitaev).

Lemma reorder_relabel (n : Z) (items : list (Term * Coef)) (acc : FermionOperator) :
  (n `mod` 2 = 0)%Z →
  (∀ i, i ∈ concat ((λ tc : Term * Coef, tc.1.*1) <$> items) → (Z.of_nat i < n)%Z) →
  reorder (remapped n) items acc
  = Ok (foldl (λ op tc, iadd op (relabel n tc.1) tc.2) acc items).
Proof.
  intros Heven. revert acc. induction items as [|[t c] items IH]; intros acc Hin; [done|].
  simpl in *. rewrite new_term_relabel; [|done|].
  - simpl. apply IH. intros i Hi. apply Hin, elem_of_app. by right.
  - intros i Hi. apply Hin, elem_of_app. by left.
Qed.

Lemma make_up_then_down_cases (op : FermionOperator) (n : Z) :
  ((n `mod` 2 ≠ 0)%Z ∨ modes op = [] ∨ (∃ i, i ∈ modes op ∧ (n ≤ Z.of_nat i)%Z))
  ∧ make_up_then_down op n = Raise ValueError
  ∨ ((n `mod` 2 = 0)%Z ∧ modes op ≠ [] ∧ (∀ i, i ∈ modes op → (Z.of_nat i < n)%Z))
  ∧ make_up_then_down op n
    = Ok (foldl (λ acc tc, iadd acc (relabel n tc.1) tc.2) zero (terms op)).
Proof.
  unfold MappingTransform.make_up_then_down.
  destruct (Z.eqb_spec (n `mod` 2) 0) as [Heven|Hodd]; simpl; [|left; eauto].
  destruct (max_mode_cases (modes op)) as [[Hnil ->]|[m Hm]]; [left; eauto|].
  rewrite Hm. simpl. apply max_mode_spec in Hm as [Hin Hmax].
  destruct (Z.ltb_spec n (Z.of_nat m + 1)) as [Hlt|Hge].
  - left. split; [|done]. right; right. exists m. split; [done|lia].
  - right. assert (∀ i, i ∈ modes op → (Z.of_nat i < n)%Z) as Hall.
    { intros i Hi%Hmax. lia. }
    split.
    + split; [done|]. split; [|done]. intros Hnil. rewrite Hnil in Hin.
      by apply elem_of_nil in Hin.
    + by apply reorder_relabel.
Qed.

(** X13.  [make_up_then_down] raises exactly when the number of
    spin-orbitals is odd, or the operator has no ladder operator at all (the
    zero operator, or a constant: [max()] of an empty list), or one of its
    modes is not below the number of spin-orbitals; and what it raises is
    always [ValueError]: the lookups in [remapped] cannot fail. *)
Theorem make_up_then_down_raises_exactly (op : FermionOperator) (n : Z) :
  (is_ok (make_up_then_down op n) = false ↔
     (n `mod` 2 ≠ 0)%Z ∨ modes op = [] ∨ (∃ i, i ∈ modes op ∧ (n ≤ Z.of_nat i)%Z))
  ∧ (∀ e, make_up_then_down op n = Raise e → e = ValueError).
Proof.
  destruct (make_up_then_down_cases op n) as [[Hbad ->]|[(Heven & Hne & Hall) ->]].
  - split; [done|]. by intros e [= <-].
  - split; [|done]. split; [done|].
    intros [Hodd|[Hnil|(i & Hi & Hle)]]; [done..|].
    apply Hall in Hi. lia.
Qed.

(** X14.  On an operator with at least one ladder operator, all of whose
    modes are below an even number [n] of spin-orbitals, [make_up_then_down]
    adds up, in the order of the operator's terms and with their
    coefficients, the terms with every even mode [i] renamed to [i // 2] and
    every odd one to [n // 2 + i // 2]; the actions are kept. *)
Theorem make_up_then_down_relabels (op : FermionOperator) (n : Z) :
  (n `mod` 2 = 0)%Z →
  modes op ≠ [] →
  (∀ i, i ∈ modes op → (Z.of_nat i < n)%Z) →
  make_up_then_down op n
  = Ok (foldl (λ acc tc, iadd acc (relabel n tc.1) tc.2) zero (terms op)).
Proof.
  intros Heven Hne Hall.
  destruct (make_up_then_down_cases op n) as [[Hbad _]|[_ ->]]; [|done].
  destruct Hbad as [Hodd|[Hnil|(i & Hi & Hle)]]; [done..|].
  apply Hall in Hi. lia.
Qed.

(** X15.  [fermion_to_qubit_mapping] reads the name of the mapping through
    [str.upper()] only, so that two names with one upper-case form are
    treated alike, and refuses any name whose upper-case form is not JW, BK
    or SCBK before it looks at anything else.  Whatever the operator and
    the transforms do, it raises [ValueError] when the number of
    spin-orbitals is missing and either the modes are to be reordered or the
    mapping is not JW, and when the mapping is SCBK and the number of
    electrons is missing.  Plain JW needs neither number: it is
    [jordan_wigner] of the operator as given. *)
Theorem fermion_to_qubit_mapping_requirements
    (op : FermionOperator) (mapping : string) (n e : option Z) (u : bool) :
  (str_upper mapping ∉ available_mappings →
     fermion_to_qubit_mapping op mapping n e u = Raise ValueError)
  ∧ (n = None → u = true ∨ str_upper mapping ≠ "JW" →
     fermion_to_qubit_mapping op mapping n e u = Raise ValueError)
  ∧ (str_upper mapping = "SCBK" → e = None →
     fermion_to_qubit_mapping op mapping n e u = Raise ValueError)
  ∧ (str_upper mapping = "JW" →
     fermion_to_qubit_mapping op mapping n e false = jordan_wigner op)
  ∧ (∀ mapping', str_upper mapping' = str_upper mapping →
     fermion_to_qubit_mapping op mapping' n e u
     = fermion_to_qubit_mapping op mapping n e u).
Proof.
  unfold MappingTransform.fermion_to_qubit_mapping. split; [|split; [|split; [|split]]].
  - intros Hnot. by rewrite bool_decide_eq_false_2.
  - intros -> Hor. case_bool_decide as Hin; [simpl|done].
    destruct u; [done|]. destruct Hor as [|Hne]; [done|]. simpl.
    destruct (String.eqb_spec (str_upper mapping) "JW"); [done|].
    by destruct (String.eqb (str_upper mapping) "BK").
  - intros Hm ->. rewrite Hm. simpl.
    destruct u; simpl; [|by destruct n].
    destruct n as [n|]; [|done].
    destruct (make_up_then_down_cases op n) as [[_ ->]|[_ ->]]; done.
  - intros ->. done.
  - intros mapping' ->. done.
Qed.

End Operators.

Lemma remapped_puts_spin_up_first_witness :
  remapped 4 = [0; 2; 1; 3]%Z ∧ remapped 4 ≡ₚ Z.of_nat <$> seq 0 4.
Proof.
  split; [reflexivity|].
  by destruct (remapped_puts_spin_up_first 4 ltac:(lia)) as (_ & _ & _ & Hperm).
Defined.

Example remapped_of_five : remapped 5 = [0; 3; 1; 4; 2]%Z.
Proof. reflexivity. Qed.

Example constant_operator_is_refused :
  make_up_then_down ToyMapping.terms ToyMapping.zero ToyMapping.iadd [([], 7%Z)] 4
  = Raise ValueError.
Proof. reflexivity. Qed.

Lemma make_up_then_down_relabels_witness :
  make_up_then_down ToyMapping.terms ToyMapping.zero ToyMapping.iadd ToyMapping.hop 4
  = Ok [([(0, 1); (3, 0)], 2); ([(2, 1); (1, 1); (0, 0); (3, 0)], 5)]%Z.
Proof.
  rewrite (make_up_then_down_relabels ToyMapping.terms ToyMapping.zero ToyMapping.iadd
             ToyMapping.hop 4).
  - reflexivity.
  - reflexivity.
  - discriminate.
  - intros i Hi. vm_compute in Hi.
    repeat (apply elem_of_cons in Hi as [->|Hi]; [lia|]).
    by apply elem_of_nil in Hi.
Defined.

Lemma make_up_then_down_raises_exactly_witness :
  is_ok (make_up_then_down ToyMapping.terms ToyMapping.zero ToyMapping.iadd
           ToyMapping.hop 3) = false.
Proof.
  apply (proj2 (proj1 (make_up_then_down_raises_exactly ToyMapping.terms ToyMapping.zero
                         ToyMapping.iadd ToyMapping.hop 3))).
  left. done.
Defined.

Lemma fermion_to_qubit_mapping_requirements_witness :
  fermion_to_qubit_mapping ToyMapping.upper ToyMapping.terms ToyMapping.zero ToyMapping.iadd
    ToyMapping.jordan_wigner ToyMapping.bravyi_kitaev
    ToyMapping.symmetry_conserving_bravyi_kitaev ToyMapping.hop "bk" None None false
  = Raise ValueError.
Proof.
  destruct (fermion_to_qubit_mapping_requirements ToyMapping.upper ToyMapping.terms ToyMapping.zero
              ToyMapping.iadd ToyMapping.jordan_wigner ToyMapping.bravyi_kitaev
              ToyMapping.symmetry_conserving_bravyi_kitaev ToyMapping.hop "bk" None None
              false) as (_ & Hmissing & _).
  apply Hmissing; [done|]. right. done.
Defined.

Example scbk_without_electrons :
  fermion_to_qubit_mapping ToyMapping.upper ToyMapping.terms ToyMapping.zero ToyMapping.iadd
    ToyMapping.jordan_wigner ToyMapping.bravyi_kitaev
    ToyMapping.symmetry_conserving_bravyi_kitaev ToyMapping.hop "scBK" (Some 4%Z) None true
  = Raise ValueError.
Proof. reflexivity. Qed.

End MappingFacts.

(** ** Theorems: the UCCSD ansatz *)

Module UCCSDFacts.
Import UCCSD.

Section Facts.

Variable random_var_params : Z → list Q.
Context {Coef FermionOperator QubitOperator : Type}.
Variable str_upper : string → string.
Variable fermion_terms : FermionOperator → list (MappingTransform.Term * Coef).
Variable zero : FermionOperator.
Variable iadd : FermionOperator → list (Z * Z) → Coef → FermionOperator.
Variable jordan_wigner : FermionOperator → result QubitOperator.
Variable bravyi_kitaev : FermionOperator → Z → result QubitOperator.
Variable symmetry_conserving_bravyi_kitaev :
  FermionOperator → Z → Z → bool → result QubitOperator.
Variable uccsd_singlet_generator : list Q → Z → Z → result FermionOperator.
Variable uccsd_openshell_generator : list Q → Z → Z → Z → result FermionOperator.
Variable real_terms : QubitOperator → list (PauliWord * Q).
Variable get_reference_circuit : Z → Z → string → bool → Z → list Gate.
Variable pauliword_to_circuit : PauliWord → Q → list Gate.
Variable float_add float_mul : Q → Q → Q.

#[local] Abbreviation set_var_params := (set_var_params random_var_params).
#[local] Abbreviation get_qubit_operator :=
  (get_qubit_operator str_upper fermion_terms zero iadd jordan_wigner bravyi_kitaev
     symmetry_conserving_bravyi_kitaev uccsd_singlet_generator
     uccsd_openshell_generator real_terms).
#[local] Abbreviation prepare_reference_state := (prepare_reference_state get_reference_circuit).
#[local] Abbreviation trotterize_terms := (trotterize_terms pauliword_to_circuit).
#[local] Abbreviation rotation_angle := (rotation_angle float_add float_mul).
#[local] Abbreviation update_gates := (update_gates float_add float_mul).
#[local] Abbreviation build_circuit :=
  (build_circuit random_var_params str_upper fermion_terms zero iadd jordan_wigner
     bravyi_kitaev symmetry_conserving_bravyi_kitaev uccsd_singlet_generator
     uccsd_openshell_generator real_terms get_reference_circuit pauliword_to_circuit).
#[local] Abbreviation update_var_params :=
  (update_var_params random_var_params str_upper fermion_terms zero iadd jordan_wigner
     bravyi_kitaev symmetry_conserving_bravyi_kitaev uccsd_singlet_generator
     uccsd_openshell_generator real_terms get_reference_circuit pauliword_to_circuit
     float_add float_mul).
#[local] Abbreviation Built :=
  (Built random_var_params str_upper fermion_terms zero iadd jordan_wigner
     bravyi_kitaev symmetry_conserving_bravyi_kitaev uccsd_singlet_generator
     uccsd_openshell_generator real_terms get_reference_circuit pauliword_to_circuit
     float_add float_mul).
#[local] Abbreviation built_from :=
  (built_from get_reference_circuit pauliword_to_circuit).

Lemma set_var_params_explicit (self : UCCSD) (v : list Q) :
  set_var_params self (Some (Explicit v))
  = if (Z.of_nat (length v) =? n_var_params self)%Z
    then Ok (with_var_params self v, v) else Raise ValueError.
Proof.
  unfold UCCSD.set_var_params. by destruct (_ =? _)%Z.
Qed.

(** C8.  An explicit vector whose length is not the declared number of
    parameters makes [set_var_params] raise [ValueError], and with it
    [update_var_params] and [build_circuit], which call it first; a vector of
    the declared length is stored and returned as it is. *)
Theorem explicit_vector_of_wrong_length_raises (self : UCCSD) (v : list Q) :
  (Z.of_nat (length v) ≠ n_var_params self →
     set_var_params self (Some (Explicit v)) = Raise ValueError
     ∧ update_var_params self (Explicit v) = Raise ValueError
     ∧ build_circuit self (Some (Explicit v)) = Raise ValueError)
  ∧ (Z.of_nat (length v) = n_var_params self →
     set_var_params self (Some (Explicit v)) = Ok (with_var_params self v, v)
     ∧ var_params (with_var_params self v) = Some v).
Proof.
  split.
  - intros Hne%Z.eqb_neq.
    unfold UCCSD.update_var_params, UCCSD.build_circuit.
    rewrite set_var_params_explicit, Hne. done.
  - intros Heq%Z.eqb_eq. by rewrite set_var_params_explicit, Heq.
Qed.

Lemma same_skeleton_refl c : same_skeleton c c.
Proof. apply Forall2_same_length_lookup_2; [done|]. intros i g g' -> [= <-]. done. Qed.

Lemma same_skeleton_trans c1 c2 c3 :
  same_skeleton c1 c2 → same_skeleton c2 c3 → same_skeleton c1 c3.
Proof.
  unfold same_skeleton. intros H12. revert c3.
  induction H12 as [|g1 g2 c1 c2 (Hn & Ht & Hc & Hv & Hf) _ IH];
    intros c3 H23; inversion H23 as [|? g3 ? c3' (Hn' & Ht' & Hc' & Hv' & Hf') H23']; subst.
  - constructor.
  - constructor; [|by apply IH].
    repeat split; [congruence..|].
    intros Hfalse. rewrite Hf', Hf by congruence. done.
Qed.

Lemma set_variational_parameter_spec c i p :
  (i < length (variational_gates c))%nat →
  ∃ c', set_variational_parameter c i p = Ok c'
        ∧ same_skeleton c c'
        ∧ variational_gates c' = alter (λ g, set_parameter g p) i (variational_gates c).
Proof.
  unfold variational_gates.
  revert i. induction c as [|g c IH]; intros i Hi; simpl in *; [lia|].
  destruct (is_variational g) eqn:Hg.
  - rewrite filter_cons_True in Hi |- * by done.
    destruct i as [|j]; simpl in *.
    + eexists. split; [done|]. split.
      * constructor; [|apply same_skeleton_refl]. simpl.
        repeat split; try done. congruence.
      * by rewrite filter_cons_True.
    + destruct (IH j) as (c' & -> & Hsk & Hv); [lia|]. simpl.
      eexists. split; [done|]. split.
      * constructor; [done | exact Hsk].
      * rewrite filter_cons_True by done. by rewrite Hv.
  - rewrite filter_cons_False in Hi |- * by congruence.
    destruct (IH i) as (c' & -> & Hsk & Hv); [lia|]. simpl.
    eexists. split; [done|]. split.
    + constructor; [done | exact Hsk].
    + rewrite filter_cons_False by congruence. done.
Qed.

Lemma vparam_set c c' i p :
  (i < length (variational_gates c))%nat →
  variational_gates c' = alter (λ g, set_parameter g p) i (variational_gates c) →
  vparam c' i = Some p ∧ ∀ j, j ≠ i → vparam c' j = vparam c j.
Proof.
  intros Hi Hv. unfold vparam. rewrite Hv. split.
  - rewrite list_lookup_alter_eq.
    destruct (lookup_lt_is_Some_2 _ _ Hi) as [g ->]. done.
  - intros j Hj. by rewrite list_lookup_alter_ne.
Qed.

(** The fast path writes, for each word of the operator, the angle of its
    coefficient into the gate the mapping names, and nothing else. *)
Lemma update_gates_spec (m : gmap PauliWord nat) items c :
  NoDup items.*1 →
  (∀ w, w ∈ items.*1 → ∃ i, m !! w = Some i ∧ (i < length (variational_gates c))%nat) →
  (∀ w w' i, m !! w = Some i → m !! w' = Some i → w = w') →
  ∃ c', update_gates m c items = Ok c'
        ∧ same_skeleton c c'
        ∧ length (variational_gates c') = length (variational_gates c)
        ∧ ∀ w i, m !! w = Some i →
            vparam c' i
            = match (list_to_map items : gmap PauliWord Q) !! w with
              | Some coef => Some (rotation_angle coef)
              | None => vparam c i
              end.
Proof.
  revert c. induction items as [|[w0 coef] rest IH]; intros c Hnd Hdom Hinj.
  - exists c. split; [done|]. split; [apply same_skeleton_refl|]. split; [done|].
    intros w i _. by rewrite list_to_map_nil, lookup_empty.
  - simpl in *. apply NoDup_cons in Hnd as [Hw0 Hnd].
    destruct (Hdom w0) as (i0 & Hi0 & Hlt); [by left|]. rewrite Hi0.
    destruct (set_variational_parameter_spec c i0 (rotation_angle coef) Hlt)
      as (c1 & -> & Hsk1 & Hv1). simpl.
    destruct (vparam_set c c1 i0 _ Hlt Hv1) as [Hset Hother].
    assert (length (variational_gates c1) = length (variational_gates c)) as Hlen.
    { by rewrite Hv1, length_alter. }
    destruct (IH c1 Hnd) as (c' & -> & Hsk & Hlen' & Hpar); [|done|].
    { intros w Hw. destruct (Hdom w) as (i & ? & ?); [by right|].
      exists i. split; [done|]. by rewrite Hlen. }
    exists c'. split; [done|]. split; [by eapply same_skeleton_trans|].
    split; [congruence|]. intros w i Hwi. rewrite (Hpar w i Hwi).
    destruct (decide (w0 = w)) as [->|Hne].
    + rewrite lookup_insert_eq.
      rewrite (not_elem_of_list_to_map_1 (M:=gmap PauliWord)) by done.
      assert (i = i0) as -> by congruence. done.
    + rewrite lookup_insert_ne by done.
      destruct (list_to_map rest !! w); [done|].
      apply Hother. intros ->. apply Hne. by eapply Hinj.
Qed.

Lemma insert_by_len_perm x l : insert_by_len x l ≡ₚ x :: l.
Proof.
  induction l as [|y l IH]; simpl; [done|].
  destruct (length y.1 <? length x.1)%nat; [|done].
  rewrite IH. apply Permutation_swap.
Qed.

Lemma sorted_by_len_perm items : sorted_by_len items ≡ₚ items.
Proof.
  induction items as [|x items IH]; simpl; [done|].
  by rewrite insert_by_len_perm, IH.
Qed.

Lemma trotterize_fold pws :
  ∀ k g0 (m0 : gmap PauliWord nat),
    NoDup pws.*1 →
    let r := foldl (λ acc iwc, (acc.1 ++ pauliword_to_circuit iwc.2.1 iwc.2.2,
                                <[iwc.2.1 := iwc.1]> acc.2))
               (g0, m0) (imap (λ i wc, ((k + i)%nat, wc)) pws) in
    r.1 = g0 ++ flat_map (λ wc, pauliword_to_circuit wc.1 wc.2) pws
    ∧ ∀ w i, r.2 !! w = Some i
             ↔ (∃ j, i = (k + j)%nat ∧ pws.*1 !! j = Some w)
               ∨ ((w ∉ pws.*1) ∧ m0 !! w = Some i).
Proof.
  induction pws as [|[w0 c0] pws IH]; intros k g0 m0 Hnd; simpl.
  - split; [by rewrite app_nil_r|]. intros w i. split.
    + intros ?. right. split; [apply not_elem_of_nil | done].
    + by intros [(j & _ & ?)|[_ ?]].
  - apply NoDup_cons in Hnd as [Hw0 Hnd].
    rewrite (imap_ext _ (λ i wc, ((S k + i)%nat, wc))) by (intros; simpl; f_equal; lia).
    destruct (IH (S k) (g0 ++ pauliword_to_circuit w0 c0) (<[w0 := (k + 0)%nat]> m0) Hnd)
      as [Hg Hm].
    split; [by rewrite Hg, <- app_assoc|].
    intros w i. rewrite Hm. split.
    + intros [(j & -> & Hj)|[Hw Hins]].
      * left. exists (S j). split; [lia | done].
      * destruct (decide (w0 = w)) as [->|Hne].
        -- rewrite lookup_insert_eq in Hins. injection Hins as <-.
           left. exists 0%nat. done.
        -- rewrite lookup_insert_ne in Hins by done.
           right. split; [|done]. by apply not_elem_of_cons.
    + intros [(j & -> & Hj)|[Hw Hm0]].
      * destruct j as [|j]; simpl in Hj.
        -- injection Hj as <-. right. split; [done|]. by rewrite lookup_insert_eq.
        -- left. exists j. split; [lia | done].
      * apply not_elem_of_cons in Hw as [Hne Hw].
        right. split; [done|]. by rewrite lookup_insert_ne.
Qed.

Lemma trotterize_terms_spec pws :
  NoDup pws.*1 →
  (trotterize_terms pws).1 = flat_map (λ wc, pauliword_to_circuit wc.1 wc.2) pws
  ∧ ∀ w i, (trotterize_terms pws).2 !! w = Some i ↔ pws.*1 !! i = Some w.
Proof.
  intros Hnd. destruct (trotterize_fold pws 0 [] ∅ Hnd) as [Hg Hm].
  split; [exact Hg|]. intros w i.
  unfold UCCSD.trotterize_terms. rewrite Hm. split.
  - by intros [(j & -> & ?)|[_ ?]].
  - intros ?. left. by exists i.
Qed.

Section WithRotation.

Hypothesis Hrot : one_rotation_per_word pauliword_to_circuit float_add float_mul.

Lemma variational_gates_trotterized pws :
  length (variational_gates (flat_map (λ wc, pauliword_to_circuit wc.1 wc.2) pws))
  = length pws
  ∧ ∀ j w coef, pws !! j = Some (w, coef) →
      vparam (flat_map (λ wc, pauliword_to_circuit wc.1 wc.2) pws) j
      = Some (rotation_angle coef).
Proof.
  unfold vparam, variational_gates.
  induction pws as [|[w0 c0] pws [IHlen IH]]; simpl; [by split|].
  rewrite filter_app.
  destruct (Hrot w0 c0) as (g & Hg & Hp). unfold variational_gates in Hg.
  rewrite Hg. simpl. split; [by rewrite IHlen|].
  intros [|j] w coef Hj; simpl in *.
  - injection Hj as <- <-. done.
  - by eapply IH.
Qed.

Lemma build_circuit_body (self self1 : UCCSD) arg :
  build_circuit self arg = Ok self1 →
  ∃ self0 items, get_qubit_operator self0 = Ok items ∧ self1 = built_from self0 items.
Proof.
  unfold UCCSD.build_circuit.
  match goal with |- bind ?X _ = _ → _ => destruct X as [self0|] end; [|done].
  cbn [bind].
  change (UCCSD.get_qubit_operator str_upper fermion_terms zero iadd jordan_wigner
            bravyi_kitaev symmetry_conserving_bravyi_kitaev uccsd_singlet_generator
            uccsd_openshell_generator real_terms self0)
    with (get_qubit_operator self0).
  destruct (get_qubit_operator self0) as [items|] eqn:Hop; [|done].
  cbn [bind]. intros H. exists self0, items. split; [done|]. unfold UCCSD.built_from.
  destruct (trotterize_terms _) as [G M]. simpl.
  destruct (prepare_reference_state self0) as [|g ref]; simpl in H;
    by injection H as <-.
Qed.

Lemma build_circuit_explicit (self : UCCSD) v :
  Z.of_nat (length v) = n_var_params self →
  build_circuit self (Some (Explicit v))
  = bind (get_qubit_operator (with_var_params self v))
      (λ items, Ok (built_from (with_var_params self v) items)).
Proof.
  intros Hlen%Z.eqb_eq. unfold UCCSD.build_circuit.
  rewrite set_var_params_explicit, Hlen. cbn [bind fst].
  destruct (get_qubit_operator (with_var_params self v)) as [items|]; [|done].
  cbn [bind]. unfold UCCSD.built_from.
  destruct (trotterize_terms _) as [G M]. simpl.
  by destruct (prepare_reference_state (with_var_params self v)).
Qed.

Lemma set_var_params_inv (self self1 : UCCSD) arg x :
  set_var_params self arg = Ok (self1, x) → self1 = with_var_params self x.
Proof.
  unfold UCCSD.set_var_params.
  match goal with |- bind ?X _ = _ → _ => destruct X end; [|done].
  simpl. by intros [= <- <-].
Qed.

Lemma gate_parameter_of_eq (self : UCCSD) m c w :
  pauli_to_angles_mapping self = Some m → circuit self = Some c →
  gate_parameter_of self w = m !! w ≫= vparam c.
Proof. unfold gate_parameter_of. by intros -> ->. Qed.


Hypothesis Hdict : terms_are_dict real_terms.
Hypothesis Href : reference_is_fixed get_reference_circuit.

(** The operator of an object, when it can be computed, lists no word
    twice. *)
Lemma operator_is_dict (self : UCCSD) items :
  get_qubit_operator self = Ok items → NoDup items.*1.
Proof.
  unfold UCCSD.get_qubit_operator, _get_singlet_qubit_operator,
    _get_openshell_qubit_operator.
  destruct (spin self =? 0)%Z.
  - destruct (uccsd_singlet_generator _ _ _) as [f|]; [|done]. cbn [bind].
    destruct (fermion_to_qubit_mapping _ _ _ _ _ _ _ _ _ _ _ _) as [q|]; [|done].
    intros [= <-]. apply Hdict.
  - destruct (uccsd_openshell_generator _ _ _ _) as [f|]; [|done]. cbn [bind].
    destruct (fermion_to_qubit_mapping _ _ _ _ _ _ _ _ _ _ _ _) as [q|]; [|done].
    intros [= <-]. apply Hdict.
Qed.

Lemma coef_lookup (items : list (PauliWord * Q)) w coef :
  NoDup items.*1 → (w, coef) ∈ items →
  (list_to_map items : gmap PauliWord Q) !! w = Some coef.
Proof. intros Hnd. by apply elem_of_list_to_map_1. Qed.

Lemma built_from_spec (self : UCCSD) items :
  NoDup items.*1 →
  consistent (built_from self items)
  ∧ (∀ w, gate_parameter_of (built_from self items) w
          = rotation_angle <$> (list_to_map items : gmap PauliWord Q) !! w)
  ∧ ∃ cf, circuit (built_from self items) = Some cf
          ∧ length (variational_gates cf) = length items
          ∧ ∀ i w coef, sorted_by_len items !! i = Some (w, coef) →
              vparam cf i = Some (rotation_angle coef).
Proof.
  intros Hitems.
  set (sorted := sorted_by_len items).
  assert (NoDup sorted.*1) as Hnd.
  { unfold sorted. by rewrite sorted_by_len_perm. }
  destruct (trotterize_terms_spec sorted Hnd) as [HG HM].
  destruct (variational_gates_trotterized sorted) as [Hlen Hpar].
  assert (variational_gates
            (prepare_reference_state self ++ (trotterize_terms sorted).1)
          = variational_gates (flat_map (λ wc, pauliword_to_circuit wc.1 wc.2) sorted))
    as Hvar.
  { unfold variational_gates. rewrite filter_app, HG.
    change (filter _ (prepare_reference_state self))
      with (variational_gates (prepare_reference_state self)).
    by rewrite Href. }
  assert (length sorted = length items) as Hsl.
  { unfold sorted. by rewrite sorted_by_len_perm. }
  split; [|split].
  - exists (trotterize_terms sorted).2, (prepare_reference_state self
                                         ++ (trotterize_terms sorted).1).
    split; [done|]. split; [done|]. split; [|split].
    + intros w w' i Hw Hw'. apply HM in Hw, Hw'. congruence.
    + intros w i Hw. apply HM in Hw. rewrite Hvar, Hlen.
      apply lookup_lt_Some in Hw. by rewrite length_fmap in Hw.
    + rewrite Hvar, Hlen, <- size_dom.
      assert (dom (trotterize_terms sorted).2 = list_to_set sorted.*1) as ->.
      { apply set_eq. intros w. rewrite elem_of_dom, elem_of_list_to_set.
        rewrite list_elem_of_lookup. unfold is_Some.
        split; intros [i Hi]; exists i; by apply HM. }
      rewrite size_list_to_set by done. by rewrite length_fmap.
  - intros w.
    rewrite (gate_parameter_of_eq _ (trotterize_terms sorted).2
               (prepare_reference_state self ++ (trotterize_terms sorted).1))
      by done.
    destruct ((trotterize_terms sorted).2 !! w) as [i|] eqn:Hi; simpl.
    + apply HM in Hi. apply list_lookup_fmap_Some in Hi as ([w' coef] & -> & Hi). simpl.
      pose proof (Hpar i _ _ Hi) as Hpi. unfold vparam in Hpi |- *.
      rewrite Hvar, Hpi. simpl.
      rewrite (coef_lookup items w' coef); [done|done|].
      apply list_elem_of_lookup_2 in Hi. by rewrite <- (sorted_by_len_perm items).
    + rewrite (not_elem_of_list_to_map_1 (M:=gmap PauliWord)); [done|].
      intros Hw. rewrite <- (sorted_by_len_perm items) in Hw.
      apply list_elem_of_lookup_1 in Hw as [i Hw].
      apply HM in Hw. congruence.
  - exists (prepare_reference_state self ++ (trotterize_terms sorted).1).
    split; [done|]. split; [by rewrite Hvar, Hlen|].
    intros i w coef Hi. unfold vparam. rewrite Hvar. by apply (Hpar i w coef).
Qed.


Lemma fast_path_spec (items : list (PauliWord * Q)) (m : gmap PauliWord nat) c :
  NoDup items.*1 →
  (∀ w w' i, m !! w = Some i → m !! w' = Some i → w = w') →
  (∀ w i, m !! w = Some i → (i < length (variational_gates c))%nat) →
  dom m = key_set items →
  ∃ c', update_gates m c items = Ok c'
        ∧ same_skeleton c c'
        ∧ length (variational_gates c') = length (variational_gates c)
        ∧ ∀ w, m !! w ≫= vparam c'
               = rotation_angle <$> (list_to_map items : gmap PauliWord Q) !! w.
Proof.
  intros Hitems Hinj Hrange Hdom.
  assert (∀ w, w ∈ items.*1 ↔ is_Some (m !! w)) as Hkeys.
  { intros w. rewrite <- elem_of_dom, Hdom. unfold key_set.
    by rewrite elem_of_list_to_set. }
  destruct (update_gates_spec m items c Hitems)
    as (c' & Hupd & Hsk & Hlen & Hpar); [|done|].
  { intros w [i Hi]%Hkeys. exists i. split; [done|]. by eapply Hrange. }
  exists c'. split; [done|]. split; [done|]. split; [done|].
  intros w. destruct (m !! w) as [i|] eqn:Hi; simpl.
  - rewrite (Hpar w i Hi).
    assert (w ∈ items.*1) as Hw by (apply Hkeys; eauto).
    apply list_elem_of_fmap in Hw as ([w' coef] & -> & Hw). simpl.
    by rewrite (coef_lookup items w' coef).
  - rewrite (not_elem_of_list_to_map_1 (M:=gmap PauliWord)); [done|].
    intros [? ?]%Hkeys. congruence.
Qed.

Lemma update_var_params_unfold (self : UCCSD) (v : list Q) :
  Z.of_nat (length v) = n_var_params self →
  update_var_params self (Explicit v)
  = bind (get_qubit_operator (with_var_params self v)) (λ items,
      match pauli_to_angles_mapping self with
      | None => Raise AttributeError
      | Some m =>
          if bool_decide (dom m ≠ key_set items)
          then build_circuit (with_var_params self v) (Some (Explicit v))
          else
            match circuit self with
            | None => match items with [] => Ok (with_var_params self v)
                                     | _ :: _ => Raise AttributeError end
            | Some c =>
                bind (update_gates m c items)
                  (λ c', Ok (with_circuit (with_var_params self v) c'))
            end
      end).
Proof.
  intros Hlen%Z.eqb_eq. unfold UCCSD.update_var_params.
  by rewrite set_var_params_explicit, Hlen.
Qed.

Lemma Built_consistent (self : UCCSD) : Built self → consistent self.
Proof.
  induction 1 as [self arg self' Hb|self arg self' x _ IH Hs|self arg self' _ IH Hu].
  - apply build_circuit_body in Hb as (self0 & items & Hop & ->).
    apply built_from_spec. by eapply operator_is_dict.
  - apply set_var_params_inv in Hs as ->. exact IH.
  - destruct IH as (m & c & Hm & Hc & Hinj & Hrange & Hsize).
    unfold UCCSD.update_var_params in Hu.
    destruct (set_var_params self (Some arg)) as [[self1 x]|] eqn:Hs; [|done].
    apply set_var_params_inv in Hs as ->. cbn [bind fst] in Hu.
    change (UCCSD.get_qubit_operator str_upper fermion_terms zero iadd jordan_wigner
              bravyi_kitaev symmetry_conserving_bravyi_kitaev uccsd_singlet_generator
              uccsd_openshell_generator real_terms (with_var_params self x))
      with (get_qubit_operator (with_var_params self x)) in Hu.
    destruct (get_qubit_operator (with_var_params self x)) as [items|] eqn:Hop; [|done].
    cbn [bind] in Hu. simpl in Hu. rewrite Hm in Hu.
    pose proof (operator_is_dict _ _ Hop) as Hitems.
    case_bool_decide as Hdom.
    + apply build_circuit_body in Hu as (self0 & items0 & Hop0 & ->).
      apply built_from_spec. by eapply operator_is_dict.
    + rewrite Hc in Hu.
      destruct (fast_path_spec items m c Hitems Hinj Hrange Hdom)
        as (c' & Hupd & _ & Hlen & _).
      rewrite Hupd in Hu. simpl in Hu. injection Hu as <-.
      exists m, c'. split; [done|]. split; [done|]. split; [done|]. split.
      * intros w i Hw. rewrite Hlen. eauto.
      * by rewrite Hlen.
Qed.


End WithRotation.

End Facts.

(** *** The toy instances *)

Local Ltac nodup_words :=
  repeat (apply NoDup_cons; split;
          [rewrite ?elem_of_cons, ?elem_of_nil; intuition discriminate|]);
  apply NoDup_nil_2.

Lemma toy_terms_are_dict : terms_are_dict ToyUCCSD.real_terms.
Proof.
  intros x. unfold ToyUCCSD.real_terms.
  destruct x as [|a [|b x]]; simpl; [constructor|..].
  - rewrite filter_cons, filter_nil. case_decide; simpl; nodup_words.
  - rewrite !filter_cons, filter_nil. repeat case_decide; simpl; nodup_words.
Qed.

Lemma toy_one_rotation_per_word :
  one_rotation_per_word ToyUCCSD.pauliword_to_circuit Qplus Qmult.
Proof. intros w coef. eexists. split; reflexivity. Qed.

Lemma toy_reference_is_fixed : reference_is_fixed ToyUCCSD.get_reference_circuit.
Proof. intros self. reflexivity. Qed.

Lemma toy_built : ToyUCCSD.Built ToyUCCSD.built.
Proof.
  apply (Built_build _ _ _ _ _ _ _ _ _ _ _ _ _ _ _
           ToyUCCSD.unbuilt (Some (Explicit [1%Q; 2%Q]))).
  by rewrite build_circuit_explicit.
Qed.


Lemma explicit_vector_of_wrong_length_raises_witness :
  ToyUCCSD.set_var_params ToyUCCSD.built (Some (Explicit [1%Q])) = Raise ValueError
  ∧ ToyUCCSD.update_var_params ToyUCCSD.built (Explicit [1%Q]) = Raise ValueError
  ∧ ToyUCCSD.build_circuit ToyUCCSD.built (Some (Explicit [1%Q])) = Raise ValueError.
Proof.
  apply (proj1 (explicit_vector_of_wrong_length_raises
                  ToyUCCSD.random_var_params ToyMapping.upper ToyUCCSD.fermion_terms
                  ToyUCCSD.zero ToyUCCSD.iadd ToyUCCSD.jordan_wigner
                  ToyUCCSD.bravyi_kitaev ToyUCCSD.symmetry_conserving_bravyi_kitaev
                  ToyUCCSD.uccsd_singlet_generator ToyUCCSD.uccsd_openshell_generator
                  ToyUCCSD.real_terms ToyUCCSD.get_reference_circuit
                  ToyUCCSD.pauliword_to_circuit Qplus Qmult ToyUCCSD.built [1%Q])).
  discriminate.
Defined.


(** The fast path on the toy ansatz: both words stay, the gates keep their
    places and the two rotations get their new angles. *)
Example toy_update_in_place :
  ∃ upd,
    ToyUCCSD.update_var_params ToyUCCSD.built (Explicit [3%Q; (-4)%Q]) = Ok upd
    ∧ (name <$> default [] (circuit upd)) = ["X"; "H"; "RZ"; "H"; "RZ"]
    ∧ gate_parameter_of upd ToyUCCSD.word_zz = Some (2 * 3)%Q
    ∧ gate_parameter_of upd ToyUCCSD.word_x = Some (4 * np_pi + 2 * -4)%Q.
Proof. eexists. split; [vm_compute; reflexivity|]. repeat split; reflexivity. Qed.

(** The fallback: a zero coefficient removes a word, the key sets differ and
    the circuit is rebuilt with one rotation. *)
Example toy_update_rebuilds :
  ∃ upd,
    ToyUCCSD.update_var_params ToyUCCSD.built (Explicit [3%Q; 0%Q]) = Ok upd
    ∧ (name <$> default [] (circuit upd)) = ["X"; "H"; "RZ"]
    ∧ gate_parameter_of upd ToyUCCSD.word_zz = Some (2 * 3)%Q
    ∧ gate_parameter_of upd ToyUCCSD.word_x = None.
Proof. eexists. split; [vm_compute; reflexivity|]. repeat split; reflexivity. Qed.

(** An operator that fails: the mapping ["foo"] is refused by
    [fermion_to_qubit_mapping], and [build_circuit] hands the error on. *)
Example toy_unknown_mapping :
  ToyUCCSD.build_circuit ToyUCCSD.unbuilt_foo (Some (Explicit [1%Q; 2%Q]))
  = Raise ValueError.
Proof. reflexivity. Qed.


End UCCSDFacts.

(** ** Further theorems: the growth loop at its edges *)

Module LoopEdges.
Import ADAPT.

Section Loop.

Context {QubitOperator FermionOperator : Type}.
Variable get_expectation_value : QubitOperator → @Circuit QubitOperator → Q.
Variable minimize : Minimizer.

#[local] Abbreviation ADAPTSolver := (@ADAPTSolver QubitOperator FermionOperator).
#[local] Abbreviation Locals := (@Locals QubitOperator FermionOperator).
#[local] Abbreviation rank_current := (rank_current get_expectation_value).
#[local] Abbreviation adapt_cycle := (adapt_cycle get_expectation_value minimize).
#[local] Abbreviation adapt_loop := (adapt_loop get_expectation_value minimize).
#[local] Abbreviation simulate := (simulate get_expectation_value minimize).
#[local] Abbreviation vqe_simulate := (vqe_simulate get_expectation_value minimize).

(** X1.  With an empty operator pool and rounds left, [simulate] raises
    [ValueError] in its first round ([max()] of an empty sequence): an empty
    pool is not taken for convergence. *)
Theorem simulate_on_empty_pool_raises (self : ADAPTSolver) :
  pool_commutators self = [] →
  (iteration self < max_cycles self)%Z →
  simulate self = Some (Raise ValueError).
Proof.
  intros Hpool Hlt. unfold ADAPT.simulate.
  destruct (Z.to_nat (max_cycles self - iteration self)) as [|fuel] eqn:Hfuel; [lia|].
  simpl. rewrite (proj2 (Z.ltb_lt _ _) Hlt).
  unfold ADAPT.adapt_cycle, ADAPT.rank_current, rank_pool. simpl. rewrite Hpool. done.
Qed.

(** X2.  With no round left ([max_cycles] at most the iteration counter: a
    budget of zero, or a solver whose earlier run used the budget up)
    [simulate] returns an empty list of energies and leaves the solver as it
    is; the pool is not ranked, so even an empty pool raises nothing. *)
Theorem simulate_without_rounds_left (self : ADAPTSolver) :
  (max_cycles self ≤ iteration self)%Z →
  simulate self = Some (Ok ([], self)).
Proof.
  intros Hle. unfold ADAPT.simulate.
  destruct (Z.to_nat (max_cycles self - iteration self)); simpl;
    by rewrite (proj2 (Z.ltb_ge _ _) Hle).
Qed.

(** X3.  [rank_pool] answers -1 or a position of the pool it was given; so
    when the three pool lists have one length, as [build] makes the
    commutators from the operators, the two pool lookups of a growth round
    find their operator: [IndexError] cannot come from them. *)
Theorem pool_lookups_cannot_fail (st : Locals) (i : Z) :
  length (pool_operators (self_ st)) = length (pool_commutators (self_ st)) →
  length (fermionic_operators (self_ st)) = length (pool_commutators (self_ st)) →
  rank_current (self_ st) = Ok i →
  (-1 ≤ i < Z.of_nat (length (pool_commutators (self_ st))))%Z
  ∧ ((-1 < i)%Z →
     ∃ op fop, py_getitem (pool_operators (self_ st)) i = Ok op
               ∧ py_getitem (fermionic_operators (self_ st)) i = Ok fop).
Proof.
  intros Hops Hfops Hrank. unfold ADAPT.rank_current in Hrank.
  destruct (pool_commutators (self_ st)) as [|e pool] eqn:Hpool; [done|].
  destruct (RankFacts.rank_pool_cases (self_ st) (e :: pool)
              (circuit (ansatz (vqe_solver (self_ st)))) get_expectation_value
              (tol (self_ st))) as (j & g & (Hj & _) & Hr); [done|].
  rewrite Hr in Hrank. injection Hrank as <-.
  apply lookup_lt_Some in Hj. unfold magnitudes in Hj. rewrite length_map in Hj.
  split; [destruct (Qle_bool _ _); lia|].
  destruct (Qle_bool _ _); [|lia]. intros _. unfold py_getitem. rewrite Nat2Z.id.
  destruct (lookup_lt_is_Some_2 (pool_operators (self_ st)) j) as [op ->]; [lia|].
  destruct (lookup_lt_is_Some_2 (fermionic_operators (self_ st)) j) as [fop ->]; [lia|].
  eauto.
Qed.

(** The growth round, as the call of [vqe_solver.simulate()] it makes. *)
Lemma adapt_cycle_continue_inv (st st' : Locals) :
  adapt_cycle st = Ok (Continue, st') →
  ∃ (grown : ADAPTSolver) e x,
    vqe_simulate grown = Ok ((e, x), self_ st')
    ∧ params st' = x ∧ energies st' = energies st ++ [e]
    ∧ optimizer grown = optimizer (self_ st)
    ∧ converged grown = converged (self_ st)
    ∧ max_cycles grown = max_cycles (self_ st)
    ∧ iteration grown = (iteration (self_ st) + 1)%Z
    ∧ optimal_energy grown = optimal_energy (self_ st)
    ∧ optimal_var_params grown = optimal_var_params (self_ st)
    ∧ optimal_circuit grown = optimal_circuit (self_ st).
Proof.
  unfold ADAPT.adapt_cycle.
  destruct (ADAPT.rank_current _ _) as [i|]; [|done]. simpl.
  destruct (-1 <? i)%Z; [|done].
  destruct (py_getitem (pool_operators _) i) as [op|]; [|done].
  destruct (py_getitem (fermionic_operators _) i) as [fop|]; [|done]. simpl.
  match goal with
  | |- context [ADAPT.vqe_simulate _ _ ?s] =>
      destruct (ADAPT.vqe_simulate get_expectation_value minimize s)
        as [[[e x] s']|] eqn:Hv; [|done]; set (grown := s) in *
  end.
  simpl. intros [= <-]. exists grown, e, x. by repeat split.
Qed.

Lemma adapt_cycle_break_inv (st st' : Locals) :
  adapt_cycle st = Ok (Break, st') →
  st' = {| self_ := with_converged
                      (with_iteration (self_ st) (iteration (self_ st) + 1)) true;
           params := params st; energies := energies st;
           params_is_var_params := params_is_var_params st |}.
Proof.
  intros (i & _ & [(_ & _ & ->)|(? & _)])%LoopFacts.adapt_cycle_inv; done.
Qed.

(** What [LBFGSB_optimizer] writes into the solver. *)
Lemma vqe_simulate_default_inv (self self' : ADAPTSolver) e x :
  optimizer self = DefaultLBFGSB →
  vqe_simulate self = Ok ((e, x), self') →
  optimal_energy self' = Some e
  ∧ optimal_var_params self' = Some x
  ∧ if converged self || (iteration self =? max_cycles self)%Z
    then optimal_circuit self' = Some (circuit (ansatz (vqe_solver self')))
         ∧ angles (circuit (ansatz (vqe_solver self'))) = x
    else optimal_circuit self' = optimal_circuit self.
Proof.
  unfold ADAPT.vqe_simulate, LBFGSB_optimizer. simpl. intros ->.
  destruct (minimize _ _) as [r|]; [|done]. simpl.
  destruct (converged self || (iteration self =? max_cycles self)%Z); simpl.
  - unfold build_circuit.
    destruct (update_var_params _ (res_x r)) as [a|] eqn:Ha; [|done]. simpl.
    apply LoopFacts.update_var_params_inv in Ha as (_ & _ & _ & _ & Hx).
    intros [= <- <- <-]. simpl. done.
  - intros [= <- <- <-]. done.
Qed.

Lemma vqe_simulate_user_inv (self self' : ADAPTSolver) f e x :
  optimizer self = UserOptimizer f →
  vqe_simulate self = Ok ((e, x), self') →
  optimal_energy self' = optimal_energy self
  ∧ optimal_var_params self' = optimal_var_params self
  ∧ optimal_circuit self' = optimal_circuit self.
Proof.
  unfold ADAPT.vqe_simulate. simpl. intros ->.
  destruct (f _ _) as [r|]; [|done]. simpl. by intros [= <- <- <-].
Qed.

(** X4.  With a plugged optimizer [simulate] never writes [optimal_energy],
    [optimal_var_params] or [optimal_circuit]: only [LBFGSB_optimizer] does,
    so after the run they are what they were ([None] for a new solver). *)
Theorem plugged_optimizer_leaves_optimum_unset
    (self self' : ADAPTSolver) (f : Minimizer) (energies : list Q) :
  optimizer self = UserOptimizer f →
  simulate self = Some (Ok (energies, self')) →
  optimal_energy self' = optimal_energy self
  ∧ optimal_var_params self' = optimal_var_params self
  ∧ optimal_circuit self' = optimal_circuit self.
Proof.
  intros Hopt. unfold ADAPT.simulate.
  destruct (ADAPT.adapt_loop _ _ _ _) as [[st'|]|] eqn:Hloop; [|done..].
  intros [= <- <-].
  set (Inv := λ s : Locals,
    optimizer (self_ s) = UserOptimizer f
    ∧ optimal_energy (self_ s) = optimal_energy self
    ∧ optimal_var_params (self_ s) = optimal_var_params self
    ∧ optimal_circuit (self_ s) = optimal_circuit self).
  refine (LoopFacts.adapt_loop_rule get_expectation_value minimize Inv
            (λ s, optimal_energy (self_ s) = optimal_energy self
                  ∧ optimal_var_params (self_ s) = optimal_var_params self
                  ∧ optimal_circuit (self_ s) = optimal_circuit self)
            _ _ _ _ _ _ _ Hloop).
  - intros s s' (Ho & He & Hx & Hc) _ Hcyc.
    pose proof Hcyc as (i & _ & [(? & _)|(_ & _ & Hg)])%LoopFacts.adapt_cycle_inv;
      [done|].
    destruct Hg as (op & fop & v0 & r0 & _ & _ & _ & _ & _ & _ & _ & _ & Hg).
    destruct Hg as (_ & _ & _ & Ho' & _).
    apply adapt_cycle_continue_inv in Hcyc
      as (grown & e & x & Hv & _ & _ & Hgo & _ & _ & _ & Hge & Hgx & Hgc).
    apply (vqe_simulate_user_inv _ _ f) in Hv as (He' & Hx' & Hc'); [|by rewrite Hgo].
    unfold Inv. repeat split; congruence.
  - intros s s' (Ho & He & Hx & Hc) _ ->%adapt_cycle_break_inv. done.
  - intros s (_ & ? & ? & ?) _. done.
  - done.
Qed.

(** X5.  With the default optimizer, a run of a solver that was not converged
    records the last energy as [optimal_energy].  [optimal_circuit] is
    written only by the round that uses up [max_cycles]: a run that ends by
    convergence leaves it as it was ([None] for a new solver), a run that
    ends by exhaustion sets it to the circuit of the ansatz, loaded with
    [optimal_var_params]. *)
Theorem default_optimizer_sets_circuit_only_at_exhaustion
    (self self' : ADAPTSolver) (energies : list Q) :
  optimizer self = DefaultLBFGSB →
  converged self = false →
  simulate self = Some (Ok (energies, self')) →
  energies ≠ [] →
  optimal_energy self' = last energies
  ∧ (converged self' = true → optimal_circuit self' = optimal_circuit self)
  ∧ (converged self' = false →
     optimal_circuit self' = Some (circuit (ansatz (vqe_solver self')))
     ∧ optimal_var_params self' = Some (angles (circuit (ansatz (vqe_solver self'))))).
Proof.
  intros Hopt Hconv. unfold ADAPT.simulate.
  destruct (ADAPT.adapt_loop _ _ _ _) as [[st'|]|] eqn:Hloop; [|done..].
  intros [= <- <-].
  set (Recorded := λ s : Locals,
    optimal_energy (self_ s) = last (ADAPT.energies s)
    ∧ if (iteration (self_ s) =? max_cycles (self_ s))%Z
      then optimal_circuit (self_ s) = Some (circuit (ansatz (vqe_solver (self_ s))))
           ∧ optimal_var_params (self_ s)
             = Some (angles (circuit (ansatz (vqe_solver (self_ s)))))
      else optimal_circuit (self_ s) = optimal_circuit self).
  set (Inv := λ s : Locals,
    optimizer (self_ s) = DefaultLBFGSB
    ∧ converged (self_ s) = false
    ∧ (ADAPT.energies s = [] ∧ optimal_circuit (self_ s) = optimal_circuit self
       ∨ ADAPT.energies s ≠ []
         ∧ (iteration (self_ s) ≤ max_cycles (self_ s))%Z ∧ Recorded s)).
  refine (LoopFacts.adapt_loop_rule get_expectation_value minimize Inv
            (λ s, ADAPT.energies s ≠ [] →
                  optimal_energy (self_ s) = last (ADAPT.energies s)
                  ∧ (converged (self_ s) = true →
                     optimal_circuit (self_ s) = optimal_circuit self)
                  ∧ (converged (self_ s) = false →
                     optimal_circuit (self_ s)
                     = Some (circuit (ansatz (vqe_solver (self_ s))))
                     ∧ optimal_var_params (self_ s)
                       = Some (angles (circuit (ansatz (vqe_solver (self_ s)))))))
            _ _ _ _ _ _ _ Hloop).
  - intros s s' (Ho & Hc & Hcases) Hguard Hcyc.
    pose proof Hcyc as (i & _ & [(? & _)|(_ & _ & Hg)])%LoopFacts.adapt_cycle_inv;
      [done|].
    destruct Hg as (op & fop & v0 & r0 & _ & _ & _ & _ & _ & _ & _ & _ & Hg).
    destruct Hg as (_ & Hm' & _ & Ho' & Hc' & Hi' & _).
    apply adapt_cycle_continue_inv in Hcyc
      as (grown & e & x & Hv & _ & He & Hgo & Hgc & Hgm & Hgi & _ & _ & Hgcirc).
    apply vqe_simulate_default_inv in Hv as (Hoe & Hox & Hcirc); [|by rewrite Hgo].
    rewrite Hgc, Hc, Hgi, Hgm in Hcirc. simpl in Hcirc.
    split; [congruence|]. split; [congruence|]. right.
    split; [rewrite He; by destruct (ADAPT.energies s)|].
    split; [lia|]. unfold Recorded. rewrite He, last_snoc, Hi', Hm'.
    split; [done|].
    destruct (iteration (self_ s) + 1 =? max_cycles (self_ s))%Z.
    + destruct Hcirc as [-> ->]. done.
    + rewrite Hcirc, Hgcirc.
      destruct Hcases as [[_ ?]|(_ & _ & _ & Hrec)]; [done|].
      by rewrite (proj2 (Z.eqb_neq _ _)) in Hrec by lia.
  - intros s s' (Ho & Hc & Hcases) Hguard ->%adapt_cycle_break_inv. simpl.
    intros Hne. destruct Hcases as [[? _]|(_ & _ & Hoe & Hrec)]; [done|].
    rewrite (proj2 (Z.eqb_neq _ _)) in Hrec by lia.
    split; [done|]. split; [done | discriminate].
  - intros s (Ho & Hc & Hcases) Hguard Hne.
    destruct Hcases as [[? _]|(_ & Hle & Hoe & Hrec)]; [done|].
    rewrite (proj2 (Z.eqb_eq _ _)) in Hrec by lia.
    split; [done|]. split; [congruence | done].
  - unfold Inv. simpl. split; [done|]. split; [done|]. by left.
Qed.

End Loop.

Lemma simulate_on_empty_pool_raises_witness :
  simulate Toy.backend Toy.better_of_two (ToyEmptyPool.solver 15)
  = Some (Raise ValueError).
Proof.
  apply (simulate_on_empty_pool_raises Toy.backend Toy.better_of_two
           (ToyEmptyPool.solver 15)); [reflexivity | reflexivity].
Defined.

Lemma simulate_without_rounds_left_witness :
  simulate Toy.backend Toy.better_of_two (ToyEmptyPool.solver 0)
  = Some (Ok ([], ToyEmptyPool.solver 0)).
Proof.
  apply (simulate_without_rounds_left Toy.backend Toy.better_of_two
           (ToyEmptyPool.solver 0)).
  simpl. lia.
Defined.

Lemma pool_lookups_cannot_fail_witness :
  (-1 ≤ 0 < 2)%Z
  ∧ ((-1 < 0)%Z →
     ∃ op fop, py_getitem [11; 12]%nat 0 = Ok op ∧ py_getitem [21; 22]%nat 0 = Ok fop).
Proof.
  apply (pool_lookups_cannot_fail Toy.backend
           (simulate_entry (Toy.solver DefaultLBFGSB (1 # 5) 15)) 0);
    reflexivity.
Defined.

Lemma plugged_optimizer_leaves_optimum_unset_witness :
  ∃ energies self',
    simulate Toy.backend Toy.better_of_two
      (Toy.solver (UserOptimizer Toy.better_of_two) (1 # 5) 2)
    = Some (Ok (energies, self'))
    ∧ length energies = 2%nat
    ∧ optimal_energy self' = None
    ∧ optimal_var_params self' = None
    ∧ optimal_circuit self' = None.
Proof.
  eexists _, _. split; [vm_compute; reflexivity|]. split; [reflexivity|].
  eapply (plugged_optimizer_leaves_optimum_unset Toy.backend Toy.better_of_two
            (Toy.solver (UserOptimizer Toy.better_of_two) (1 # 5) 2));
    [reflexivity | vm_compute; reflexivity].
Defined.

Lemma default_optimizer_sets_circuit_only_at_exhaustion_witness :
  ∃ energies self',
    simulate Toy.backend Toy.better_of_two (Toy.solver DefaultLBFGSB (1 # 5) 2)
    = Some (Ok (energies, self'))
    ∧ optimal_energy self' = last energies
    ∧ (converged self' = true → optimal_circuit self' = None)
    ∧ (converged self' = false →
       optimal_circuit self' = Some (circuit (ansatz (vqe_solver self')))
       ∧ optimal_var_params self'
         = Some (angles (circuit (ansatz (vqe_solver self'))))).
Proof.
  eexists _, _. split; [vm_compute; reflexivity|].
  eapply (default_optimizer_sets_circuit_only_at_exhaustion
            Toy.backend Toy.better_of_two (Toy.solver DefaultLBFGSB (1 # 5) 2));
    [reflexivity | reflexivity | vm_compute; reflexivity | discriminate].
Defined.

(** A run that converges: the gradients fall below the tolerance 3/5 from
    the start, and no circuit is recorded. *)
Example converged_run_records_no_circuit :
  ∃ self',
    simulate Toy.backend Toy.better_of_two (Toy.solver DefaultLBFGSB (3 # 5) 2)
    = Some (Ok ([], self'))
    ∧ converged self' = true ∧ optimal_circuit self' = None.
Proof. eexists. split; [vm_compute; reflexivity | split; reflexivity]. Qed.

End LoopEdges.

(** ** Further theorems: the UCCSD ansatz *)

Module UCCSDMore.
Import UCCSD UCCSDInit.

Section Facts.

Variable uccsd_openshell_paramsize : Z → Z → Z → result (Z * Z).
Variable random_var_params : Z → list Q.
Context {Coef FermionOperator QubitOperator : Type}.
Variable str_upper : string → string.
Variable fermion_terms : FermionOperator → list (MappingTransform.Term * Coef).
Variable zero : FermionOperator.
Variable iadd : FermionOperator → list (Z * Z) → Coef → FermionOperator.
Variable jordan_wigner : FermionOperator → result QubitOperator.
Variable bravyi_kitaev : FermionOperator → Z → result QubitOperator.
Variable symmetry_conserving_bravyi_kitaev :
  FermionOperator → Z → Z → bool → result QubitOperator.
Variable uccsd_singlet_generator : list Q → Z → Z → result FermionOperator.
Variable uccsd_openshell_generator : list Q → Z → Z → Z → result FermionOperator.
Variable real_terms : QubitOperator → list (PauliWord * Q).
Variable get_reference_circuit : Z → Z → string → bool → Z → list Gate.
Variable pauliword_to_circuit : PauliWord → Q → list Gate.
Variable float_add float_mul : Q → Q → Q.

#[local] Abbreviation __init__ := (__init__ uccsd_openshell_paramsize).
#[local] Abbreviation set_var_params := (set_var_params random_var_params).
#[local] Abbreviation get_qubit_operator :=
  (get_qubit_operator str_upper fermion_terms zero iadd jordan_wigner bravyi_kitaev
     symmetry_conserving_bravyi_kitaev uccsd_singlet_generator
     uccsd_openshell_generator real_terms).
#[local] Abbreviation rotation_angle := (rotation_angle float_add float_mul).
#[local] Abbreviation build_circuit :=
  (build_circuit random_var_params str_upper fermion_terms zero iadd jordan_wigner
     bravyi_kitaev symmetry_conserving_bravyi_kitaev uccsd_singlet_generator
     uccsd_openshell_generator real_terms get_reference_circuit pauliword_to_circuit).
#[local] Abbreviation update_var_params :=
  (update_var_params random_var_params str_upper fermion_terms zero iadd jordan_wigner
     bravyi_kitaev symmetry_conserving_bravyi_kitaev uccsd_singlet_generator
     uccsd_openshell_generator real_terms get_reference_circuit pauliword_to_circuit
     float_add float_mul).
#[local] Abbreviation Built :=
  (Built random_var_params str_upper fermion_terms zero iadd jordan_wigner
     bravyi_kitaev symmetry_conserving_bravyi_kitaev uccsd_singlet_generator
     uccsd_openshell_generator real_terms get_reference_circuit pauliword_to_circuit
     float_add float_mul).
#[local] Abbreviation built_from :=
  (built_from get_reference_circuit pauliword_to_circuit).

Lemma round_half_even_le (a b : Z) :
  (round_half_even a b ≤ a `div` b + 1)%Z.
Proof. unfold round_half_even. repeat case_match; lia. Qed.

(** The float quotient is not above the magnitude of [n]: the division
    overflows for integers of at least [2^1024] only. *)
Lemma ceil_half_raises (n : Z) (e : exn) :
  ceil_half n = Raise e → e = OverflowError ∧ (2 ^ 1024 ≤ Z.abs n)%Z.
Proof.
  unfold ceil_half.
  destruct (Z.abs n <=? 2 ^ 53)%Z eqn:Hsmall; [done|].
  apply Z.leb_gt in Hsmall.
  destruct (2 ^ 1024 <=? _)%Z eqn:Hbig; [|done].
  intros [= <-]. split; [done|]. apply Z.leb_le in Hbig.
  etrans; [exact Hbig|]. clear Hbig.
  generalize dependent (Z.abs n). intros a Ha.
  assert (0 < 2 ^ 53)%Z as Hp by (by apply Z.pow_pos_nonneg).
  assert (0 < a)%Z as Hpos by lia.
  destruct (Z.log2_spec a Hpos) as [Hlo Hhi].
  assert (53 ≤ Z.log2 a)%Z as Hlog by (apply Z.log2_le_pow2; lia).
  replace (Z.log2 a + 1 - 53)%Z with (Z.log2 a - 53 + 1)%Z by lia.
  replace (Z.log2 a + 1 - 54)%Z with (Z.log2 a - 53)%Z by lia.
  replace (Z.succ (Z.log2 a)) with (53 + (Z.log2 a - 53 + 1))%Z in Hhi by lia.
  replace (Z.log2 a) with (53 + (Z.log2 a - 53))%Z in Hlo at 1 by lia.
  rewrite Z.pow_add_r in Hlo, Hhi by lia.
  assert (0 < 2 ^ (Z.log2 a - 53))%Z as Hh by (apply Z.pow_pos_nonneg; lia).
  rewrite (Z.pow_add_r 2 (Z.log2 a - 53) 1), Z.pow_1_r in * by lia.
  generalize dependent (2 ^ (Z.log2 a - 53))%Z. intros h Hlo Hhi Hh.
  generalize dependent (2 ^ 53)%Z. intros p Ha Hp Hlo Hhi.
  pose proof (round_half_even_le a (h * 2)) as Hround.
  assert (a `div` (h * 2) < p)%Z by (apply Z.div_lt_upper_bound; lia).
  nia.
Qed.

(** X6.  [UCCSD.__init__] raises [ValueError] for an odd number of
    spin-orbitals, and an object it returns has an even number of them, no
    parameters, no circuit and no attribute [pauli_to_angles_mapping] yet.
    For spin 0 it declares [s * (s + 3) // 2] parameters, where [s] is the
    number of occupied times the number of virtual orbitals and the number
    of occupied ones is what [int(np.ceil(n_electrons / 2))] gives through
    the float quotient: [(n_electrons + 1) // 2] up to [2^53] electrons in
    magnitude, the count then being not negative when the electrons fit
    into the spin-orbitals; the constructor fails there with
    [OverflowError] only, and only from [2^1024] electrons on.  For any
    other spin the two counts are those of [uccsd_openshell_paramsize]. *)
Theorem init_declares_parameter_count
    (n_spinorbitals n_electrons spin : Z) (mapping : string) (up_then_down : bool) :
  ((n_spinorbitals `mod` 2 ≠ 0)%Z →
   __init__ n_spinorbitals n_electrons spin mapping up_then_down = Raise ValueError)
  ∧ (∀ self,
       __init__ n_spinorbitals n_electrons spin mapping up_then_down = Ok self →
       (n_spinorbitals `mod` 2 = 0)%Z
       ∧ var_params self = None ∧ circuit self = None
       ∧ pauli_to_angles_mapping self = None)
  ∧ ((n_spinorbitals `mod` 2 = 0)%Z → spin = 0%Z →
     (∀ e, __init__ n_spinorbitals n_electrons spin mapping up_then_down = Raise e →
           e = OverflowError ∧ (2 ^ 1024 ≤ Z.abs n_electrons)%Z)
     ∧ (∀ self,
          __init__ n_spinorbitals n_electrons spin mapping up_then_down = Ok self →
          ∃ n_occupied,
            ceil_half n_electrons = Ok n_occupied
            ∧ let s := (n_occupied * (n_spinorbitals `div` 2 - n_occupied))%Z in
              n_var_params self = ((s * (s + 3)) `div` 2)%Z)
     ∧ ((Z.abs n_electrons ≤ 2 ^ 53)%Z →
        ∃ self,
          __init__ n_spinorbitals n_electrons spin mapping up_then_down = Ok self
          ∧ let s := ((n_electrons + 1) `div` 2
                      * (n_spinorbitals `div` 2 - (n_electrons + 1) `div` 2))%Z in
            n_var_params self = ((s * (s + 3)) `div` 2)%Z
            ∧ ((0 ≤ n_electrons ≤ n_spinorbitals)%Z → (0 ≤ n_var_params self)%Z)))
  ∧ ((n_spinorbitals `mod` 2 = 0)%Z → spin ≠ 0%Z →
     let self := blank n_spinorbitals n_electrons spin mapping up_then_down 0 in
     __init__ n_spinorbitals n_electrons spin mapping up_then_down
     = bind (uccsd_openshell_paramsize n_spinorbitals (n_alpha self) (n_beta self))
         (λ '(n_singles, n_doubles),
           Ok (blank n_spinorbitals n_electrons spin mapping up_then_down
                 (n_singles + n_doubles)))).
Proof.
  assert (∀ s : Z, (s + (s * (s + 1)) `div` 2 = (s * (s + 3)) `div` 2)%Z) as Hcount.
  { intros s. replace (s * (s + 3))%Z with (s * (s + 1) + s * 2)%Z by lia.
    rewrite Z.div_add by lia. lia. }
  unfold UCCSDInit.__init__. split; [|split; [|split]].
  - intros Hodd%Z.eqb_neq. by rewrite Hodd.
  - intros self. destruct (n_spinorbitals `mod` 2 =? 0)%Z eqn:Heven; [|done].
    apply Z.eqb_eq in Heven. cbn [negb].
    match goal with |- bind ?X _ = _ → _ => destruct X as [[n1 n2]|] end; [|done].
    cbn [bind]. by intros [= <-].
  - intros Heven ->. rewrite (proj2 (Z.eqb_eq _ _) Heven).
    change (0 =? 0)%Z with true. cbn [negb]. split; [|split].
    + intros e. destruct (ceil_half n_electrons) as [occ|e'] eqn:Hocc; [done|].
      cbn [bind]. intros [= <-]. by apply ceil_half_raises.
    + intros self. destruct (ceil_half n_electrons) as [occ|e'] eqn:Hocc; [|done].
      cbn [bind]. intros [= <-]. exists occ. split; [done|]. cbn [n_var_params blank]. apply Hcount.
    + intros Hsmall. unfold ceil_half. rewrite (proj2 (Z.leb_le _ _) Hsmall).
      cbn [bind]. eexists. split; [done|]. cbn [n_var_params blank].
      split; [apply Hcount|]. rewrite Hcount. intros [He Hn].
      assert (0 ≤ (n_electrons + 1) `div` 2)%Z by (apply Z.div_pos; lia).
      assert ((n_electrons + 1) `div` 2 ≤ n_spinorbitals `div` 2)%Z.
      { pose proof (Z.div_mod n_spinorbitals 2 ltac:(lia)).
        pose proof (Z.div_mod (n_electrons + 1) 2 ltac:(lia)).
        pose proof (Z.mod_pos_bound (n_electrons + 1) 2 ltac:(lia)).
        lia. }
      set (s := ((n_electrons + 1) `div` 2
                 * (n_spinorbitals `div` 2 - (n_electrons + 1) `div` 2))%Z).
      assert (0 ≤ s)%Z by (apply Z.mul_nonneg_nonneg; lia).
      apply Z.div_pos; [|lia]. apply Z.mul_nonneg_nonneg; lia.
  - intros Heven Hspin. rewrite (proj2 (Z.eqb_eq _ _) Heven).
    by rewrite (proj2 (Z.eqb_neq _ _) Hspin).
Qed.

(** X7.  [set_var_params] accepts the keywords ["ones"] and ["random"] only:
    any other keyword, ["MP2"] of the unreachable branch included, raises
    [ValueError].  Without an argument it takes ["ones"]: it stores and
    returns as many ones as parameters are declared, and raises [ValueError]
    when that number is negative. *)
Theorem set_var_params_keywords (self : UCCSD) :
  (∀ s, s ≠ "ones" → s ≠ "random" →
        set_var_params self (Some (Keyword s)) = Raise ValueError)
  ∧ set_var_params self (Some (Keyword "MP2")) = Raise ValueError
  ∧ set_var_params self None = set_var_params self (Some (Keyword "ones"))
  ∧ ((0 ≤ n_var_params self)%Z →
     let ones := replicate (Z.to_nat (n_var_params self)) 1%Q in
     set_var_params self None = Ok (with_var_params self ones, ones)
     ∧ Z.of_nat (length ones) = n_var_params self)
  ∧ ((n_var_params self < 0)%Z → set_var_params self None = Raise ValueError).
Proof.
  assert (∀ s, s ≠ "ones" → s ≠ "random" →
               set_var_params self (Some (Keyword s)) = Raise ValueError) as Hkw.
  { intros s H1 H2. unfold UCCSD.set_var_params, supported_initial_var_params.
    rewrite bool_decide_eq_false_2; [done|].
    destruct (spin self =? 0)%Z; rewrite !elem_of_cons, elem_of_nil;
      by intros [?|[?|?]]. }
  split; [exact Hkw|]. split; [by apply Hkw|].
  assert (set_var_params self None = set_var_params self (Some (Keyword "ones"))) as Hnone.
  { unfold UCCSD.set_var_params, var_params_default. by destruct (spin self =? 0)%Z. }
  split; [exact Hnone|]. rewrite Hnone.
  unfold UCCSD.set_var_params, supported_initial_var_params, np_ones.
  rewrite bool_decide_eq_true_2
    by (destruct (spin self =? 0)%Z; rewrite !elem_of_cons; auto).
  simpl. split.
  - intros Hn. rewrite (proj2 (Z.ltb_ge _ _) Hn). simpl.
    split; [done|]. rewrite length_replicate. lia.
  - intros Hn. by rewrite (proj2 (Z.ltb_lt _ _) Hn).
Qed.

(** X8.  On an object whose circuit was never built, [update_var_params]
    with a vector of the declared length does not return.  It computes the
    qubit operator first and raises what that raises: [ValueError] for a
    mapping that [fermion_to_qubit_mapping] does not know, when the generator
    gave an operator.  When the operator can be computed it raises
    [AttributeError]: the mapping it then reads is created by [build_circuit]
    only. *)
Theorem update_before_build_raises (self : UCCSD) (v : list Q) :
  pauli_to_angles_mapping self = None →
  Z.of_nat (length v) = n_var_params self →
  (∀ items, get_qubit_operator (with_var_params self v) = Ok items →
     update_var_params self (Explicit v) = Raise AttributeError)
  ∧ (∀ e, get_qubit_operator (with_var_params self v) = Raise e →
     update_var_params self (Explicit v) = Raise e)
  ∧ (∀ upd, update_var_params self (Explicit v) ≠ Ok upd)
  ∧ (∀ fermion_op,
       (if (spin self =? 0)%Z
        then uccsd_singlet_generator v (n_spinorbitals self) (n_electrons self)
        else uccsd_openshell_generator v (n_spinorbitals self) (n_alpha self)
               (n_beta self)) = Ok fermion_op →
       str_upper (mapping self) ∉ MappingTransform.available_mappings →
       update_var_params self (Explicit v) = Raise ValueError).
Proof.
  intros Hm Hlen. rewrite UCCSDFacts.update_var_params_unfold by done. rewrite Hm.
  split; [by intros items ->|]. split; [by intros e ->|].
  split; [by destruct (get_qubit_operator (with_var_params self v))|].
  intros fermion_op Hgen Hunknown.
  unfold UCCSD.get_qubit_operator, _get_singlet_qubit_operator,
    _get_openshell_qubit_operator, n_alpha, n_beta in *.
  cbn [spin n_spinorbitals n_electrons mapping up_then_down var_params
       with_var_params from_option id].
  assert (∀ f, fermion_to_qubit_mapping str_upper fermion_terms zero iadd jordan_wigner
                 bravyi_kitaev symmetry_conserving_bravyi_kitaev f (mapping self)
                 (Some (n_spinorbitals self)) (Some (n_electrons self))
                 (up_then_down self) = Raise ValueError) as Hmap.
  { intros f. unfold fermion_to_qubit_mapping, MappingTransform.fermion_to_qubit_mapping.
    by rewrite bool_decide_eq_false_2. }
  destruct (spin self =? 0)%Z; rewrite Hgen; cbn [bind]; by rewrite Hmap.
Qed.

Lemma build_circuit_of_set (self : UCCSD) x items :
  var_params self = Some x → get_qubit_operator self = Ok items →
  build_circuit self None = Ok (built_from self items).
Proof.
  intros Hx Hop. unfold UCCSD.build_circuit. rewrite Hx. cbn [bind].
  rewrite Hop. cbn [bind]. unfold UCCSD.built_from.
  destruct (UCCSD.trotterize_terms _ _) as [G M]. simpl.
  by destruct (UCCSD.prepare_reference_state _ self).
Qed.

Lemma build_circuit_origin (self built : UCCSD) arg :
  build_circuit self arg = Ok built →
  ∃ self0 x items,
    built = built_from self0 items ∧ var_params self0 = Some x
    ∧ get_qubit_operator self0 = Ok items
    ∧ (self0 = self ∨ self0 = with_var_params self x).
Proof.
  assert (∀ x, build_circuit (with_var_params self x) None = Ok built →
               ∃ self0 x items,
                 built = built_from self0 items ∧ var_params self0 = Some x
                 ∧ get_qubit_operator self0 = Ok items
                 ∧ (self0 = self ∨ self0 = with_var_params self x)) as Hset.
  { intros x H.
    destruct (get_qubit_operator (with_var_params self x)) as [items|] eqn:Hop.
    - rewrite (build_circuit_of_set (with_var_params self x) x items eq_refl Hop) in H. injection H as <-.
      exists (with_var_params self x), x, items. do 3 (split; [done|]). by right.
    - unfold UCCSD.build_circuit in H. cbn [var_params with_var_params bind] in H.
      by rewrite Hop in H. }
  destruct arg as [a|].
  - unfold UCCSD.build_circuit.
    destruct (set_var_params self (Some a)) as [[s1 x]|] eqn:Hs; [|done].
    apply UCCSDFacts.set_var_params_inv in Hs as ->. cbn [bind fst].
    intros H. apply (Hset x). unfold UCCSD.build_circuit.
    by cbn [var_params with_var_params bind].
  - destruct (var_params self) as [x|] eqn:Hv.
    + destruct (get_qubit_operator self) as [items|] eqn:Hop.
      * rewrite (build_circuit_of_set self x items Hv Hop). intros [= <-].
        exists self, x, items. do 3 (split; [done|]). by left.
      * unfold UCCSD.build_circuit. rewrite Hv. cbn [bind]. by rewrite Hop.
    + unfold UCCSD.build_circuit. rewrite Hv.
      destruct (set_var_params self None) as [[s1 x]|] eqn:Hs; [|done].
      apply UCCSDFacts.set_var_params_inv in Hs as ->. cbn [bind fst].
      intros H. apply (Hset x). unfold UCCSD.build_circuit.
      by cbn [var_params with_var_params bind].
Qed.

(** X9.  [build_circuit()] without argument on a built object rebuilds the
    same object: circuit, mapping and parameters are those it had. *)
Theorem build_circuit_again_changes_nothing (self built : UCCSD) arg :
  build_circuit self arg = Ok built →
  build_circuit built None = Ok built.
Proof.
  intros (self0 & x & items & -> & Hx & Hop & _)%build_circuit_origin.
  by rewrite (build_circuit_of_set (built_from self0 items) x items).
Qed.

Lemma insert_by_len_sorted x l :
  StronglySorted (λ a b : PauliWord * Q, length a.1 ≤ length b.1) l →
  StronglySorted (λ a b : PauliWord * Q, length a.1 ≤ length b.1) (insert_by_len x l).
Proof.
  induction 1 as [|y l Hl IH Hy]; simpl; [by repeat constructor|].
  destruct (length y.1 <? length x.1)%nat eqn:Hlt.
  - apply Nat.ltb_lt in Hlt. constructor; [done|].
    rewrite UCCSDFacts.insert_by_len_perm. constructor; [lia | done].
  - apply Nat.ltb_ge in Hlt. constructor; [by constructor|].
    constructor; [done|]. eapply Forall_impl; [exact Hy|]. simpl. lia.
Qed.

Lemma sorted_by_len_sorted items :
  StronglySorted (λ a b : PauliWord * Q, length a.1 ≤ length b.1) (sorted_by_len items).
Proof.
  induction items as [|x items IH]; simpl; [constructor|].
  by apply insert_by_len_sorted.
Qed.

Lemma insert_by_len_stable (L : nat) x l :
  filter (λ a : PauliWord * Q, length a.1 = L) (insert_by_len x l)
  = filter (λ a : PauliWord * Q, length a.1 = L) (x :: l).
Proof.
  induction l as [|y l IH]; simpl; [done|].
  destruct (length y.1 <? length x.1)%nat eqn:Hlt; [|done].
  apply Nat.ltb_lt in Hlt.
  rewrite (filter_cons _ y), IH, !filter_cons.
  repeat case_decide; try done; lia.
Qed.

Lemma sorted_by_len_stable (L : nat) items :
  filter (λ a : PauliWord * Q, length a.1 = L) (sorted_by_len items)
  = filter (λ a : PauliWord * Q, length a.1 = L) items.
Proof.
  induction items as [|x items IH]; simpl; [done|].
  by rewrite insert_by_len_stable, !filter_cons, IH.
Qed.

Hypothesis Hdict : terms_are_dict real_terms.

(** X10.  [build_circuit] lays the Pauli words of the qubit operator out by
    length: the words are those of the operator, shorter ones first, words of
    one length in the order of the dictionary, and the mapping sends the
    word at each place of that sequence to its place. *)
Theorem build_circuit_orders_words_by_length (self built : UCCSD) arg :
  build_circuit self arg = Ok built →
  ∃ (items pauli_words : list (PauliWord * Q)) (m : gmap PauliWord nat),
    get_qubit_operator built = Ok items
    ∧ pauli_to_angles_mapping built = Some m
    ∧ pauli_words ≡ₚ items
    ∧ StronglySorted (λ a b, length a.1 ≤ length b.1) pauli_words
    ∧ (∀ L, filter (λ a, length a.1 = L) pauli_words
            = filter (λ a, length a.1 = L) items)
    ∧ (∀ w i, m !! w = Some i ↔ pauli_words.*1 !! i = Some w)
    ∧ size m = length items.
Proof.
  intros (self0 & x & items & -> & Hx & Hop & _)%build_circuit_origin.
  exists items, (sorted_by_len items),
         (UCCSD.trotterize_terms pauliword_to_circuit (sorted_by_len items)).2.
  assert (NoDup (sorted_by_len items).*1) as Hnd.
  { rewrite UCCSDFacts.sorted_by_len_perm.
    eapply UCCSDFacts.operator_is_dict; [exact Hdict|exact Hop]. }
  destruct (UCCSDFacts.trotterize_terms_spec pauliword_to_circuit _ Hnd) as [_ HM].
  split; [exact Hop|].
  split; [done|]. split; [apply UCCSDFacts.sorted_by_len_perm|].
  split; [apply sorted_by_len_sorted|]. split; [intros L; apply sorted_by_len_stable|].
  split; [exact HM|].
  set (m := (UCCSD.trotterize_terms _ _).2) in *.
  set (ws := (sorted_by_len items).*1) in *.
  assert (m = list_to_map (zip ws (seq 0 (length ws)))) as ->.
  { apply map_eq. intros w. apply option_eq. intros i. rewrite HM.
    rewrite <- elem_of_list_to_map by (by rewrite fst_zip; [|rewrite length_seq]).
    rewrite elem_of_lookup_zip_with. split.
    - intros Hi. exists i, w, i. split; [done|]. split; [done|].
      apply lookup_seq. split; [done|]. by eapply lookup_lt_Some.
    - intros (j & w' & i' & [= <- <-] & Hw & [-> _]%lookup_seq). done. }
  rewrite map_size_list_to_map by (by rewrite fst_zip; [|rewrite length_seq]).
  rewrite length_zip_with, length_seq. unfold ws.
  rewrite length_fmap, (UCCSDFacts.sorted_by_len_perm items). lia.
Qed.

Hypothesis Hrot : one_rotation_per_word pauliword_to_circuit float_add float_mul.
Hypothesis Href : reference_is_fixed get_reference_circuit.

(** After [update_var_params] each word carries the angle of its
    coefficient in the operator of the new vector. *)
Lemma update_gate_parameters (self upd : UCCSD) (v : list Q) :
  Built self →
  update_var_params self (Explicit v) = Ok upd →
  Z.of_nat (length v) = n_var_params self
  ∧ ∃ items,
      get_qubit_operator (with_var_params self v) = Ok items
      ∧ ∀ w, gate_parameter_of upd w
             = rotation_angle <$> (list_to_map items : gmap PauliWord Q) !! w.
Proof.
  intros HB Hupd.
  assert (Z.of_nat (length v) = n_var_params self) as Hlen.
  { unfold UCCSD.update_var_params in Hupd.
    rewrite UCCSDFacts.set_var_params_explicit in Hupd.
    destruct (_ =? _)%Z eqn:Heq; [by apply Z.eqb_eq|done]. }
  split; [done|].
  apply UCCSDFacts.Built_consistent in HB as (m & c & Hm & Hc & Hinj & Hrange & _);
    [|done..].
  rewrite UCCSDFacts.update_var_params_unfold in Hupd by done.
  destruct (get_qubit_operator (with_var_params self v)) as [items|] eqn:Hop; [|done].
  cbn [bind] in Hupd. exists items. split; [done|]. rewrite Hm in Hupd.
  assert (NoDup items.*1) as Hitems
    by (eapply UCCSDFacts.operator_is_dict; [exact Hdict|exact Hop]).
  case_bool_decide as Hdom.
  - rewrite UCCSDFacts.build_circuit_explicit in Hupd by done.
    change (with_var_params (with_var_params self v) v) with (with_var_params self v)
      in Hupd.
    rewrite Hop in Hupd. cbn [bind] in Hupd. injection Hupd as <-.
    by eapply UCCSDFacts.built_from_spec.
  - rewrite Hc in Hupd.
    destruct (UCCSDFacts.fast_path_spec float_add float_mul items m c
                Hitems Hinj Hrange Hdom) as (c' & Hg & _ & _ & Hpar).
    rewrite Hg in Hupd. cbn [bind] in Hupd. injection Hupd as <-.
    intros w. rewrite (UCCSDFacts.gate_parameter_of_eq _ m c') by done. apply Hpar.
Qed.

Lemma update_var_params_keeps_configuration (self upd : UCCSD) arg :
  update_var_params self arg = Ok upd →
  n_spinorbitals upd = n_spinorbitals self ∧ n_electrons upd = n_electrons self
  ∧ spin upd = spin self ∧ mapping upd = mapping self
  ∧ up_then_down upd = up_then_down self ∧ n_var_params upd = n_var_params self.
Proof.
  unfold UCCSD.update_var_params.
  destruct (set_var_params self (Some arg)) as [[self1 x]|] eqn:Hs; [|done].
  apply UCCSDFacts.set_var_params_inv in Hs as ->. cbn [bind fst].
  match goal with |- bind ?X _ = _ → _ => destruct X as [items|] end; [|done].
  cbn [bind pauli_to_angles_mapping circuit with_var_params].
  destruct (pauli_to_angles_mapping self) as [m|]; [|done].
  case_bool_decide.
  - intros (self0 & y & items0 & -> & _ & _ & [->| ->])%build_circuit_origin; done.
  - destruct (circuit self) as [c|].
    + destruct (update_gates _ _ _ _ _) as [c'|]; [|done]. cbn [bind]. by intros [= <-].
    + destruct items; [|done]. by intros [= <-].
Qed.

(** X11.  Updates compose to the last one: after [update_var_params(v1)]
    and then [update_var_params(v2)] on a built object, every Pauli word's
    variational gate carries the parameter it carries after
    [update_var_params(v2)] alone, the angle of the word's coefficient in the
    operator of [v2]. *)
Theorem updates_compose_to_the_last
    (self s1 s12 s2 : UCCSD) (v1 v2 : list Q) :
  Built self →
  update_var_params self (Explicit v1) = Ok s1 →
  update_var_params s1 (Explicit v2) = Ok s12 →
  update_var_params self (Explicit v2) = Ok s2 →
  ∃ items,
    get_qubit_operator (with_var_params self v2) = Ok items
    ∧ ∀ w, gate_parameter_of s12 w = gate_parameter_of s2 w
           ∧ gate_parameter_of s2 w
             = rotation_angle <$> (list_to_map items : gmap PauliWord Q) !! w.
Proof.
  intros HB H1 H12 H2.
  assert (Built s1) as HB1 by (by eapply Built_update).
  destruct (update_gate_parameters s1 s12 v2 HB1 H12) as (_ & items12 & Hop12 & Hp12).
  destruct (update_gate_parameters self s2 v2 HB H2) as (_ & items & Hop & Hp2).
  exists items. split; [done|]. intros w. rewrite Hp12, Hp2. split; [|done].
  enough (items12 = items) as -> by done.
  apply update_var_params_keeps_configuration in H1 as (Hn & He & Hs & Hmp & Hu & _).
  assert (get_qubit_operator (with_var_params s1 v2)
          = get_qubit_operator (with_var_params self v2)) as Heq.
  { unfold UCCSD.get_qubit_operator, _get_singlet_qubit_operator,
      _get_openshell_qubit_operator, n_alpha, n_beta.
    cbn [spin n_spinorbitals n_electrons mapping up_then_down var_params
         with_var_params].
    by rewrite Hn, He, Hs, Hmp, Hu. }
  congruence.
Qed.

End Facts.

(** X23.  The electron counts [__init__] computes for a spin that is not 0
    always add up to the number of electrons; they differ by
    [2 * (spin // 2) + n_electrons % 2], which is the spin exactly when spin
    and number of electrons have the same parity; and for a spin between 0
    and the number of electrons neither count is negative and there are at
    least as many alpha as beta electrons. *)
Theorem open_shell_counts_add_up (self : UCCSD) :
  (n_alpha self + n_beta self = n_electrons self)%Z
  ∧ (n_alpha self - n_beta self
     = 2 * (spin self `div` 2) + n_electrons self `mod` 2)%Z
  ∧ ((n_alpha self - n_beta self = spin self)%Z
     ↔ (spin self `mod` 2 = n_electrons self `mod` 2)%Z)
  ∧ ((0 ≤ spin self ≤ n_electrons self)%Z →
     (0 ≤ n_beta self ≤ n_alpha self)%Z ∧ (n_alpha self ≤ n_electrons self)%Z).
Proof.
  unfold n_alpha, n_beta. destruct self as [so e s m u nv v c p]. simpl.
  repeat split; intros; Z.div_mod_to_equations; lia.
Qed.

Lemma open_shell_counts_add_up_witness :
  (0 ≤ n_beta (UCCSDInit.blank 6 3 1 "JW" false 0)
     ≤ n_alpha (UCCSDInit.blank 6 3 1 "JW" false 0))%Z.
Proof.
  destruct (open_shell_counts_add_up (UCCSDInit.blank 6 3 1 "JW" false 0))
    as (_ & _ & _ & Hrange).
  apply Hrange. simpl. lia.
Defined.

Lemma set_var_params_keywords_witness :
  UCCSD.set_var_params ToyUCCSD.random_var_params ToyUCCSD.unbuilt None
  = Ok (with_var_params ToyUCCSD.unbuilt [1%Q; 1%Q], [1%Q; 1%Q]).
Proof.
  destruct (set_var_params_keywords ToyUCCSD.random_var_params ToyUCCSD.unbuilt)
    as (_ & _ & _ & Hones & _).
  apply Hones. simpl. lia.
Defined.

Example open_shell_counts_of_a_doublet_and_a_mismatch :
  (n_alpha (UCCSDInit.blank 6 3 1 "JW" false 0) = 2
   ∧ n_beta (UCCSDInit.blank 6 3 1 "JW" false 0) = 1
   ∧ n_alpha (UCCSDInit.blank 6 3 2 "JW" false 0) = 3
   ∧ n_beta (UCCSDInit.blank 6 3 2 "JW" false 0) = 0)%Z.
Proof. by repeat split. Qed.

(** An open-shell count for the examples. *)
Definition toy_paramsize (_ _ _ : Z) : result (Z * Z) := Ok (0, 0)%Z.

(** The count for H2 in a minimal basis (4 spin-orbitals, 2 electrons) and
    for H4 (8 spin-orbitals, 4 electrons). *)
Example parameter_count_H2_H4 :
  bind (__init__ toy_paramsize 4 2 0 "JW" false) (λ self, Ok (n_var_params self))
  = Ok 2%Z
  ∧ bind (__init__ toy_paramsize 8 4 0 "JW" false) (λ self, Ok (n_var_params self))
    = Ok 14%Z.
Proof. split; reflexivity. Qed.

(** A number of electrons that no float holds: the division of line 52
    overflows. *)
Example too_many_electrons_overflow :
  __init__ toy_paramsize 4 (10 ^ 400) 0 "JW" false = Raise OverflowError.
Proof. vm_compute. reflexivity. Qed.

(** Beyond [2^53] the float quotient rounds: [2^53 + 1] electrons count as
    [2^52] occupied orbitals, one less than [(n_electrons + 1) // 2]. *)
Example rounded_electron_count :
  ceil_half (2 ^ 53 + 1) = Ok (2 ^ 52)%Z
  ∧ ((2 ^ 53 + 1 + 1) `div` 2 = 2 ^ 52 + 1)%Z
  ∧ bind (__init__ toy_paramsize 4 (2 ^ 53 + 1) 0 "JW" false)
      (λ self, Ok (n_var_params self))
    = Ok (let s := (2 ^ 52 * (2 - 2 ^ 52))%Z in (s * (s + 3)) `div` 2)%Z.
Proof. repeat split; vm_compute; reflexivity. Qed.

Lemma init_declares_parameter_count_witness :
  ∃ self, __init__ toy_paramsize 8 4 0 "JW" false = Ok self
          ∧ n_var_params self = 14%Z ∧ (0 ≤ n_var_params self)%Z.
Proof.
  destruct (init_declares_parameter_count toy_paramsize 8 4 0 "JW" false)
    as (_ & _ & Hsinglet & _).
  destruct (Hsinglet eq_refl eq_refl) as (_ & _ & Hsmall).
  destruct Hsmall as (self & Hself & Hn & Hpos); [by vm_compute|].
  exists self. split; [exact Hself|]. split; [exact Hn|]. apply Hpos. lia.
Defined.

Lemma update_before_build_raises_witness :
  ToyUCCSD.update_var_params ToyUCCSD.unbuilt (Explicit [1%Q; 2%Q])
  = Raise AttributeError.
Proof.
  destruct (update_before_build_raises
              ToyUCCSD.random_var_params ToyMapping.upper ToyUCCSD.fermion_terms
              ToyUCCSD.zero ToyUCCSD.iadd ToyUCCSD.jordan_wigner
              ToyUCCSD.bravyi_kitaev ToyUCCSD.symmetry_conserving_bravyi_kitaev
              ToyUCCSD.uccsd_singlet_generator ToyUCCSD.uccsd_openshell_generator
              ToyUCCSD.real_terms ToyUCCSD.get_reference_circuit
              ToyUCCSD.pauliword_to_circuit Qplus Qmult
              ToyUCCSD.unbuilt [1%Q; 2%Q] eq_refl eq_refl) as (Hattr & _).
  apply (Hattr (ToyUCCSD.real_terms [1%Q; 2%Q])). reflexivity.
Defined.

(** With a mapping that [fermion_to_qubit_mapping] does not know the same
    call raises [ValueError]: the operator is computed before the mapping
    of Pauli words is read. *)
Example update_before_build_unknown_mapping :
  ToyUCCSD.update_var_params ToyUCCSD.unbuilt_foo (Explicit [1%Q; 2%Q])
  = Raise ValueError.
Proof. reflexivity. Qed.

Lemma build_circuit_again_changes_nothing_witness :
  ToyUCCSD.build_circuit ToyUCCSD.built None = Ok ToyUCCSD.built.
Proof.
  apply (build_circuit_again_changes_nothing
           ToyUCCSD.random_var_params ToyMapping.upper ToyUCCSD.fermion_terms
              ToyUCCSD.zero ToyUCCSD.iadd ToyUCCSD.jordan_wigner
              ToyUCCSD.bravyi_kitaev ToyUCCSD.symmetry_conserving_bravyi_kitaev
              ToyUCCSD.uccsd_singlet_generator ToyUCCSD.uccsd_openshell_generator
              ToyUCCSD.real_terms ToyUCCSD.get_reference_circuit
              ToyUCCSD.pauliword_to_circuit
           ToyUCCSD.unbuilt ToyUCCSD.built (Some (Explicit [1%Q; 2%Q]))).
  by rewrite UCCSDFacts.build_circuit_explicit.
Defined.

Lemma build_circuit_orders_words_by_length_witness :
  ∃ (pauli_words : list (PauliWord * Q)) (m : gmap PauliWord nat),
    pauli_to_angles_mapping ToyUCCSD.built = Some m
    ∧ StronglySorted (λ a b, length a.1 ≤ length b.1) pauli_words
    ∧ (∀ w i, m !! w = Some i ↔ pauli_words.*1 !! i = Some w)
    ∧ size m = 2%nat.
Proof.
  destruct (build_circuit_orders_words_by_length
              ToyUCCSD.random_var_params ToyMapping.upper ToyUCCSD.fermion_terms
              ToyUCCSD.zero ToyUCCSD.iadd ToyUCCSD.jordan_wigner
              ToyUCCSD.bravyi_kitaev ToyUCCSD.symmetry_conserving_bravyi_kitaev
              ToyUCCSD.uccsd_singlet_generator ToyUCCSD.uccsd_openshell_generator
              ToyUCCSD.real_terms ToyUCCSD.get_reference_circuit
              ToyUCCSD.pauliword_to_circuit UCCSDFacts.toy_terms_are_dict
              ToyUCCSD.unbuilt ToyUCCSD.built (Some (Explicit [1%Q; 2%Q])))
    as (items & pws & m & Hop & Hm & _ & Hsorted & _ & Hmap & Hsize).
  { by rewrite UCCSDFacts.build_circuit_explicit. }
  exists pws, m. split; [exact Hm|]. split; [exact Hsorted|].
  split; [exact Hmap|]. rewrite Hsize.
  change (ToyUCCSD.get_qubit_operator ToyUCCSD.built = Ok items) in Hop.
  by injection Hop as <-.
Defined.

(** On the toy ansatz the shorter word [X0] comes first although the
    dictionary lists [Z0 Z1] first. *)
Example toy_words_by_length :
  pauli_to_angles_mapping ToyUCCSD.built
  = Some (<[ToyUCCSD.word_zz := 1%nat]> (<[ToyUCCSD.word_x := 0%nat]> ∅)).
Proof. reflexivity. Qed.

Lemma updates_compose_to_the_last_witness :
  ∃ s1 s12 s2,
    ToyUCCSD.update_var_params ToyUCCSD.built (Explicit [0%Q; 5%Q]) = Ok s1
    ∧ ToyUCCSD.update_var_params s1 (Explicit [3%Q; (-4)%Q]) = Ok s12
    ∧ ToyUCCSD.update_var_params ToyUCCSD.built (Explicit [3%Q; (-4)%Q]) = Ok s2
    ∧ ∀ w, gate_parameter_of s12 w = gate_parameter_of s2 w.
Proof.
  eexists _, _, _.
  split; [vm_compute; reflexivity|]. split; [vm_compute; reflexivity|].
  split; [vm_compute; reflexivity|].
  intros w.
  destruct (updates_compose_to_the_last
              ToyUCCSD.random_var_params ToyMapping.upper ToyUCCSD.fermion_terms
              ToyUCCSD.zero ToyUCCSD.iadd ToyUCCSD.jordan_wigner
              ToyUCCSD.bravyi_kitaev ToyUCCSD.symmetry_conserving_bravyi_kitaev
              ToyUCCSD.uccsd_singlet_generator ToyUCCSD.uccsd_openshell_generator
              ToyUCCSD.real_terms ToyUCCSD.get_reference_circuit
              ToyUCCSD.pauliword_to_circuit Qplus Qmult UCCSDFacts.toy_terms_are_dict
              UCCSDFacts.toy_one_rotation_per_word UCCSDFacts.toy_reference_is_fixed
              ToyUCCSD.built _ _ _ [0%Q; 5%Q] [3%Q; (-4)%Q]
              UCCSDFacts.toy_built
              ltac:(vm_compute; reflexivity) ltac:(vm_compute; reflexivity)
              ltac:(vm_compute; reflexivity)) as (items & _ & Hw).
  exact (proj1 (Hw w)).
Defined.

End UCCSDMore.

(** ** Further theorems: generalized unitary coupled cluster *)

Module CountingFacts.
Import Counting.

Lemma Zsum_cons {A} (x : A) (l : list A) (f : A → Z) :
  Zsum (x :: l) f = (f x + Zsum l f)%Z.
Proof. done. Qed.

Lemma Zsum_app {A} (l k : list A) (f : A → Z) :
  Zsum (l ++ k) f = (Zsum l f + Zsum k f)%Z.
Proof. induction l as [|x l IH]; simpl; [done|]. rewrite IH. lia. Qed.

Lemma Zsum_ext {A} (l : list A) (f g : A → Z) :
  (∀ x, x ∈ l → f x = g x) → Zsum l f = Zsum l g.
Proof.
  induction l as [|x l IH]; intros Hfg; simpl; [done|].
  rewrite Hfg, IH; [done| |left]. intros y Hy. apply Hfg. by right.
Qed.

Lemma Zsum_bind {A B} (l : list A) (k : A → list B) (f : B → Z) :
  Zsum (l ≫= k) f = Zsum l (λ x, Zsum (k x) f).
Proof.
  induction l as [|x l IH]; [done|].
  rewrite bind_cons, Zsum_app, IH. done.
Qed.

Lemma Zsum_scale {A} (l : list A) (c : Z) (f : A → Z) :
  Zsum l (λ x, c * f x)%Z = (c * Zsum l f)%Z.
Proof. induction l as [|x l IH]; simpl; [lia|]. rewrite IH. lia. Qed.

Lemma Zsum_zero {A} (l : list A) (f : A → Z) :
  (∀ x, x ∈ l → f x = 0%Z) → Zsum l f = 0%Z.
Proof.
  induction l as [|x l IH]; intros Hf; simpl; [done|].
  rewrite Hf, IH; [done| |left]. intros y Hy. apply Hf. by right.
Qed.

Lemma Zsum_seqZ_succ (m n : Z) (f : Z → Z) :
  (0 ≤ n)%Z → Zsum (seqZ m (n + 1)) f = (Zsum (seqZ m n) f + f (m + n))%Z.
Proof.
  intros Hn. rewrite seqZ_app by lia. rewrite Zsum_app.
  rewrite (seqZ_cons (m + n) 1) by lia.
  rewrite (seqZ_nil (Z.succ (m + n))) by lia. simpl. lia.
Qed.

Lemma Zsum_seqZ_split (a n : Z) (f : Z → Z) :
  (0 ≤ a ≤ n)%Z →
  Zsum (seqZ 0 n) f = (Zsum (seqZ 0 a) f + Zsum (seqZ a (n - a)) f)%Z.
Proof.
  intros Ha. replace n with (a + (n - a))%Z at 1 by lia.
  rewrite seqZ_app by lia. by rewrite Zsum_app.
Qed.

Lemma Zsum_seqZ_first (a n : Z) (f : Z → Z) :
  (0 < n)%Z → Zsum (seqZ a n) f = (f a + Zsum (seqZ (a + 1) (n - 1)) f)%Z.
Proof. intros Hn. rewrite seqZ_cons by lia. done. Qed.

Lemma seqZ_induction (P : Z → Prop) :
  P 0%Z → (∀ n, (0 ≤ n)%Z → P n → P (n + 1)%Z) → ∀ n, (0 ≤ n)%Z → P n.
Proof. intros H0 HS n Hn. by apply natlike_ind. Qed.

Lemma Zsum_seqZ_linear (a n c0 c1 : Z) :
  (0 ≤ n)%Z →
  (2 * Zsum (seqZ a n) (λ r, c0 + c1 * r) = 2 * c0 * n + c1 * n * (2 * a + n - 1))%Z.
Proof.
  revert n. apply seqZ_induction.
  - rewrite seqZ_nil by lia. simpl. lia.
  - intros n Hn IH. rewrite Zsum_seqZ_succ by done.
    rewrite Z.mul_add_distr_l, IH. ring.
Qed.

Lemma Zsum_seqZ_const (a n c : Z) :
  (0 ≤ n)%Z → Zsum (seqZ a n) (λ _, c) = (c * n)%Z.
Proof.
  revert n. apply seqZ_induction.
  - rewrite seqZ_nil by lia. simpl. lia.
  - intros n Hn IH. rewrite Zsum_seqZ_succ by done. rewrite IH. ring.
Qed.

End CountingFacts.

Module GeneralUCCFacts.
Import GeneralUCC Counting CountingFacts.

Lemma Qopp_opp_eq (q : Q) : (- - q)%Q = q.
Proof. destruct q as [a b]. unfold Qopp. simpl. by rewrite Z.opp_involutive. Qed.

Lemma conjugate_term_cases (v : Term) :
  ((length v.1 < 4)%nat ∧ conjugate_term v = None)
  ∨ (∃ f0 f1 f2 f3 rest, v.1 = f0 :: f1 :: f2 :: f3 :: rest
       ∧ conjugate_term v
         = Some ([(f3.1, 1); (f2.1, 1); (f1.1, 0); (f0.1, 0)]%Z, (- v.2)%Q)).
Proof.
  destruct v as [fs c]. unfold conjugate_term. simpl.
  destruct fs as [|f0 [|f1 [|f2 [|f3 rest]]]]; simpl;
    [left; split; [lia|done]..|].
  right. by exists f0, f1, f2, f3, rest.
Qed.

Lemma conjugate_term_twice (v w : Term) :
  conjugate_term v = Some w →
  conjugate_term w = Some (zip (take 4 v.1.*1) [1; 1; 0; 0]%Z, v.2).
Proof.
  destruct (conjugate_term_cases v)
    as [[_ ->]|(f0 & f1 & f2 & f3 & rest & Hv & ->)]; [done|].
  intros [= <-]. rewrite Hv. unfold conjugate_term. simpl.
  by rewrite Qopp_opp_eq.
Qed.

Lemma hermitian_conjugate_cases (terms : list Term) :
  ((∃ v, v ∈ terms ∧ (length v.1 < 4)%nat) ∧ hermitian_conjugate terms = Raise ValueError)
  ∨ ((∀ v, v ∈ terms → (4 ≤ length v.1)%nat)
     ∧ ∃ hc, hermitian_conjugate terms = Ok hc
         ∧ Forall2 (λ v w, conjugate_term v = Some w) terms hc).
Proof.
  unfold hermitian_conjugate. destruct (mapM conjugate_term terms) as [hc|] eqn:Hm.
  - right. apply mapM_Some in Hm. split; [|eauto].
    intros v [i Hi]%list_elem_of_lookup.
    destruct (Forall2_lookup_l _ _ _ _ _ Hm Hi) as (w & _ & Hw).
    destruct (conjugate_term_cases v) as [[_ Hn]|(? & ? & ? & ? & ? & -> & _)];
      [congruence|simpl; lia].
  - left. split; [|done]. apply mapM_None, Exists_exists in Hm as (v & Hv & Hn).
    exists v. split; [done|].
    destruct (conjugate_term_cases v) as [[Hl _]|(? & ? & ? & ? & ? & _ & Hs)];
      [done|congruence].
Qed.

Lemma hermitian_conjugate_app (A B hA hB : list Term) :
  hermitian_conjugate A = Ok hA → hermitian_conjugate B = Ok hB →
  hermitian_conjugate (A ++ B) = Ok (hA ++ hB).
Proof.
  unfold hermitian_conjugate.
  destruct (mapM conjugate_term A) as [a|] eqn:Ha; [|done].
  destruct (mapM conjugate_term B) as [b|] eqn:Hb; [|done].
  intros [= <-] [= <-]. apply mapM_Some in Ha, Hb.
  assert (mapM conjugate_term (A ++ B) = Some (a ++ b)) as ->; [|done].
  apply mapM_Some. by apply Forall2_app.
Qed.

Lemma hermitian_conjugate_twice_normal (terms hc : list Term) :
  hermitian_conjugate terms = Ok hc →
  hermitian_conjugate hc
  = Ok ((λ v : Term, (zip (take 4 v.1.*1) [1; 1; 0; 0]%Z, v.2)) <$> terms).
Proof.
  destruct (hermitian_conjugate_cases terms) as [[_ ->]|[_ (hc' & -> & Hall)]]; [done|].
  intros [= <-]. unfold hermitian_conjugate.
  match goal with |- context [mapM ?f ?l] =>
    assert (mapM f l = Some ((λ v : Term, (zip (take 4 v.1.*1) [1; 1; 0; 0]%Z, v.2)) <$> terms))
      as ->; [|done] end.
  apply mapM_Some. induction Hall as [|v w terms hc' Hvw Hall IH]; [constructor|].
  simpl. constructor; [|done]. by apply conjugate_term_twice.
Qed.

Lemma normal_of_shaped (terms : list Term) :
  Forall (λ v : Term, length v.1 = 4%nat ∧ v.1.*2 = [1; 1; 0; 0]%Z) terms →
  (λ v : Term, (zip (take 4 v.1.*1) [1; 1; 0; 0]%Z, v.2)) <$> terms = terms.
Proof.
  induction 1 as [|[fs c] terms [Hlen Hact] _ IH]; [done|].
  rewrite fmap_cons, IH. f_equal. simpl in *. f_equal.
  destruct fs as [|[i0 a0] [|[i1 a1] [|[i2 a2] [|[i3 a3] [|? ?]]]]]; try done.
  simpl in *. by injection Hact as -> -> -> ->.
Qed.

Lemma hermitian_conjugate_shaped (X : list Term) :
  Forall (λ v : Term, length v.1 = 4%nat ∧ v.1.*2 = [1; 1; 0; 0]%Z) X →
  ∃ hX, hermitian_conjugate X = Ok hX ∧ hermitian_conjugate hX = Ok X
        ∧ length hX = length X.
Proof.
  intros Hshape.
  destruct (hermitian_conjugate_cases X) as [[(v & Hv & Hlt) _]|[_ (hX & HX & Hall)]].
  - rewrite Forall_forall in Hshape. apply Hshape in Hv as [Hv _]. lia.
  - exists hX. split; [done|]. split.
    + rewrite (hermitian_conjugate_twice_normal _ _ HX). by rewrite normal_of_shaped.
    + symmetry. by eapply Forall2_length.
Qed.

Lemma with_conjugates_spec (X : list Term) :
  Forall (λ v : Term, length v.1 = 4%nat ∧ v.1.*2 = [1; 1; 0; 0]%Z) X →
  ∃ g hc, with_conjugates X = Ok g ∧ length g = (2 * length X)%nat
          ∧ hermitian_conjugate g = Ok hc ∧ hc ≡ₚ g.
Proof.
  intros (hX & HX & HhX & Hlen)%hermitian_conjugate_shaped.
  exists (X ++ hX), (hX ++ X). unfold with_conjugates. rewrite HX. simpl.
  split; [done|]. split; [rewrite length_app; lia|]. split.
  - by apply hermitian_conjugate_app.
  - apply Permutation_app_comm.
Qed.

(** X17.  [hermitian_conjugate] raises exactly when a term has fewer than
    four factors, and then [ValueError].  Otherwise it returns as many terms
    as it was given, and conjugating the result gives the first four modes of
    every term back with its coefficient, the actions set to 1, 1, 0, 0: on
    terms of four factors with these actions it is an involution. *)
Theorem hermitian_conjugate_twice (terms : list Term) :
  (is_ok (hermitian_conjugate terms) = false ↔ ∃ v, v ∈ terms ∧ (length v.1 < 4)%nat)
  ∧ (∀ e, hermitian_conjugate terms = Raise e → e = ValueError)
  ∧ (∀ hc, hermitian_conjugate terms = Ok hc →
       length hc = length terms
       ∧ hermitian_conjugate hc
         = Ok ((λ v : Term, (zip (take 4 v.1.*1) [1; 1; 0; 0]%Z, v.2)) <$> terms))
  ∧ (Forall (λ v : Term, length v.1 = 4%nat ∧ v.1.*2 = [1; 1; 0; 0]%Z) terms →
       ∃ hc, hermitian_conjugate terms = Ok hc ∧ hermitian_conjugate hc = Ok terms).
Proof.
  split; [|split; [|split]].
  - destruct (hermitian_conjugate_cases terms) as [[Hex ->]|[Hall (hc & -> & _)]].
    + done.
    + split; [done|]. intros (v & Hv%Hall & Hlt). lia.
  - destruct (hermitian_conjugate_cases terms) as [[_ ->]|[_ (hc & -> & _)]];
      [by intros e [= <-]|done].
  - intros hc Hhc. split; [|by apply hermitian_conjugate_twice_normal].
    destruct (hermitian_conjugate_cases terms) as [[_ H]|[_ (hc' & H & Hall)]];
      rewrite H in Hhc; [done|]. injection Hhc as <-.
    symmetry. by eapply Forall2_length.
  - intros (hX & HX & HhX & _)%hermitian_conjugate_shaped. eauto.
Qed.

Example hermitian_conjugate_of_a_double :
  hermitian_conjugate [([(0, 1); (2, 1); (4, 0); (6, 0)]%Z, (1 # 2)%Q)]
  = Ok [([(6, 1); (4, 1); (2, 0); (0, 0)]%Z, (- (1 # 2))%Q)].
Proof. reflexivity. Qed.

Example hermitian_conjugate_of_a_single :
  hermitian_conjugate [([(0, 1); (2, 0)]%Z, 1%Q)] = Raise ValueError.
Proof. reflexivity. Qed.

Lemma get_spin_ordered_quartet (n p q r s : Z) (u : bool) :
  (1 ≤ n)%Z → (0 ≤ r)%Z →
  ∃ u0 u1 u2 u3 d0 d1 d2 d3,
    get_spin_ordered n p q r s u = Ok ([u0; u1; u2; u3], [d0; d1; d2; d3]).
Proof.
  intros Hn Hr. unfold get_spin_ordered.
  destruct (Z.ltb_spec n 1); [lia|]. destruct u;
    (destruct (Z.ltb_spec r 0); [lia|]); by repeat eexists.
Qed.

Lemma get_spin_ordered_pair (n p q r s : Z) (u : bool) :
  (1 ≤ n)%Z → (r < 0)%Z →
  ∃ u0 u1 d0 d1, get_spin_ordered n p q r s u = Ok ([u0; u1], [d0; d1]).
Proof.
  intros Hn Hr. unfold get_spin_ordered.
  destruct (Z.ltb_spec n 1); [lia|]. destruct u;
    (destruct (Z.ltb_spec r 0); [|lia]); by repeat eexists.
Qed.

#[local] Opaque with_conjugates.

Ltac shaped_terms :=
  repeat (apply Forall_cons_2; [by split|]); apply Forall_nil_2.

Lemma get_group_1_2_spec (n p q r s : Z) (u : bool) :
  (1 ≤ n)%Z → (0 ≤ r)%Z →
  ∃ g hc, get_group_1_2 n p q r s u = Ok g ∧ length g = 20%nat
          ∧ hermitian_conjugate g = Ok hc ∧ hc ≡ₚ g.
Proof.
  intros Hn Hr. unfold get_group_1_2. destruct (Z.ltb_spec n 1); [lia|].
  destruct (get_spin_ordered_quartet n p q r s u Hn Hr)
    as (u0 & u1 & u2 & u3 & d0 & d1 & d2 & d3 & ->).
  simpl.
  match goal with |- context [with_conjugates ?T] =>
    destruct (with_conjugates_spec T) as (gt & ht & -> & Hlt & Hht & Hpt);
      [shaped_terms|] end.
  simpl.
  match goal with |- context [with_conjugates ?S] =>
    destruct (with_conjugates_spec S) as (gs & hs & -> & Hls & Hhs & Hps);
      [shaped_terms|] end.
  simpl. exists (gs ++ gt), (hs ++ ht). split; [done|]. split.
  - rewrite length_app, Hls, Hlt. done.
  - split; [by apply hermitian_conjugate_app|by apply Permutation_app].
Qed.

Lemma get_group_3_4_spec (n p q r s : Z) (u : bool) :
  (1 ≤ n)%Z → (0 ≤ r)%Z →
  ∃ g hc, get_group_3_4 n p q r s u = Ok g ∧ length g = 4%nat
          ∧ hermitian_conjugate g = Ok hc ∧ hc ≡ₚ g.
Proof.
  intros Hn Hr. unfold get_group_3_4. destruct (Z.ltb_spec n 1); [lia|].
  destruct (get_spin_ordered_quartet n p q r s u Hn Hr)
    as (u0 & u1 & u2 & u3 & d0 & d1 & d2 & d3 & ->).
  simpl.
  match goal with |- context [with_conjugates ?S] =>
    destruct (with_conjugates_spec S) as (gs & hs & -> & Hls & Hhs & Hps);
      [shaped_terms|] end.
  by exists gs, hs.
Qed.

Lemma get_group_5_spec (n p q r s : Z) (u : bool) :
  (1 ≤ n)%Z → (0 ≤ r)%Z →
  ∃ g hc, get_group_5 n p q r s u = Ok g ∧ length g = 2%nat
          ∧ hermitian_conjugate g = Ok hc ∧ hc ≡ₚ g.
Proof.
  intros Hn Hr. unfold get_group_5. destruct (Z.ltb_spec n 1); [lia|].
  destruct (get_spin_ordered_quartet n p q r s u Hn Hr)
    as (u0 & u1 & u2 & u3 & d0 & d1 & d2 & d3 & ->).
  simpl.
  match goal with |- context [with_conjugates ?S] =>
    destruct (with_conjugates_spec S) as (gs & hs & -> & Hls & Hhs & Hps);
      [shaped_terms|] end.
  by exists gs, hs.
Qed.

(** X18.  For at least one orbital and a third index that is not negative,
    each of [get_group_1_2], [get_group_3_4] and [get_group_5] returns a
    group of 20, 4 and 2 terms that is closed under [hermitian_conjugate] up
    to the order of its terms: the generator built from the group is
    anti-Hermitian.  With a negative third index the three of them raise
    [IndexError], as [get_spin_ordered] then hands out pairs. *)
Theorem groups_are_antihermitian (n p q r s : Z) (u : bool) :
  (1 ≤ n)%Z →
  ((0 ≤ r)%Z →
     (∃ g hc, get_group_1_2 n p q r s u = Ok g ∧ length g = 20%nat
              ∧ hermitian_conjugate g = Ok hc ∧ hc ≡ₚ g)
     ∧ (∃ g hc, get_group_3_4 n p q r s u = Ok g ∧ length g = 4%nat
                ∧ hermitian_conjugate g = Ok hc ∧ hc ≡ₚ g)
     ∧ (∃ g hc, get_group_5 n p q r s u = Ok g ∧ length g = 2%nat
                ∧ hermitian_conjugate g = Ok hc ∧ hc ≡ₚ g))
  ∧ ((r < 0)%Z →
     get_group_1_2 n p q r s u = Raise IndexError
     ∧ get_group_3_4 n p q r s u = Raise IndexError
     ∧ get_group_5 n p q r s u = Raise IndexError).
Proof.
  intros Hn. split; intros Hr.
  - split; [|split].
    + by apply get_group_1_2_spec.
    + by apply get_group_3_4_spec.
    + by apply get_group_5_spec.
  - unfold get_group_1_2, get_group_3_4, get_group_5.
    destruct (Z.ltb_spec n 1); [lia|].
    destruct (get_spin_ordered_pair n p q r s u Hn Hr) as (u0 & u1 & d0 & d1 & ->).
    done.
Qed.

(** X16.  The two spin orderings of [get_spin_ordered] differ by the
    array [remapped] of [make_up_then_down]: for orbitals below [n_orbs],
    the alternating labels are even for spin up and odd for spin down, the
    blocked labels lie below [n_orbs] for spin up and from [n_orbs] on for
    spin down, all of them are spin-orbitals below [2 * n_orbs], and
    [remapped] for [2 * n_orbs] spin-orbitals sends each alternating label to
    the blocked label of the same orbital and spin.  Two labels of each spin
    are returned when the third index is negative, four otherwise. *)
Theorem spin_orderings_differ_by_remapped (n pp qq rr ss : Z) :
  (1 ≤ n)%Z → (0 ≤ pp < n)%Z → (0 ≤ qq < n)%Z →
  (rr < 0)%Z ∨ (0 ≤ rr < n)%Z ∧ (0 ≤ ss < n)%Z →
  ∃ up dn up' dn',
    get_spin_ordered n pp qq rr ss false = Ok (up, dn)
    ∧ get_spin_ordered n pp qq rr ss true = Ok (up', dn')
    ∧ length up = (if (rr <? 0)%Z then 2 else 4)%nat
    ∧ Forall (λ x, (0 ≤ x < 2 * n)%Z ∧ (x `mod` 2 = 0)%Z) up
    ∧ Forall (λ x, (0 ≤ x < 2 * n)%Z ∧ (x `mod` 2 = 1)%Z) dn
    ∧ Forall (λ x, (0 ≤ x < n)%Z) up'
    ∧ Forall (λ x, (n ≤ x < 2 * n)%Z) dn'
    ∧ Forall2 (λ x x', MappingTransform.remapped (2 * n) !! Z.to_nat x = Some x') up up'
    ∧ Forall2 (λ x x', MappingTransform.remapped (2 * n) !! Z.to_nat x = Some x') dn dn'.
Proof.
  intros Hn Hp Hq Hrs.
  assert (Hup : ∀ o, (0 ≤ o < n)%Z →
            MappingTransform.remapped (2 * n) !! Z.to_nat (2 * o) = Some o).
  { intros o Ho. apply MappingFacts.remapped_lookup. split; [lia|].
    destruct (Nat.odd (Z.to_nat (2 * o))) eqn:Hodd.
    - apply MappingFacts.odd_mod in Hodd. Z.div_mod_to_equations. lia.
    - Z.div_mod_to_equations. lia. }
  assert (Hdn : ∀ o, (0 ≤ o < n)%Z →
            MappingTransform.remapped (2 * n) !! Z.to_nat (2 * o + 1) = Some (n + o)%Z).
  { intros o Ho. apply MappingFacts.remapped_lookup. split; [lia|].
    destruct (Nat.odd (Z.to_nat (2 * o + 1))) eqn:Hodd.
    - Z.div_mod_to_equations. lia.
    - apply MappingFacts.odd_false_mod in Hodd. Z.div_mod_to_equations. lia. }
  unfold get_spin_ordered. destruct (Z.ltb_spec n 1); [lia|].
  destruct (Z.ltb_spec rr 0) as [Hneg|Hpos].
  - do 4 eexists. do 3 (split; [reflexivity|]). simpl take.
    repeat split;
      repeat first [apply Forall_cons_2 | apply Forall_nil_2 | apply Forall2_cons
                   | apply Forall2_nil_2 | split];
      first [by apply Hup | by apply Hdn | Z.div_mod_to_equations; lia].
  - destruct Hrs as [?|[Hr Hs]]; [lia|].
    do 4 eexists. do 3 (split; [reflexivity|]).
    repeat split;
      repeat first [apply Forall_cons_2 | apply Forall_nil_2 | apply Forall2_cons
                   | apply Forall2_nil_2 | split];
      first [by apply Hup | by apply Hdn | Z.div_mod_to_equations; lia].
Qed.

Lemma singles_loop_spec (n : Z) (u : bool) (pairs : list (Z * Z))
    (acc : list (list Term)) :
  (1 ≤ n)%Z →
  ∃ g, singles_loop n u pairs acc = Ok (acc ++ g)
       ∧ Z.of_nat (length g) = Zsum pairs (λ t, if (t.1 <? t.2)%Z then 1 else 0)%Z
       ∧ Forall (λ terms, length terms = 4%nat) g.
Proof.
  intros Hn. revert acc. induction pairs as [|[pp qq] pairs IH]; intros acc.
  - exists []. by rewrite app_nil_r.
  - simpl. destruct (Z.leb_spec qq pp) as [Hle|Hlt].
    + destruct (IH acc) as (g & -> & Hlen & Hall). exists g.
      destruct (Z.ltb_spec pp qq); [lia|]. split; [done|]. split; [lia|done].
    + destruct (get_spin_ordered_pair n pp qq (-1) (-1) u Hn)
        as (u0 & u1 & d0 & d1 & ->); [lia|].
      simpl. match goal with |- context [singles_loop _ _ _ (acc ++ [?t])] =>
        destruct (IH (acc ++ [t])) as (g & -> & Hlen & Hall); exists (t :: g) end.
      destruct (Z.ltb_spec pp qq); [|lia]. split; [by rewrite <- app_assoc|].
      split; [simpl length; lia|]. by apply Forall_cons_2.
Qed.

Lemma count_pairs (n : Z) :
  (0 ≤ n)%Z →
  (2 * Zsum (product2 (selection n)) (λ t, if (t.1 <? t.2)%Z then 1 else 0)
   = n * (n - 1))%Z.
Proof.
  intros Hn. unfold product2, selection. rewrite Zsum_bind.
  rewrite (Zsum_ext _ _ (λ p, (n - 1) + (- 1) * p)%Z).
  - rewrite Zsum_seqZ_linear by done. ring.
  - intros p [Hp0 Hpn]%elem_of_seqZ. rewrite Zsum_bind.
    rewrite (Zsum_seqZ_split (p + 1)) by lia.
    rewrite Zsum_zero.
    + rewrite (Zsum_ext _ _ (λ _, 1%Z)).
      * rewrite Zsum_seqZ_const by lia. lia.
      * intros q [Hq0 Hqn]%elem_of_seqZ. simpl.
        destruct (Z.ltb_spec p q); lia.
    + intros q [Hq0 Hqn]%elem_of_seqZ. simpl.
      destruct (Z.ltb_spec p q); lia.
Qed.

Lemma get_singles_spec (n : Z) (u : bool) :
  (1 ≤ n)%Z →
  ∃ g, get_singles n u = Ok g ∧ Z.of_nat (length g) = get_singles_number n
       ∧ Forall (λ terms, length terms = 4%nat) g.
Proof.
  intros Hn. unfold get_singles. destruct (Z.ltb_spec n 1); [lia|].
  destruct (singles_loop_spec n u (product2 (selection n)) [] Hn) as (g & -> & Hlen & Hall).
  exists g. split; [done|]. split; [|done].
  pose proof (count_pairs n ltac:(lia)) as Hcount. rewrite <- Hlen in Hcount.
  unfold get_singles_number. apply Z.div_unique_exact; lia.
Qed.

(** X19.  [get_singles] raises [ValueError] below one orbital; from one
    orbital on it returns [n * (n - 1) // 2] groups, the number
    [get_singles_number] announces, of four terms each, with either spin
    ordering. *)
Theorem get_singles_has_singles_number (n : Z) (u : bool) :
  ((n < 1)%Z → get_singles n u = Raise ValueError)
  ∧ ((1 ≤ n)%Z →
     ∃ g, get_singles n u = Ok g ∧ Z.of_nat (length g) = get_singles_number n
          ∧ Forall (λ terms, length terms = 4%nat) g).
Proof.
  split.
  - intros Hn. unfold get_singles. by destruct (Z.ltb_spec n 1); [|lia].
  - apply get_singles_spec.
Qed.

Example singles_of_two_orbitals :
  get_singles 2 false
  = Ok [[([(0, 1); (2, 0)]%Z, 1%Q); ([(1, 1); (3, 0)]%Z, 1%Q);
         ([(2, 1); (0, 0)]%Z, (- 1)%Q); ([(3, 1); (1, 0)]%Z, (- 1)%Q)]].
Proof. reflexivity. Qed.

Ltac split_tests :=
  repeat (match goal with
          | |- context [(?a <? ?b)%Z] => destruct (Z.ltb_spec a b)
          | |- context [(?a =? ?b)%Z] => destruct (Z.eqb_spec a b)
          end; try (exfalso; lia); simpl).

Lemma count_s_upto (M p q r : Z) :
  (0 ≤ M)%Z → (0 ≤ p)%Z → (0 ≤ q)%Z → (0 ≤ r)%Z →
  Zsum (seqZ 0 M) (λ s, appends (doubles_branch p q r s))
  = (if (p =? q)%Z
     then (if (q =? r)%Z then M - (if (r <? M)%Z then 1 else 0)
           else Z.max 0 (M - 1 - r)
                + (if (p <? r)%Z then (if (r <? M)%Z then 1 else 0)
                   else - (if (p <? M)%Z then 1 else 0)))
     else if (q =? r)%Z
          then Z.max 0 (M - 1 - p)
               - (if (p <? q)%Z then (if (q <? M)%Z then 1 else 0) else 0)
          else if ((p <? q) && (p <? r))%Z
               then Z.max 0 (M - 1 - r)
                    - (if (r <? q)%Z then (if (q <? M)%Z then 1 else 0) else 0)
               else 0)%Z.
Proof.
  intros HM Hp Hq Hr. revert M HM. apply seqZ_induction.
  - rewrite seqZ_nil by lia. simpl. split_tests; lia.
  - intros M HM IH. rewrite Zsum_seqZ_succ by done. rewrite IH. clear IH.
    unfold doubles_branch, appends. rewrite Z.add_0_l.
    split_tests; lia.
Qed.

Lemma count_s (N p q r : Z) :
  (0 ≤ p < N)%Z → (0 ≤ q < N)%Z → (0 ≤ r < N)%Z →
  Zsum (seqZ 0 N) (λ s, appends (doubles_branch p q r s))
  = (if (p =? q)%Z
     then (if (q =? r)%Z then N - 1
           else N - 1 - r + (if (p <? r)%Z then 1 else - 1))
     else if (q =? r)%Z then N - 1 - p - (if (p <? q)%Z then 1 else 0)
          else if ((p <? q) && (p <? r))%Z
               then N - 1 - r - (if (r <? q)%Z then 1 else 0)
               else 0)%Z.
Proof.
  intros Hp Hq Hr. rewrite count_s_upto by lia. split_tests; lia.
Qed.

Lemma count_rs (N p q : Z) :
  (0 ≤ p < N)%Z → (0 ≤ q < N)%Z →
  (2 * Zsum (seqZ 0 N) (λ r, Zsum (seqZ 0 N) (λ s, appends (doubles_branch p q r s)))
   = if (p =? q)%Z then N * (N - 1) + 2 * (N - 1) - 2 * p
     else if (p <? q)%Z then (N - 1 - p) * (N - 2 - p)
          else 2 * (N - 1 - p))%Z.
Proof.
  intros Hp Hq. destruct (Z.eqb_spec p q) as [<-|Hne].
  - rewrite (Zsum_seqZ_split p) by lia.
    rewrite (Zsum_seqZ_first p) by lia.
    rewrite (count_s N p p p) by lia. split_tests.
    rewrite (Zsum_ext (seqZ 0 p) _ (λ r, (N - 2) + (- 1) * r)%Z).
    2: { intros r [? ?]%elem_of_seqZ. rewrite count_s by lia. split_tests; lia. }
    rewrite (Zsum_ext (seqZ (p + 1) _) _ (λ r, N + (- 1) * r)%Z).
    2: { intros r [? ?]%elem_of_seqZ. rewrite count_s by lia. split_tests; lia. }
    rewrite !Z.mul_add_distr_l, !Zsum_seqZ_linear by lia. ring.
  - destruct (Z.ltb_spec p q) as [Hlt|Hge].
    + rewrite (Zsum_seqZ_split (p + 1)) by lia.
      rewrite (Zsum_zero (seqZ 0 (p + 1))).
      2: { intros r [? ?]%elem_of_seqZ. rewrite count_s by lia. split_tests; lia. }
      replace (N - (p + 1))%Z with ((q - (p + 1)) + (N - q))%Z by lia.
      rewrite seqZ_app, Zsum_app by lia.
      replace (p + 1 + (q - (p + 1)))%Z with q by lia.
      rewrite (Zsum_seqZ_first q) by lia.
      rewrite (count_s N p q q) by lia. split_tests.
      rewrite (Zsum_ext (seqZ (p + 1) _) _ (λ r, (N - 2) + (- 1) * r)%Z).
      2: { intros r [? ?]%elem_of_seqZ. rewrite count_s by lia. split_tests; lia. }
      rewrite (Zsum_ext (seqZ (q + 1) _) _ (λ r, (N - 1) + (- 1) * r)%Z).
      2: { intros r [? ?]%elem_of_seqZ. rewrite count_s by lia. split_tests; lia. }
      rewrite !Z.mul_add_distr_l, !Zsum_seqZ_linear by lia. ring.
    + rewrite (Zsum_seqZ_split q) by lia.
      rewrite (Zsum_seqZ_first q) by lia.
      rewrite (count_s N p q q) by lia. split_tests.
      rewrite (Zsum_zero (seqZ 0 q)).
      2: { intros r [? ?]%elem_of_seqZ. rewrite count_s by lia. split_tests; lia. }
      rewrite (Zsum_zero (seqZ (q + 1) _)).
      2: { intros r [? ?]%elem_of_seqZ. rewrite count_s by lia. split_tests; lia. }
      lia.
Qed.

Lemma count_qrs (N p : Z) :
  (0 ≤ p < N)%Z →
  (2 * Zsum (seqZ 0 N)
         (λ q, Zsum (seqZ 0 N)
                 (λ r, Zsum (seqZ 0 N) (λ s, appends (doubles_branch p q r s))))
   = N * (N - 1) + 2 * (N - 1) - 2 * p
     + (N - 1 - p) * ((N - 1 - p) * (N - 2 - p))
     + p * (2 * (N - 1 - p)))%Z.
Proof.
  intros Hp. rewrite <- Zsum_scale.
  rewrite (Zsum_seqZ_split p) by lia.
  rewrite (Zsum_seqZ_first p) by lia.
  rewrite (count_rs N p p) by lia. rewrite Z.eqb_refl.
  rewrite (Zsum_ext (seqZ 0 p) _ (λ _, 2 * (N - 1 - p))%Z).
  2: { intros q [? ?]%elem_of_seqZ. rewrite count_rs by lia. split_tests; lia. }
  rewrite (Zsum_ext (seqZ (p + 1) _) _ (λ _, (N - 1 - p) * (N - 2 - p))%Z).
  2: { intros q [? ?]%elem_of_seqZ. rewrite count_rs by lia. split_tests; lia. }
  rewrite !Zsum_seqZ_const by lia. ring.
Qed.

Lemma Zsum_seqZ_cubic (n c0 c1 c2 c3 : Z) :
  (0 ≤ n)%Z →
  (12 * Zsum (seqZ 0 n) (λ p, c0 + c1 * p + c2 * p ^ 2 + c3 * p ^ 3)
   = 12 * c0 * n + 6 * c1 * (n * (n - 1)) + 2 * c2 * (n * (n - 1) * (2 * n - 1))
     + 3 * c3 * (n ^ 2 * (n - 1) ^ 2))%Z.
Proof.
  revert n. apply seqZ_induction.
  - rewrite seqZ_nil by lia. simpl. ring.
  - intros n Hn IH. rewrite Zsum_seqZ_succ by done.
    rewrite Z.mul_add_distr_l, IH. ring.
Qed.

Lemma count_quadruples (N : Z) :
  (0 ≤ N)%Z →
  (8 * Zsum (product4 (selection N))
         (λ t, appends (doubles_branch t.1.1.1 t.1.1.2 t.1.2 t.2))
   = N * (N ^ 3 + 2 * N ^ 2 - N - 2))%Z.
Proof.
  intros HN.
  assert (Zsum (product4 (selection N))
            (λ t, appends (doubles_branch t.1.1.1 t.1.1.2 t.1.2 t.2))
          = Zsum (seqZ 0 N) (λ p, Zsum (seqZ 0 N) (λ q, Zsum (seqZ 0 N)
              (λ r, Zsum (seqZ 0 N) (λ s, appends (doubles_branch p q r s)))))) as ->.
  { unfold product4, selection. rewrite Zsum_bind. apply Zsum_ext. intros p _.
    rewrite Zsum_bind. apply Zsum_ext. intros q _.
    rewrite Zsum_bind. apply Zsum_ext. intros r _.
    rewrite Zsum_bind. apply Zsum_ext. intros s _. simpl. lia. }
  assert (24 * Zsum (seqZ 0 N) (λ p, Zsum (seqZ 0 N) (λ q, Zsum (seqZ 0 N)
              (λ r, Zsum (seqZ 0 N) (λ s, appends (doubles_branch p q r s)))))
          = 3 * (N * (N ^ 3 + 2 * N ^ 2 - N - 2)))%Z; [|lia].
  replace 24%Z with (12 * 2)%Z by done. rewrite <- Z.mul_assoc, <- Zsum_scale.
  rewrite (Zsum_ext _ _
             (λ p, ((N - 1) ^ 3 + 3 * (N - 1)) + (- 3 * (N - 1) ^ 2 + 4 * (N - 1) - 2) * p
                   + (3 * (N - 1) - 3) * p ^ 2 + (- 1) * p ^ 3)%Z).
  - rewrite Zsum_seqZ_cubic by done. ring.
  - intros p [? ?]%elem_of_seqZ. rewrite count_qrs by lia. ring.
Qed.

Lemma doubles_loop_spec (n : Z) (u : bool) (tuples : list (Z * Z * Z * Z))
    (acc : list (list Term)) :
  (1 ≤ n)%Z →
  Forall (λ t, (0 ≤ t.1.2)%Z) tuples →
  ∃ g, doubles_loop n u tuples acc = Ok (acc ++ g)
       ∧ Z.of_nat (length g)
         = Zsum tuples (λ t, appends (doubles_branch t.1.1.1 t.1.1.2 t.1.2 t.2))
       ∧ Forall (λ terms, length terms ∈ [20; 4; 2]%nat) g.
Proof.
  intros Hn Hall. revert acc.
  induction Hall as [|[[[pp qq] rr] ss] tuples Hr _ IH]; intros acc.
  - exists []. by rewrite app_nil_r.
  - simpl in Hr. rewrite Zsum_cons. cbn [doubles_loop fst snd].
    destruct (doubles_branch pp qq rr ss) as [|[|[|[|[|k]]]]] eqn:Hb;
      cbn [appends].
    + destruct (IH acc) as (g & -> & Hlen & Hg). exists g.
      split; [done|]. split; [lia|done].
    + destruct (get_group_1_2_spec n pp qq rr ss u Hn Hr) as (t & _ & -> & Ht & _).
      destruct (IH (acc ++ [t])) as (g & Hg & Hlen & Hfor). exists (t :: g).
      cbn [bind]. rewrite Hg. split; [by rewrite <- app_assoc|].
      split; [simpl length; lia|]. apply Forall_cons_2; [|done]. rewrite Ht. left.
    + destruct (get_group_1_2_spec n pp qq rr ss u Hn Hr) as (t & _ & -> & Ht & _).
      destruct (IH (acc ++ [t])) as (g & Hg & Hlen & Hfor). exists (t :: g).
      cbn [bind]. rewrite Hg. split; [by rewrite <- app_assoc|].
      split; [simpl length; lia|]. apply Forall_cons_2; [|done]. rewrite Ht. left.
    + destruct (get_group_3_4_spec n pp qq rr ss u Hn Hr) as (t & _ & -> & Ht & _).
      destruct (IH (acc ++ [t])) as (g & Hg & Hlen & Hfor). exists (t :: g).
      cbn [bind]. rewrite Hg. split; [by rewrite <- app_assoc|].
      split; [simpl length; lia|]. apply Forall_cons_2; [|done]. rewrite Ht. right; left.
    + destruct (get_group_3_4_spec n pp qq rr ss u Hn Hr) as (t & _ & -> & Ht & _).
      destruct (IH (acc ++ [t])) as (g & Hg & Hlen & Hfor). exists (t :: g).
      cbn [bind]. rewrite Hg. split; [by rewrite <- app_assoc|].
      split; [simpl length; lia|]. apply Forall_cons_2; [|done]. rewrite Ht. right; left.
    + destruct (get_group_5_spec n pp qq rr ss u Hn Hr) as (t & _ & -> & Ht & _).
      destruct (IH (acc ++ [t])) as (g & Hg & Hlen & Hfor). exists (t :: g).
      cbn [bind]. rewrite Hg. split; [by rewrite <- app_assoc|].
      split; [simpl length; lia|]. apply Forall_cons_2; [|done]. rewrite Ht.
      right; right; left.
Qed.

Lemma product4_third (sel : list Z) :
  Forall (λ x, (0 ≤ x)%Z) sel → Forall (λ t : Z * Z * Z * Z, (0 ≤ t.1.2)%Z) (product4 sel).
Proof.
  intros Hsel. rewrite Forall_forall in Hsel. apply Forall_forall.
  intros t. unfold product4.
  intros (p & Ht & Hp)%list_elem_of_bind.
  apply list_elem_of_bind in Ht as (q & Ht & Hq).
  apply list_elem_of_bind in Ht as (r & Ht & Hr).
  apply list_elem_of_bind in Ht as (s & Ht & Hs).
  apply list_elem_of_singleton in Ht as ->. simpl. by apply Hsel.
Qed.

Lemma get_doubles_spec (n : Z) (u : bool) :
  (1 ≤ n)%Z →
  ∃ g, get_doubles n u = Ok g ∧ Z.of_nat (length g) = get_doubles_number n
       ∧ Forall (λ terms, length terms ∈ [20; 4; 2]%nat) g.
Proof.
  intros Hn. unfold get_doubles. destruct (Z.ltb_spec n 1); [lia|].
  destruct (doubles_loop_spec n u (product4 (selection n)) [] Hn) as (g & -> & Hlen & Hall).
  { apply product4_third, Forall_forall. intros x [? ?]%elem_of_seqZ. lia. }
  exists g. split; [done|]. split; [|done].
  pose proof (count_quadruples n ltac:(lia)) as Hcount. rewrite <- Hlen in Hcount.
  unfold get_doubles_number. apply Z.div_unique_exact; lia.
Qed.

(** X20.  [get_doubles] raises [ValueError] below one orbital; from one
    orbital on it returns [n * (n^3 + 2 n^2 - n - 2) // 8] groups, the number
    [get_doubles_number] announces, each of 20, 4 or 2 terms, with either
    spin ordering: none of the lookups in the groups fails. *)
Theorem get_doubles_has_doubles_number (n : Z) (u : bool) :
  ((n < 1)%Z → get_doubles n u = Raise ValueError)
  ∧ ((1 ≤ n)%Z →
     ∃ g, get_doubles n u = Ok g ∧ Z.of_nat (length g) = get_doubles_number n
          ∧ Forall (λ terms, length terms ∈ [20; 4; 2]%nat) g).
Proof.
  split.
  - intros Hn. unfold get_doubles. by destruct (Z.ltb_spec n 1); [|lia].
  - apply get_doubles_spec.
Qed.

Example doubles_of_two_orbitals :
  bind (get_doubles 2 false) (λ g, Ok (length g)) = Ok 3%nat
  ∧ get_doubles_number 2 = 3%Z.
Proof. split; reflexivity. Qed.

Lemma get_singles_number_nonneg (k : Z) : (0 ≤ get_singles_number k)%Z.
Proof.
  unfold get_singles_number. apply Z.div_pos; [|lia].
  destruct (Z.le_gt_cases k 0); nia.
Qed.

Lemma get_doubles_number_nonneg (k : Z) : (0 ≤ get_doubles_number k)%Z.
Proof.
  unfold get_doubles_number. apply Z.div_pos; [|lia].
  replace (k * (k ^ 3 + 2 * k ^ 2 - k - 2))%Z
    with ((k * (k + 1)) * (k * (k + 1) - 2))%Z by ring.
  assert (k * (k + 1) = 0 ∨ 2 ≤ k * (k + 1))%Z as [Hm|Hm].
  { assert (k ≤ - 2 ∨ k = - 1 ∨ k = 0 ∨ 1 ≤ k)%Z as [?|[->|[->|?]]] by lia;
      [right; nia|by left|by left|right; nia]. }
  - rewrite Hm. lia.
  - apply Z.mul_nonneg_nonneg; lia.
Qed.

Section Generator.

Context {FermionOperator : Type}.
Variable zero : FermionOperator.
Variable iadd : FermionOperator → list (Z * Z) → Q → FermionOperator.
Variable fmul : Q → Q → Q.
Variable random : Z → result (list Q).

#[local] Abbreviation coeffs_or_random := (coeffs_or_random random).
#[local] Abbreviation get_coeffs := (get_coeffs random).
#[local] Abbreviation add_terms := (add_terms iadd fmul).
#[local] Abbreviation generator_loop := (generator_loop zero iadd fmul).
#[local] Abbreviation uccgsd_generator := (uccgsd_generator zero iadd fmul random).

(** [np.random.random(size)] returns [size] numbers. *)
Hypothesis random_has_size :
  ∀ k, (0 ≤ k)%Z → ∃ l, random k = Ok l ∧ Z.of_nat (length l) = k.

Lemma coeffs_or_random_cases (given : option (list Q)) (number : Z) :
  (0 ≤ number)%Z →
  ((∃ l, given = Some l ∧ Z.of_nat (length l) ≠ number)
   ∧ coeffs_or_random given number = Raise ValueError)
  ∨ ((∀ l, given = Some l → Z.of_nat (length l) = number)
     ∧ ∃ c, coeffs_or_random given number = Ok c ∧ Z.of_nat (length c) = number).
Proof.
  intros Hnum. destruct given as [l|]; simpl.
  - destruct (Z.eqb_spec (Z.of_nat (length l)) number) as [Heq|Hne]; simpl.
    + right. split; [by intros ? [= <-]|eauto].
    + left. split; [eauto|done].
  - right. split; [done|]. by apply random_has_size.
Qed.

Lemma add_terms_in_range (coeffs : list Q) (index : nat) (oi : list Term)
    (current : FermionOperator) :
  (index < length coeffs)%nat → is_ok (add_terms coeffs index oi current) = true.
Proof.
  intros [c Hc]%lookup_lt_is_Some. revert current.
  induction oi as [|term oi IH]; intros current; [done|].
  simpl. unfold coeff. rewrite Hc. simpl. apply IH.
Qed.

Lemma generator_loop_in_range (coeffs : list Q) (index : nat)
    (operators : list (list Term)) (acc : list FermionOperator) :
  (index + length operators ≤ length coeffs)%nat →
  ∃ ops, generator_loop coeffs index operators acc = Ok (acc ++ ops)
         ∧ length ops = length operators.
Proof.
  revert index acc. induction operators as [|oi operators IH]; intros index acc Hlen.
  - exists []. by rewrite app_nil_r.
  - simpl in *.
    pose proof (add_terms_in_range coeffs index oi zero ltac:(lia)) as Hok.
    destruct (GeneralUCC.add_terms iadd fmul coeffs index oi zero) as [current|];
      [|done].
    simpl. destruct (IH (S index) (acc ++ [current]) ltac:(lia)) as (ops & -> & Hops).
    exists (current :: ops). split; [by rewrite <- app_assoc|]. simpl. lia.
Qed.

Lemma get_all_excitations_spec (n : Z) (u : bool) :
  (1 ≤ n)%Z →
  ∃ g, get_all_excitations n u = Ok g
       ∧ Z.of_nat (length g) = get_excitation_number n.
Proof.
  intros Hn. unfold get_all_excitations. destruct (Z.ltb_spec n 1); [lia|].
  destruct (get_singles_spec n u Hn) as (gs & -> & Hs & _).
  destruct (get_doubles_spec n u Hn) as (gd & -> & Hd & _).
  exists (gs ++ gd). split; [done|].
  rewrite length_app. unfold get_excitation_number. lia.
Qed.

(** X21.  [uccgsd_generator] raises [ValueError] for fewer than two or an
    odd number of qubits, and for a list of singles or doubles coefficients
    whose length is not what [get_singles_number] and [get_doubles_number]
    announce for half the qubits.  In every other case it returns one
    operator per excitation group, [get_excitation_number] of them: the
    lookup [coeffs[index]] never leaves the array.  Its [up_down] argument
    has no effect. *)
Theorem uccgsd_generator_covers_every_group
    (n : Z) (single_coeffs double_coeffs : option (list Q)) (u : bool) :
  ((n < 2)%Z ∨ (n `mod` 2 ≠ 0)%Z →
     uccgsd_generator n single_coeffs double_coeffs u = Raise ValueError)
  ∧ ((2 ≤ n)%Z → (n `mod` 2 = 0)%Z →
     (∃ l, single_coeffs = Some l
           ∧ Z.of_nat (length l) ≠ get_singles_number (n `div` 2))
     ∨ (∃ l, double_coeffs = Some l
             ∧ Z.of_nat (length l) ≠ get_doubles_number (n `div` 2)) →
     uccgsd_generator n single_coeffs double_coeffs u = Raise ValueError)
  ∧ ((2 ≤ n)%Z → (n `mod` 2 = 0)%Z →
     (∀ l, single_coeffs = Some l
           → Z.of_nat (length l) = get_singles_number (n `div` 2)) →
     (∀ l, double_coeffs = Some l
           → Z.of_nat (length l) = get_doubles_number (n `div` 2)) →
     ∃ ops, uccgsd_generator n single_coeffs double_coeffs u = Ok ops
            ∧ Z.of_nat (length ops) = get_excitation_number (n `div` 2))
  ∧ uccgsd_generator n single_coeffs double_coeffs u
    = uccgsd_generator n single_coeffs double_coeffs (negb u).
Proof.
  split; [|split; [|split]]; [| | |done].
  - unfold GeneralUCC.uccgsd_generator. intros Hbad.
    destruct (Z.ltb_spec n 2); [done|].
    destruct (Z.eqb_spec (n `mod` 2) 0); [lia|done].
  - intros Hn Heven Hbad. unfold GeneralUCC.uccgsd_generator.
    destruct (Z.ltb_spec n 2); [lia|].
    destruct (Z.eqb_spec (n `mod` 2) 0); [simpl|lia].
    unfold GeneralUCC.get_coeffs.
    destruct (coeffs_or_random_cases single_coeffs (get_singles_number (n `div` 2))
                (get_singles_number_nonneg _)) as [[_ ->]|[Hs (s & -> & _)]]; [done|].
    simpl.
    destruct (coeffs_or_random_cases double_coeffs (get_doubles_number (n `div` 2))
                (get_doubles_number_nonneg _)) as [[_ ->]|[Hd (d & -> & _)]]; [done|].
    destruct Hbad as [(l & Hl & Hne)|(l & Hl & Hne)]; [by apply Hs in Hl|by apply Hd in Hl].
  - intros Hn Heven Hs Hd. unfold GeneralUCC.uccgsd_generator.
    destruct (Z.ltb_spec n 2); [lia|].
    destruct (Z.eqb_spec (n `mod` 2) 0); [simpl|lia].
    unfold GeneralUCC.get_coeffs.
    destruct (coeffs_or_random_cases single_coeffs (get_singles_number (n `div` 2))
                (get_singles_number_nonneg _))
      as [[(l & Hl & Hne) _]|[_ (s & -> & Hls)]]; [by apply Hs in Hl|].
    simpl.
    destruct (coeffs_or_random_cases double_coeffs (get_doubles_number (n `div` 2))
                (get_doubles_number_nonneg _))
      as [[(l & Hl & Hne) _]|[_ (d & -> & Hld)]]; [by apply Hd in Hl|].
    simpl.
    destruct (get_all_excitations_spec (n `div` 2) false) as (g & -> & Hg).
    { Z.div_mod_to_equations. lia. }
    simpl.
    destruct (generator_loop_in_range (s ++ d) 0 g []) as (ops & -> & Hops).
    { rewrite length_app. unfold get_excitation_number in Hg. lia. }
    exists ops. split; [done|]. lia.
Qed.

End Generator.

Lemma spin_orderings_differ_by_remapped_witness :
  ∃ up dn up' dn',
    get_spin_ordered 2 0 1 (- 1) (- 1) false = Ok (up, dn)
    ∧ get_spin_ordered 2 0 1 (- 1) (- 1) true = Ok (up', dn')
    ∧ Forall2 (λ x x', MappingTransform.remapped 4 !! Z.to_nat x = Some x') up up'
    ∧ Forall2 (λ x x', MappingTransform.remapped 4 !! Z.to_nat x = Some x') dn dn'.
Proof.
  destruct (spin_orderings_differ_by_remapped 2 0 1 (- 1) (- 1))
    as (up & dn & up' & dn' & H1 & H2 & _ & _ & _ & _ & _ & H3 & H4); [lia..|].
  by exists up, dn, up', dn'.
Defined.

Example spin_orderings_of_a_pair :
  get_spin_ordered 2 0 1 (- 1) (- 1) false = Ok ([0; 2], [1; 3])%Z
  ∧ get_spin_ordered 2 0 1 (- 1) (- 1) true = Ok ([0; 1], [2; 3])%Z
  ∧ MappingTransform.remapped 4 = [0; 2; 1; 3]%Z.
Proof. by repeat split. Qed.

Lemma groups_are_antihermitian_witness :
  ∃ g hc, get_group_5 2 0 0 1 1 false = Ok g ∧ length g = 2%nat
          ∧ hermitian_conjugate g = Ok hc ∧ hc ≡ₚ g.
Proof.
  destruct (groups_are_antihermitian 2 0 0 1 1 false) as [Hgroups _]; [lia|].
  destruct Hgroups as (_ & _ & H5); [lia|]. exact H5.
Defined.

Example group_5_of_two_orbitals :
  get_group_5 2 0 0 1 1 false
  = Ok [([(0, 1); (1, 1); (2, 0); (3, 0)]%Z, 2%Q);
        ([(3, 1); (2, 1); (1, 0); (0, 0)]%Z, (- 2)%Q)].
Proof. reflexivity. Qed.

Lemma hermitian_conjugate_twice_witness :
  ∃ hc, hermitian_conjugate [([(0, 1); (2, 1); (4, 0); (6, 0)]%Z, (1 # 2)%Q)] = Ok hc
        ∧ hermitian_conjugate hc = Ok [([(0, 1); (2, 1); (4, 0); (6, 0)]%Z, (1 # 2)%Q)].
Proof.
  destruct (hermitian_conjugate_twice [([(0, 1); (2, 1); (4, 0); (6, 0)]%Z, (1 # 2)%Q)])
    as (_ & _ & _ & Hinv).
  apply Hinv. shaped_terms.
Defined.

Lemma get_singles_has_singles_number_witness :
  ∃ g, get_singles 3 false = Ok g ∧ Z.of_nat (length g) = 3%Z.
Proof.
  destruct (get_singles_has_singles_number 3 false) as [_ Hok].
  destruct Hok as (g & Hg & Hlen & _); [lia|].
  exists g. split; [exact Hg|exact Hlen].
Defined.

Lemma get_doubles_has_doubles_number_witness :
  ∃ g, get_doubles 3 true = Ok g ∧ Z.of_nat (length g) = 15%Z.
Proof.
  destruct (get_doubles_has_doubles_number 3 true) as [_ Hok].
  destruct Hok as (g & Hg & Hlen & _); [lia|].
  exists g. split; [exact Hg|exact Hlen].
Defined.

Lemma toy_random_has_size (k : Z) :
  (0 ≤ k)%Z → ∃ l, ToyGenerator.random k = Ok l ∧ Z.of_nat (length l) = k.
Proof.
  intros Hk. unfold ToyGenerator.random. destruct (Z.ltb_spec k 0); [lia|].
  eexists. split; [done|]. rewrite length_replicate. lia.
Defined.

Lemma uccgsd_generator_covers_every_group_witness :
  ∃ ops, ToyGenerator.uccgsd_generator 4 None (Some [1; 2; 3]%Q) true = Ok ops
         ∧ Z.of_nat (length ops) = 4%Z.
Proof.
  destruct (uccgsd_generator_covers_every_group ToyGenerator.zero ToyGenerator.iadd
              Qmult ToyGenerator.random toy_random_has_size 4 None (Some [1; 2; 3]%Q) true)
    as (_ & _ & Hok & _).
  apply Hok; [lia|done|done|]. by intros l [= <-].
Defined.

Example toy_generator_refuses_short_doubles :
  ToyGenerator.uccgsd_generator 4 None (Some [1; 2]%Q) false = Raise ValueError.
Proof. reflexivity. Qed.

End GeneralUCCFacts.

(** ** Further theorems: the constructed solver *)

Module ADAPTInitMore.
Import ADAPTInit.

(** X22.  A solver that [__init__] constructs reads every recognised option
    back as the option dictionary gave it, and as its default when the
    dictionary did not; exactly one of [molecule] and [qubit_hamiltonian] is
    true on it; it starts not converged, at iteration 0 and without optimum;
    and it has no attribute besides the recognised options and these six.  *)
Theorem init_reads_every_option_back
    (opt_dict : list (string * value)) (self : gmap string value) :
  __init__ opt_dict = Ok self →
  (∀ k, recognized k →
     self !! k = Some (default (getattr default_options k) (items_get opt_dict k)))
  ∧ truthy (getattr self "molecule") ≠ truthy (getattr self "qubit_hamiltonian")
  ∧ self !! "converged" = Some (VBool false)
  ∧ self !! "iteration" = Some (VInt 0)
  ∧ self !! "optimal_energy" = Some VNone
  ∧ self !! "optimal_var_params" = Some VNone
  ∧ self !! "optimal_circuit" = Some VNone
  ∧ (∀ k, is_Some (self !! k) ↔
       recognized k
       ∨ k ∈ ["converged"; "iteration"; "optimal_energy"; "optimal_var_params";
              "optimal_circuit"; "builtin_ansatze"]).
Proof.
  unfold __init__. rewrite (ADAPTInitFacts.overwrite_spec _ _ ADAPTInitFacts.contains_default).
  destruct (first_unknown opt_dict) eqn:Hnone; [done|]. simpl.
  destruct (negb (xorb _ _)) eqn:Hxor; [done|]. intros [= <-].
  assert (Hrec : ∀ k, recognized k →
            k ∉ ["converged"; "iteration"; "optimal_energy"; "optimal_var_params";
                 "optimal_circuit"; "builtin_ansatze"]).
  { intros k Hk Hin. unfold recognized in Hk. simpl in Hk.
    repeat (apply elem_of_cons in Hin as [->|Hin];
            [by repeat (apply elem_of_cons in Hk as [Hk|Hk]; [done|]);
                apply elem_of_nil in Hk|]).
    by apply elem_of_nil in Hin. }
  assert (Hlook : ∀ k,
            foldl (λ d kv, <[kv.1 := kv.2]> d) default_options opt_dict !! k
            = match items_get opt_dict k with
              | Some v => Some v
              | None => default_options !! k
              end).
  { intros k. apply ADAPTInitFacts.lookup_dict_fold. }
  assert (Hdef : ∀ k, is_Some (default_options !! k) ↔ recognized k).
  { intros k. pose proof (ADAPTInitFacts.contains_default k) as Hc.
    unfold contains in Hc. split.
    - intros Hs. apply (bool_decide_eq_true_2 _) in Hs. rewrite Hc in Hs.
      by apply bool_decide_eq_true_1 in Hs.
    - intros Hr. apply (bool_decide_eq_true_2 _) in Hr. rewrite <- Hc in Hr.
      by apply bool_decide_eq_true_1 in Hr. }
  assert (Hknown : ∀ k, k ∈ opt_dict.*1 → recognized k).
  { clear Hxor Hlook. induction opt_dict as [|[k' v] rest IH]; intros k; simpl.
    - by intros ?%elem_of_nil.
    - simpl in Hnone. case_bool_decide as Hk'; [|done].
      intros [->|Hin]%elem_of_cons; [done|]. by apply IH. }
  split; [|split; [|split; [|split; [|split; [|split; [|split]]]]]].
  - intros k Hk. pose proof (Hrec k Hk) as Hnot.
    rewrite !lookup_insert_ne
      by (intros <-; apply Hnot; rewrite !elem_of_cons; tauto).
    rewrite Hlook. destruct (items_get opt_dict k); [done|]. simpl.
    unfold getattr. apply Hdef in Hk as [v ->]. done.
  - unfold getattr. rewrite !lookup_insert_ne by done.
    unfold getattr in Hxor.
    destruct (truthy _), (truthy _); done.
  - by rewrite !lookup_insert_ne, lookup_insert_eq by done.
  - by rewrite !lookup_insert_ne, lookup_insert_eq by done.
  - by rewrite !lookup_insert_ne, lookup_insert_eq by done.
  - by rewrite !lookup_insert_ne, lookup_insert_eq by done.
  - by rewrite !lookup_insert_ne, lookup_insert_eq by done.
  - intros k. rewrite !lookup_insert_is_Some, !elem_of_cons, elem_of_nil.
    rewrite Hlook. split.
    + intros [?|[_ [?|[_ [?|[_ [?|[_ [?|[_ [?|[_ Hs]]]]]]]]]]]]; subst; try tauto.
      left. destruct (items_get opt_dict k) eqn:Hget; [|by apply Hdef].
      apply Hknown, ADAPTInitFacts.items_get_is_Some. rewrite Hget. eauto.
    + intros [Hk|Hk].
      * pose proof (Hrec k Hk) as Hnot. rewrite !elem_of_cons, elem_of_nil in Hnot.
        do 6 (right; split; [intros <-; tauto|]).
        destruct (items_get opt_dict k); [eauto|]. by apply Hdef.
      * destruct (decide ("builtin_ansatze" = k)); [by left|right; split; [done|]].
        destruct (decide ("optimal_circuit" = k)); [by left|right; split; [done|]].
        destruct (decide ("optimal_var_params" = k)); [by left|right; split; [done|]].
        destruct (decide ("optimal_energy" = k)); [by left|right; split; [done|]].
        destruct (decide ("iteration" = k)); [by left|right; split; [done|]].
        destruct (decide ("converged" = k)); [by left|right; split; [done|]].
        exfalso. clear -Hk n n0 n1 n2 n3 n4. intuition congruence.
Qed.

Lemma init_reads_every_option_back_witness :
  ∃ self, __init__ [("qubit_hamiltonian", VObj "QubitOperator" true); ("max_cycles", VInt 3)]
          = Ok self
          ∧ self !! "max_cycles" = Some (VInt 3)
          ∧ self !! "tol" = Some (VFloat float_1e_3)
          ∧ self !! "iteration" = Some (VInt 0).
Proof.
  eexists. split; [reflexivity|].
  destruct (init_reads_every_option_back
              [("qubit_hamiltonian", VObj "QubitOperator" true); ("max_cycles", VInt 3)]
              _ eq_refl) as (Hopt & _ & _ & Hit & _).
  split; [|split; [|exact Hit]].
  - apply (Hopt "max_cycles"). unfold recognized. simpl. rewrite !elem_of_cons. tauto.
  - apply (Hopt "tol"). unfold recognized. simpl. rewrite !elem_of_cons. tauto.
Defined.

End ADAPTInitMore.
